(** * UART firmware core: receive ring, task queue, EEPROM persistence

    Shallow embedding of
      - [uart_command_logger.X/main.c]   (ring buffer, task list, EEPROM save/load,
                                          tick-driven task runner), and
      - [UART-based Circular Buffer system with interrupts/uart_with_ring_buffer.X/main.c]
                                         (the same ring buffer with an echo loop).

    Conventions.
      - C integers are [Z]; a conversion to [uint8_t], [uint16_t] or [char] is written
        out as a reduction modulo 2^8 / 2^16.  A [char] is represented by its 8-bit
        pattern, so the model does not depend on the signedness of plain [char].
      - C's [%] is only ever applied to non-negative operands here, where it agrees
        with [Z.modulo].
      - The target is AVR (the sources include <avr/io.h>): data pointers are two
        bytes, integers are little-endian and structs carry no padding. *)

From Stdlib Require Import ZArith Lia String Ascii DecimalString.
From stdpp Require Import gmap list sorting.

Open Scope Z_scope.

Definition uint8 (x : Z) : Z := x mod 256.
Definition uint16 (x : Z) : Z := x mod 65536.
(** the bit pattern of an integer converted to [char] *)
Definition char_of (x : Z) : Z := x mod 256.

Ltac zmod := Z.div_mod_to_equations; lia.

(** Boolean comparisons in the hypotheses, turned into propositions. *)
Ltac zbool :=
  repeat match goal with
  | H : (_ <=? _) = true |- _ => apply Z.leb_le in H
  | H : (_ <=? _) = false |- _ => apply Z.leb_gt in H
  | H : (_ <? _) = true |- _ => apply Z.ltb_lt in H
  | H : (_ <? _) = false |- _ => apply Z.ltb_ge in H
  | H : (_ =? _) = true |- _ => apply Z.eqb_eq in H
  | H : (_ =? _) = false |- _ => apply Z.eqb_neq in H
  end.

(* ===================================================================== *)
(** ** The receive ring (both source files)                               *)
(* ===================================================================== *)

Module Ring.

Definition BUFFER_SIZE : Z := 64.

(** [volatile char rx_buffer[BUFFER_SIZE]; volatile uint8_t head = 0, tail = 0;] *)
Record ring := Mk { rx_buffer : list Z; head : Z; tail : Z }.

Definition init : ring :=
  {| rx_buffer := replicate 64 0; head := 0; tail := 0 |}.

(** Type invariant of the three globals: the array has [BUFFER_SIZE] cells and both
    indices stay inside it.  An index outside the array would be undefined
    behaviour in C; [ok] is preserved by every operation (lemmas [ok_rx], [ok_read]). *)
Definition ok (r : ring) : Prop :=
  length (rx_buffer r) = 64%nat ∧ 0 ≤ head r < 64 ∧ 0 ≤ tail r < 64.

(** [uint8_t buffer_is_empty() { return head == tail; }] *)
Definition buffer_is_empty (r : ring) : bool := head r =? tail r.

(** [uint8_t buffer_is_full() { return ((head + 1) % BUFFER_SIZE) == tail; }] *)
Definition buffer_is_full (r : ring) : bool :=
  ((head r + 1) mod BUFFER_SIZE) =? tail r.

(** [char buffer_read()]: the returned [char] and the ring afterwards. *)
Definition buffer_read (r : ring) : Z * ring :=
  if buffer_is_empty r then (char_of (-1), r)
  else
    let c := rx_buffer r !!! Z.to_nat (tail r) in
    (c, {| rx_buffer := rx_buffer r;
           head := head r;
           tail := uint8 ((tail r + 1) mod BUFFER_SIZE) |}).

(** [ISR(USART_RX_vect)], with the byte found in [UDR0] as argument. *)
Definition USART_RX_vect (udr0 : Z) (r : ring) : ring :=
  let data := char_of udr0 in
  let next := uint8 ((head r + 1) mod BUFFER_SIZE) in
  if negb (next =? tail r) then
    {| rx_buffer := <[Z.to_nat (head r) := data]> (rx_buffer r);
       head := next;
       tail := tail r |}
  else r.

(** The second source file spells the same three functions
    [is_buffer_empty], [is_buffer_full] and [uart_read]. *)
Definition is_buffer_empty := buffer_is_empty.
Definition is_buffer_full := buffer_is_full.
Definition uart_read := buffer_read.

(** [uart_send(c)] appends [c] to the transmitted bytes (the busy-wait on [UDRE0]
    is not modelled). *)
Definition uart_send (c : Z) (tx : list Z) : list Z := tx ++ [c].

(** [void uart_echo()]: one iteration of the consumer loop. *)
Definition uart_echo (st : ring * list Z) : ring * list Z :=
  let '(r, tx) := st in
  if negb (is_buffer_empty r) then
    let '(c, r') := uart_read r in (r', uart_send c tx)
  else (r, tx).

(** An execution interleaves receive interrupts with consumer iterations. *)
Inductive event := Rx (udr0 : Z) | Echo.

Definition step (st : ring * list Z) (e : event) : ring * list Z :=
  match e with
  | Rx d => (USART_RX_vect d (fst st), snd st)
  | Echo => uart_echo st
  end.

Definition exec (evs : list event) (st : ring * list Z) : ring * list Z :=
  foldl step st evs.

Definition pushed (evs : list event) : list Z :=
  omap (λ e, match e with Rx d => Some (char_of d) | Echo => None end) evs.

(** The unread bytes, oldest first: cells [tail], [tail+1], ... up to [head]. *)
Definition used (r : ring) : nat := Z.to_nat ((head r - tail r) mod 64).

Definition contents (r : ring) : list Z :=
  map (λ i : nat, rx_buffer r !!! Z.to_nat ((tail r + Z.of_nat i) mod 64))
      (seq 0 (used r)).

End Ring.

(* ===================================================================== *)
(** ** Task list, task runner and EEPROM persistence                      *)
(**    ([uart_command_logger.X/main.c])                                   *)
(* ===================================================================== *)

Module Logger.

Definition MAX_CMD_LEN : Z := 32.
Definition MAX_LOGS : nat := 10.
Definition TICK_MS : Z := 10.

Definition NULL : Z := 0.

(** [struct TaskNode { char data[MAX_CMD_LEN]; uint16_t delay_ticks;
                       uint8_t priority; struct TaskNode* next; };] *)
Record TaskNode := Node {
  data : list Z;
  delay_ticks : Z;
  priority : Z;
  next : Z
}.

(** [sizeof(TaskNode)] on AVR: 32 + 2 + 1 + 2 bytes, no padding. *)
Definition sizeof_TaskNode : Z := MAX_CMD_LEN + 2 + 1 + 2.

(** The globals of the program together with its environment.
    - [heap]: the nodes obtained from [malloc] and not yet freed, by address;
    - [pool]: the blocks the allocator can still hand out, in the order it will hand
      them out; [malloc] fails (returns [NULL]) when the pool is empty;
    - [eeprom]: the non-volatile bytes, by address;
    - [ee_writes]: the calls to [eeprom_write_block] made so far (address, bytes);
    - [tx]: the bytes passed to [uart_send] so far. *)
Record state := State {
  heap : gmap Z TaskNode;
  pool : list Z;
  log_head : Z;
  ee_address : Z;
  eeprom : gmap Z Z;
  ee_writes : list (Z * list Z);
  tx : list Z
}.

Definition set_heap (h : gmap Z TaskNode) (s : state) : state :=
  State h (pool s) (log_head s) (ee_address s) (eeprom s) (ee_writes s) (tx s).
Definition set_pool (p : list Z) (s : state) : state :=
  State (heap s) p (log_head s) (ee_address s) (eeprom s) (ee_writes s) (tx s).
Definition set_log_head (p : Z) (s : state) : state :=
  State (heap s) (pool s) p (ee_address s) (eeprom s) (ee_writes s) (tx s).
Definition set_ee_address (a : Z) (s : state) : state :=
  State (heap s) (pool s) (log_head s) a (eeprom s) (ee_writes s) (tx s).
Definition set_eeprom (e : gmap Z Z) (w : list (Z * list Z)) (s : state) : state :=
  State (heap s) (pool s) (log_head s) (ee_address s) e w (tx s).
Definition set_tx (t : list Z) (s : state) : state :=
  State (heap s) (pool s) (log_head s) (ee_address s) (eeprom s) (ee_writes s) t.

(** The state after reset: [log_head = NULL], [ee_address = 0], nothing allocated.
    The EEPROM keeps its content across resets. *)
Definition boot (blocks : list Z) (e : gmap Z Z) : state :=
  State ∅ blocks NULL 0 e [] [].

(** *** The C library, as far as the program uses it *)

(** [malloc(sizeof(TaskNode))]: the next free block, or [NULL] when none is left.
    The only allocations of the program are nodes, so blocks of one size suffice. *)
Definition malloc (s : state) : Z * state :=
  match pool s with
  | [] => (NULL, s)
  | p :: ps => (p, set_pool ps s)
  end.

(** [free(p)]: the node is gone and its block can be handed out again. *)
Definition free (p : Z) (s : state) : state :=
  set_pool (p :: pool s) (set_heap (delete p (heap s)) s).

(** The characters of the C string stored in [l]: those before the first NUL.
    Every buffer filled by [add_log] ends with a NUL.  A node read back from the
    EEPROM may have none in its 32 bytes; the C code would then run on into the
    bytes that follow, where the model stops at the end of the buffer. *)
Fixpoint c_str (l : list Z) : list Z :=
  match l with
  | [] => []
  | c :: l' => if c =? 0 then [] else c :: c_str l'
  end.

(** [strncpy(dest, msg, n)]: the [n] bytes written to [dest]: the string,
    cut at [n] characters or padded with NULs up to [n]. *)
Definition strncpy (msg : list Z) (n : nat) : list Z :=
  take n (c_str msg ++ replicate n 0).

Definition bytes_of_string (s : string) : list Z :=
  map (λ a, Z.of_N (N_of_ascii a)) (list_ascii_of_string s).

(** [uart_send_str(s)]: [while ( *s ) uart_send( *s++ );] *)
Definition uart_send_str (str : list Z) (s : state) : state :=
  set_tx (tx s ++ c_str str) s.

(** [%d] of a non-negative integer. *)
Definition dec (n : Z) : list Z :=
  bytes_of_string (NilZero.string_of_uint (N.to_uint (Z.to_N n))).

(** Little-endian image of a 16-bit object. *)
Definition le16 (x : Z) : list Z := [x mod 256; (x / 256) mod 256].

(** The [sizeof(TaskNode)] bytes of a node as they lie in memory. *)
Definition struct_bytes (n : TaskNode) : list Z :=
  data n ++ le16 (delay_ticks n) ++ [uint8 (priority n)] ++ le16 (next n).

(** The node whose memory image is [b]. *)
Definition struct_of_bytes (b : list Z) : TaskNode :=
  {| data := take 32 b;
     delay_ticks := b !!! 32%nat + 256 * b !!! 33%nat;
     priority := b !!! 34%nat;
     next := b !!! 35%nat + 256 * b !!! 36%nat |}.

(** The EEPROM is a flat store of bytes addressed by 16-bit pointers; its size is
    not fixed by the sources.  A cell that was never written reads as the erased
    value [0xFF]. *)
Definition ee_read (e : gmap Z Z) (a : Z) : Z := default 255 (e !! a).

(** [eeprom_write_block(src, dst, n)]: byte [i] of the source goes to cell [dst + i]. *)
Fixpoint ee_write (e : gmap Z Z) (dst : Z) (b : list Z) : gmap Z Z :=
  match b with
  | [] => e
  | x :: b' => ee_write (<[uint16 dst := x]> e) (dst + 1) b'
  end.

Definition eeprom_write_block (b : list Z) (dst : Z) (s : state) : state :=
  set_eeprom (ee_write (eeprom s) dst b) (ee_writes s ++ [(dst, b)]) s.

(** [eeprom_read_block(dst, src, n)]: the [n] bytes found from cell [src] on. *)
Definition eeprom_read_block (e : gmap Z Z) (src : Z) (n : Z) : list Z :=
  map (λ i, ee_read e (uint16 (src + i))) (seqZ 0 n).

(** Enough iterations to walk any acyclic list that lives in the heap; a loop that
    needs more never ends, which the model reports as [None]. *)
Definition fuel (s : state) : nat := S (size (heap s)).

(** *** [add_log] *)

(** [while (temp->next != NULL && temp->next->priority <= priority) temp = temp->next;] *)
Fixpoint walk (n : nat) (h : gmap Z TaskNode) (temp : Z) (prio : Z) : option Z :=
  match n with
  | O => None
  | S n =>
      t ← h !! temp;
      if next t =? NULL then Some temp
      else
        nx ← h !! next t;
        if priority nx <=? prio then walk n h (next t) prio else Some temp
  end.

Definition set_next (p : Z) (t : TaskNode) : TaskNode :=
  Node (data t) (delay_ticks t) (priority t) p.

(** [void add_log(const char* msg, uint16_t delay_ms, uint8_t priority)].
    [None] stands for undefined behaviour (a dangling pointer is dereferenced) or a
    loop that does not end. *)
Definition add_log (msg : list Z) (delay_ms prio : Z) (s : state) : option state :=
  let delay_ms := uint16 delay_ms in
  let prio := uint8 prio in
  let '(new_node, s) := malloc s in
  if new_node =? NULL then Some s
  else
    let n := {| data := strncpy msg (Z.to_nat (MAX_CMD_LEN - 1)) ++ [0];
                delay_ticks := delay_ms / TICK_MS;
                priority := prio;
                next := NULL |} in
    let h := <[new_node := n]> (heap s) in
    front ← (if log_head s =? NULL then Some true
             else hd ← h !! log_head s; Some (prio <? priority hd));
    if front : bool then
      Some (set_log_head new_node (set_heap (<[new_node := set_next (log_head s) n]> h) s))
    else
      temp ← walk (fuel s) h (log_head s) prio;
      t ← h !! temp;
      let h := <[new_node := set_next (next t) n]> h in
      t' ← h !! temp;
      Some (set_heap (<[temp := set_next new_node t']> h) s).

(** *** [print_log] *)

(** [snprintf(buf, 50, "%d: [%d] %s\n", count, priority, data)]: at most 49
    characters are kept. *)
Definition log_line (count : Z) (t : TaskNode) : list Z :=
  take 49 (dec count ++ bytes_of_string ": [" ++ dec (priority t)
           ++ bytes_of_string "] " ++ c_str (data t) ++ [10]).

Fixpoint print_loop (n : nat) (temp : Z) (count : Z) (s : state) : option state :=
  match n with
  | O => None
  | S n =>
      if temp =? NULL then Some s
      else
        t ← heap s !! temp;
        print_loop n (next t) (count + 1) (uart_send_str (log_line count t) s)
  end.

Definition print_log (s : state) : option state :=
  print_loop (fuel s) (log_head s) 1 s.

(** *** [save_logs_to_eeprom], [load_logs_from_eeprom] *)

Fixpoint save_loop (n : nat) (temp : Z) (s : state) : option state :=
  match n with
  | O => None
  | S n =>
      if temp =? NULL then Some s
      else
        t ← heap s !! temp;
        let s := eeprom_write_block (struct_bytes t) (ee_address s) s in
        let s := set_ee_address (uint16 (ee_address s + sizeof_TaskNode)) s in
        save_loop n (next t) s
  end.

Definition save_logs_to_eeprom (s : state) : option state :=
  s ← save_loop (fuel s) (log_head s) s;
  Some (uart_send_str (bytes_of_string "Logs saved to EEPROM." ++ [10]) s).

(** [for (int i = 0; i < MAX_LOGS; i++) { ... if (!new_node) break; ... }],
    by recursion on the iterations left. *)
Fixpoint load_loop (n : nat) (s : state) : state :=
  match n with
  | O => s
  | S n =>
      let '(new_node, s) := malloc s in
      if new_node =? NULL then s
      else
        let t := struct_of_bytes
                   (eeprom_read_block (eeprom s) (ee_address s) sizeof_TaskNode) in
        let s := set_ee_address (uint16 (ee_address s + sizeof_TaskNode)) s in
        let s := set_heap (<[new_node := set_next (log_head s) t]> (heap s)) s in
        load_loop n (set_log_head new_node s)
  end.

Definition load_logs_from_eeprom (s : state) : state :=
  let s := set_ee_address 0 s in
  let s := load_loop MAX_LOGS s in
  uart_send_str (bytes_of_string "Logs loaded from EEPROM." ++ [10]) s.

(** *** [execute_tasks] *)

Definition set_delay (d : Z) (t : TaskNode) : TaskNode :=
  Node (data t) d (priority t) (next t).

(** What the runner sends for a due task. *)
Definition task_msg (d : list Z) : list Z :=
  c_str (bytes_of_string "Task: ") ++ c_str d ++ [10].

Fixpoint exec_loop (n : nat) (temp prev : Z) (s : state) : option state :=
  match n with
  | O => None
  | S n =>
      if temp =? NULL then Some s
      else
        t ← heap s !! temp;
        if 0 <? delay_ticks t then
          let s := set_heap (<[temp := set_delay (delay_ticks t - 1) t]> (heap s)) s in
          exec_loop n (next t) temp s
        else
          let s := uart_send_str (bytes_of_string "Task: ") s in
          let s := uart_send_str (data t) s in
          let s := uart_send_str [10] s in
          if prev =? NULL then
            let s := set_log_head (next t) s in
            let s := free temp s in
            exec_loop n (log_head s) prev s
          else
            p ← heap s !! prev;
            let s := set_heap (<[prev := set_next (next t) p]> (heap s)) s in
            let s := free temp s in
            p' ← heap s !! prev;
            exec_loop n (next p') prev s
  end.

Definition execute_tasks (s : state) : option state :=
  exec_loop (fuel s) (log_head s) NULL s.

(** [k] scheduler ticks in a row. *)
Fixpoint ticks (k : nat) (s : state) : option state :=
  match k with
  | O => Some s
  | S k => s ← execute_tasks s; ticks k s
  end.

(** A series of calls to [add_log]. *)
Fixpoint add_logs (calls : list (list Z * Z * Z)) (s : state) : option state :=
  match calls with
  | [] => Some s
  | (msg, delay_ms, prio) :: calls => s ← add_log msg delay_ms prio s; add_logs calls s
  end.

End Logger.

(* ===================================================================== *)
(** ** Properties of the receive ring                                     *)
(* ===================================================================== *)

Module RingProofs.
Import Ring.

Lemma ok_init : ok init.
Proof. unfold ok, init; simpl. lia. Qed.

Lemma ok_rx d r : ok r → ok (USART_RX_vect d r).
Proof.
  intros (Hl & Hh & Ht). unfold USART_RX_vect.
  destruct (negb _); [|done].
  unfold ok, uint8, BUFFER_SIZE; simpl. rewrite length_insert.
  repeat split; try done; zmod.
Qed.

Lemma ok_read r : ok r → ok (buffer_read r).2.
Proof.
  intros (Hl & Hh & Ht). unfold buffer_read.
  destruct (buffer_is_empty r); [done|].
  unfold ok, uint8, BUFFER_SIZE; simpl. repeat split; try done; zmod.
Qed.

Lemma length_contents r : length (contents r) = used r.
Proof. unfold contents. by rewrite length_map, length_seq. Qed.

Lemma used_lt r : (used r < 64)%nat.
Proof. unfold used. zmod. Qed.

Lemma empty_used r : ok r → buffer_is_empty r = true ↔ used r = 0%nat.
Proof.
  intros (_ & Hh & Ht). unfold buffer_is_empty, used.
  rewrite Z.eqb_eq. split; intros; zmod.
Qed.

Lemma full_used r : ok r → buffer_is_full r = true ↔ used r = 63%nat.
Proof.
  intros (_ & Hh & Ht). unfold buffer_is_full, used, BUFFER_SIZE.
  rewrite Z.eqb_eq. split; intros; zmod.
Qed.

(** A push into a full ring changes nothing at all. *)
Lemma rx_full d r : buffer_is_full r = true → USART_RX_vect d r = r.
Proof.
  unfold buffer_is_full, USART_RX_vect, uint8, BUFFER_SIZE.
  intros H%Z.eqb_eq.
  replace (((head r + 1) mod 64) mod 256) with (tail r) by zmod.
  by rewrite Z.eqb_refl.
Qed.

(** A push into a ring that is not full appends the byte to the unread ones. *)
Lemma rx_not_full d r :
  ok r → buffer_is_full r = false →
  contents (USART_RX_vect d r) = contents r ++ [char_of d].
Proof.
  intros Hok Hnf.
  assert (Hu : used r ≠ 63%nat).
  { intros Hu. apply full_used in Hu; [congruence|done]. }
  pose proof (used_lt r) as Hlt.
  destruct Hok as (Hl & Hh & Ht).
  unfold USART_RX_vect, uint8, BUFFER_SIZE.
  assert (Hne : ((head r + 1) mod 64) mod 256 ≠ tail r).
  { intros He. unfold buffer_is_full, BUFFER_SIZE in Hnf.
    apply Z.eqb_neq in Hnf. zmod. }
  apply Z.eqb_neq in Hne. rewrite Hne. simpl.
  unfold contents at 1. simpl.
  assert (Hused : used (Mk (<[Z.to_nat (head r):=char_of d]> (rx_buffer r))
                           (((head r + 1) mod 64) mod 256) (tail r))
                  = S (used r)).
  { unfold used in *. simpl. zmod. }
  rewrite Hused, seq_S, map_app. simpl. f_equal.
  - unfold contents. apply map_ext_in. intros i Hi%in_seq.
    rewrite list_lookup_total_insert_ne; [done|].
    unfold used in *. zmod.
  - f_equal. replace (Z.to_nat ((tail r + Z.of_nat (used r)) mod 64))
      with (Z.to_nat (head r)) by (unfold used; zmod).
    apply list_lookup_total_insert_eq. lia.
Qed.

(** A read from a ring that is not empty returns the oldest unread byte and
    removes it. *)
Lemma read_not_empty r :
  ok r → buffer_is_empty r = false →
  contents r = (buffer_read r).1 :: contents (buffer_read r).2.
Proof.
  intros Hok Hne.
  assert (Hu : used r ≠ 0%nat).
  { intros Hu. apply empty_used in Hu; [congruence|done]. }
  pose proof (used_lt r) as Hlt.
  destruct Hok as (Hl & Hh & Ht).
  unfold buffer_read. rewrite Hne. simpl.
  unfold contents at 1.
  destruct (used r) as [|n] eqn:Hused; [done|]. simpl.
  f_equal.
  - f_equal. f_equal. zmod.
  - unfold contents. simpl.
    assert (Hn : used (Mk (rx_buffer r) (head r) (uint8 ((tail r + 1) mod BUFFER_SIZE)))
                 = n).
    { unfold used, uint8, BUFFER_SIZE in *. simpl. zmod. }
    rewrite Hn, <- seq_shift, map_map.
    apply map_ext_in. intros i Hi%in_seq.
    f_equal. f_equal. unfold uint8, BUFFER_SIZE. zmod.
Qed.

Lemma exec_snoc evs e st : exec (evs ++ [e]) st = step (exec evs st) e.
Proof. unfold exec. by rewrite foldl_app. Qed.

Lemma pushed_snoc evs e :
  pushed (evs ++ [e]) =
  pushed evs ++ match e with Rx d => [char_of d] | Echo => [] end.
Proof. unfold pushed. rewrite omap_app. by destruct e. Qed.

(** The invariant of every execution that receives fewer than [BUFFER_SIZE - 1]
    bytes: the bytes echoed so far followed by the unread ones are the bytes
    received. *)
Lemma exec_inv evs :
  (length (pushed evs) < 63)%nat →
  ok (exec evs (init, [])).1 ∧
  (exec evs (init, [])).2 ++ contents (exec evs (init, [])).1 = pushed evs.
Proof.
  induction evs as [|e evs IH] using rev_ind; intros Hlen.
  - split; [apply ok_init|done].
  - rewrite exec_snoc. rewrite pushed_snoc in *. rewrite length_app in Hlen.
    destruct IH as [Hok Heq]; [lia|].
    destruct (exec evs (init, [])) as [r tx]. simpl in *.
    destruct e as [d|]; simpl.
    + split; [by apply ok_rx|].
      assert (Hnf : buffer_is_full r = false).
      { destruct (buffer_is_full r) eqn:Hf; [|done].
        apply full_used in Hf; [|done].
        apply (f_equal length) in Heq.
        rewrite length_app, length_contents in Heq. simpl in Hlen. lia. }
      rewrite rx_not_full by done. by rewrite app_assoc, Heq.
    + unfold is_buffer_empty, uart_read.
      destruct (buffer_is_empty r) eqn:He; simpl.
      * split; [done|]. by rewrite app_nil_r.
      * pose proof (read_not_empty r Hok He) as Hc.
        pose proof (ok_read r Hok) as Hok'.
        destruct (buffer_read r) as [c r']. simpl in *.
        split; [done|]. unfold uart_send.
        rewrite app_nil_r, <- Heq, Hc, <- app_assoc. done.
Qed.

(** C4. A byte pushed into a full ring is dropped: the ring (array and both
    indices) is left exactly as it was, so it is still full, the unread bytes are
    unchanged, and the next read returns what it would have returned before, the
    oldest unread byte. *)
Theorem full_push_dropped (d : Z) (r : Ring.ring) :
  buffer_is_full r = true →
  USART_RX_vect d r = r ∧
  buffer_is_full (USART_RX_vect d r) = true ∧
  contents (USART_RX_vect d r) = contents r ∧
  buffer_read (USART_RX_vect d r) = buffer_read r ∧
  (ok r → contents r !! 0%nat = Some (buffer_read (USART_RX_vect d r)).1).
Proof.
  intros Hf. rewrite (rx_full d r Hf). repeat split; try done.
  intros Hok.
  assert (Hne : buffer_is_empty r = false).
  { destruct (buffer_is_empty r) eqn:He; [|done].
    apply empty_used in He; [|done]. apply full_used in Hf; [|done]. lia. }
  by rewrite (read_not_empty r Hok Hne).
Qed.

(** The ring after 63 bytes 1, 2, ..., 63 have been received and none read. *)
Definition full_ring : ring := (exec (map Rx (seqZ 1 63)) (init, [])).1.

Lemma full_push_dropped_witness :
  buffer_is_full full_ring = true ∧
  USART_RX_vect 64 full_ring = full_ring ∧
  buffer_is_full (USART_RX_vect 64 full_ring) = true ∧
  contents (USART_RX_vect 64 full_ring) = contents full_ring ∧
  buffer_read (USART_RX_vect 64 full_ring) = buffer_read full_ring ∧
  (ok full_ring →
   contents full_ring !! 0%nat = Some (buffer_read (USART_RX_vect 64 full_ring)).1).
Proof.
  split; [reflexivity|]. apply (full_push_dropped 64 full_ring). reflexivity.
Defined.

(** The scenario of the specification: 63 bytes fill the ring, the 64th is
    dropped, and the next read still returns the first byte received. *)
Example fill_then_overflow :
  buffer_is_full full_ring = true ∧
  buffer_is_full (USART_RX_vect 64 full_ring) = true ∧
  (buffer_read (USART_RX_vect 64 full_ring)).1 = 1 ∧
  contents (USART_RX_vect 64 full_ring) = seqZ 1 63.
Proof. by vm_compute. Qed.

(** A consumer step is a call of [buffer_read] whose result is used only when
    the ring was not empty: on an empty ring the call returns the sentinel and
    changes nothing. *)
Lemma uart_echo_read r tx :
  uart_echo (r, tx) =
  ((buffer_read r).2,
   if buffer_is_empty r then tx else tx ++ [(buffer_read r).1]).
Proof.
  unfold uart_echo, is_buffer_empty, uart_read, uart_send, buffer_read.
  by destruct (buffer_is_empty r).
Qed.

(** The receive ring as the specification describes it: a queue of bytes,
    [push] appends (the executions considered never fill the ring), [pop] takes the
    oldest byte away and returns it, or signals emptiness and changes nothing.
    A state is the bytes waiting and the bytes returned by the pops so far. *)
Definition fifo_step (q : list Z * list Z) (e : event) : list Z * list Z :=
  match e with
  | Rx d => (q.1 ++ [char_of d], q.2)
  | Echo => match q.1 with
            | [] => q
            | c :: waiting => (waiting, q.2 ++ [c])
            end
  end.

Definition fifo (evs : list event) : list Z * list Z := foldl fifo_step ([], []) evs.

Lemma fifo_snoc evs e : fifo (evs ++ [e]) = fifo_step (fifo evs) e.
Proof. unfold fifo. by rewrite foldl_app. Qed.

(** Below the capacity, the ring of the program and the queue of the
    specification go through the same states. *)
Lemma exec_fifo evs :
  (length (pushed evs) < 63)%nat →
  contents (exec evs (init, [])).1 = (fifo evs).1 ∧
  (exec evs (init, [])).2 = (fifo evs).2.
Proof.
  induction evs as [|e evs IH] using rev_ind; intros Hlen; [done|].
  rewrite pushed_snoc, length_app in Hlen.
  destruct IH as [Hc Htx]; [lia|].
  destruct (exec_inv evs) as [Hok Heq]; [lia|].
  rewrite exec_snoc, fifo_snoc.
  destruct (exec evs (init, [])) as [r tx]. destruct (fifo evs) as [q out].
  cbn [fst snd] in *. subst q out.
  destruct e as [d|]; cbn [step fifo_step fst snd].
  - assert (Hnf : buffer_is_full r = false).
    { destruct (buffer_is_full r) eqn:Hf; [|done].
      apply full_used in Hf; [|done].
      apply (f_equal length) in Heq.
      rewrite length_app, length_contents in Heq. simpl in Hlen. lia. }
    by rewrite rx_not_full.
  - rewrite uart_echo_read. cbn [fst snd].
    destruct (buffer_is_empty r) eqn:He.
    + pose proof He as Hu. apply empty_used in Hu; [|done].
      rewrite <- length_contents in Hu. apply nil_length_inv in Hu.
      rewrite Hu. unfold buffer_read. by rewrite He.
    + by rewrite (read_not_empty r Hok He).
Qed.

(** C5. In every execution that receives fewer than [BUFFER_SIZE - 1] bytes, at
    every step (after every prefix [pre] of the events):
    - the ring behaves as the FIFO queue of the specification: the bytes the pops
      have returned so far and the bytes still waiting are those of [fifo];
    - the next pop returns the oldest waiting byte and takes it away, and that
      byte is the received byte number [k] when [k] bytes have been returned
      before; on an empty ring the pop returns the sentinel and changes nothing;
    - hence the bytes returned, followed by the bytes waiting, are exactly the
      bytes received so far, in the order received, and all of them once the ring
      is empty again;
    - [buffer_is_empty] answers [head == tail], which holds exactly when no byte
      is waiting, and [buffer_is_full] answers [(head + 1) % BUFFER_SIZE == tail],
      which holds exactly when [BUFFER_SIZE - 1] bytes are waiting. *)
Theorem fifo_order (evs pre : list event) :
  (length (pushed evs) < Z.to_nat (BUFFER_SIZE - 1))%nat →
  pre `prefix_of` evs →
  let st := exec pre (init, []) in
  contents st.1 = (fifo pre).1 ∧ st.2 = (fifo pre).2 ∧
  match contents st.1 with
  | [] => buffer_read st.1 = (char_of (-1), st.1) ∧ uart_echo st = st
  | c :: waiting =>
      (buffer_read st.1).1 = c ∧ contents (buffer_read st.1).2 = waiting ∧
      uart_echo st = ((buffer_read st.1).2, st.2 ++ [c]) ∧
      pushed evs !! length st.2 = Some c
  end ∧
  st.2 ++ contents st.1 = pushed pre ∧
  st.2 `prefix_of` pushed evs ∧
  (buffer_is_empty st.1 = true → st.2 = pushed pre) ∧
  (buffer_is_empty st.1 = true ↔ head st.1 = tail st.1) ∧
  (buffer_is_full st.1 = true ↔ (head st.1 + 1) mod BUFFER_SIZE = tail st.1) ∧
  (buffer_is_empty st.1 = true ↔ contents st.1 = []) ∧
  (buffer_is_full st.1 = true ↔ length (contents st.1) = Z.to_nat (BUFFER_SIZE - 1)).
Proof.
  intros Hlen [suf ->] st.
  assert (Hpre : (length (pushed pre) < 63)%nat).
  { unfold pushed in *. rewrite omap_app, length_app in Hlen.
    change (Z.to_nat (BUFFER_SIZE - 1)) with 63%nat in Hlen. lia. }
  destruct (exec_inv pre Hpre) as [Hok Heq]. fold st in Hok, Heq.
  destruct (exec_fifo pre Hpre) as [Hq Hout]. fold st in Hq, Hout.
  assert (Hemp : buffer_is_empty st.1 = true ↔ contents st.1 = []).
  { rewrite (empty_used _ Hok), <- length_contents.
    split; [apply nil_length_inv|by intros ->]. }
  split; [done|]. split; [done|]. split.
  { destruct st as [r tx]. cbn [fst snd] in *. rewrite uart_echo_read.
    destruct (contents r) as [|c waiting] eqn:Hc.
    - assert (He : buffer_is_empty r = true) by by apply Hemp.
      unfold buffer_read. rewrite He. done.
    - assert (He : buffer_is_empty r = false).
      { destruct (buffer_is_empty r) eqn:He; [|done].
        destruct Hemp as [H1 _]. by specialize (H1 eq_refl). }
      pose proof (read_not_empty r Hok He) as Hr. rewrite Hc in Hr.
      injection Hr as Hr1 Hr2.
      split; [done|]. split; [done|]. split; [by rewrite He, <- Hr1|].
      unfold pushed. rewrite omap_app. fold (pushed pre). rewrite <- Heq.
      rewrite <- !app_assoc. cbn [app].
      by rewrite lookup_app_r, Nat.sub_diag by lia. }
  repeat split.
  - done.
  - unfold pushed. rewrite omap_app. fold (pushed pre). rewrite <- Heq.
    rewrite <- app_assoc. by eexists.
  - intros He%Hemp. by rewrite He, app_nil_r in Heq.
  - unfold buffer_is_empty. by intros ?%Z.eqb_eq.
  - unfold buffer_is_empty. by intros ?%Z.eqb_eq.
  - unfold buffer_is_full. by intros ?%Z.eqb_eq.
  - unfold buffer_is_full. by intros ?%Z.eqb_eq.
  - apply Hemp.
  - apply Hemp.
  - rewrite length_contents. apply full_used, Hok.
  - rewrite length_contents. apply full_used, Hok.
Qed.

(** Five bytes arrive while the consumer runs in between; the first three steps
    of this execution are inspected. *)
Definition sample_run : list event :=
  [Rx 104; Rx 105; Echo; Rx 33; Echo; Echo; Echo; Rx 10; Rx 13; Echo].

Lemma fifo_order_witness :
  let st := exec (take 3 sample_run) (init, []) in
  contents st.1 = (fifo (take 3 sample_run)).1 ∧ st.2 = (fifo (take 3 sample_run)).2 ∧
  match contents st.1 with
  | [] => buffer_read st.1 = (char_of (-1), st.1) ∧ uart_echo st = st
  | c :: waiting =>
      (buffer_read st.1).1 = c ∧ contents (buffer_read st.1).2 = waiting ∧
      uart_echo st = ((buffer_read st.1).2, st.2 ++ [c]) ∧
      pushed sample_run !! length st.2 = Some c
  end ∧
  st.2 ++ contents st.1 = pushed (take 3 sample_run) ∧
  st.2 `prefix_of` pushed sample_run ∧
  (buffer_is_empty st.1 = true → st.2 = pushed (take 3 sample_run)) ∧
  (buffer_is_empty st.1 = true ↔ head st.1 = tail st.1) ∧
  (buffer_is_full st.1 = true ↔ (head st.1 + 1) mod BUFFER_SIZE = tail st.1) ∧
  (buffer_is_empty st.1 = true ↔ contents st.1 = []) ∧
  (buffer_is_full st.1 = true ↔ length (contents st.1) = Z.to_nat (BUFFER_SIZE - 1)).
Proof.
  apply (fifo_order sample_run (take 3 sample_run)).
  - vm_compute. lia.
  - apply prefix_take.
Defined.

(** The whole of [sample_run]: the program sends what the queue of the
    specification returns, the first four bytes received. *)
Example sample_run_fifo :
  (exec sample_run (init, [])).2 = [104; 105; 33; 10] ∧
  fifo sample_run = ([13], [104; 105; 33; 10]).
Proof. by vm_compute. Qed.

Example sample_run_echo :
  exec sample_run (init, []) =
  (Mk ([104; 105; 33; 10; 13] ++ replicate 59 0) 5 4, [104; 105; 33; 10]).
Proof. reflexivity. Qed.

(** C9. A read from an empty ring returns the [char] made from [-1] and changes
    neither index (nor the array).  That [char] has the bit pattern [0xFF]: it is
    the very value a read returns after the byte [0xFF] has been received into the
    same ring, although the ring is then not empty.  The returned value alone
    therefore does not tell the two situations apart. *)
Theorem empty_read_sentinel (r : Ring.ring) :
  ok r → buffer_is_empty r = true →
  buffer_read r = (char_of (-1), r) ∧
  head (buffer_read r).2 = head r ∧ tail (buffer_read r).2 = tail r ∧
  char_of (-1) = 255 ∧
  uart_read r = buffer_read r ∧
  buffer_is_empty (USART_RX_vect 255 r) = false ∧
  contents (USART_RX_vect 255 r) = [255] ∧
  (buffer_read (USART_RX_vect 255 r)).1 = (buffer_read r).1.
Proof.
  intros Hok He.
  assert (Hr : buffer_read r = (char_of (-1), r)).
  { unfold buffer_read. by rewrite He. }
  assert (Hnf : buffer_is_full r = false).
  { destruct (buffer_is_full r) eqn:Hf; [|done].
    apply full_used in Hf; [|done]. apply empty_used in He; [|done]. lia. }
  assert (Hc : contents (USART_RX_vect 255 r) = [255]).
  { rewrite rx_not_full by done.
    apply empty_used in He; [|done]. pose proof (length_contents r) as Hl.
    rewrite He in Hl. apply nil_length_inv in Hl. by rewrite Hl. }
  assert (Hne : buffer_is_empty (USART_RX_vect 255 r) = false).
  { destruct (buffer_is_empty (USART_RX_vect 255 r)) eqn:He'; [|done].
    apply empty_used in He'; [|by apply ok_rx].
    rewrite <- length_contents, Hc in He'. done. }
  rewrite Hr. repeat split; try done.
  pose proof (read_not_empty _ (ok_rx 255 r Hok) Hne) as Hrd.
  rewrite Hc in Hrd. by injection Hrd as <- _.
Qed.

Lemma empty_read_sentinel_witness :
  buffer_read init = (char_of (-1), init) ∧
  head (buffer_read init).2 = head init ∧ tail (buffer_read init).2 = tail init ∧
  char_of (-1) = 255 ∧
  uart_read init = buffer_read init ∧
  buffer_is_empty (USART_RX_vect 255 init) = false ∧
  contents (USART_RX_vect 255 init) = [255] ∧
  (buffer_read (USART_RX_vect 255 init)).1 = (buffer_read init).1.
Proof. apply (empty_read_sentinel init); [apply ok_init|reflexivity]. Defined.

End RingProofs.

(* ===================================================================== *)
(** ** The task list seen as a sequence                                   *)
(* ===================================================================== *)

Module Queue.
Import Logger.

(** One entry of the list: the address of its node and the node's three payload
    fields (the link is what [chain] below accounts for). *)
Record entry := Entry { e_addr : Z; e_data : list Z; e_delay : Z; e_prio : Z }.

Definition node_of (e : entry) (nx : Z) : TaskNode :=
  Node (e_data e) (e_delay e) (e_prio e) nx.

Definition fields (e : entry) : list Z * Z * Z := (e_data e, e_delay e, e_prio e).

Definition addrs (l : list entry) : list Z := map e_addr l.

(** [chain h p l q]: in heap [h], following [next] from [p] visits the nodes of the
    entries [l], in order, and then reaches [q]. *)
Fixpoint chain (h : gmap Z TaskNode) (p : Z) (l : list entry) (q : Z) : Prop :=
  match l with
  | [] => p = q
  | e :: l' =>
      p = e_addr e ∧ p ≠ NULL ∧
      ∃ nx, h !! p = Some (node_of e nx) ∧ chain h nx l' q
  end.

(** A state is well formed, with queue [l], when [log_head] starts a
    [NULL]-terminated list holding [l], and the allocator's free blocks are distinct,
    not [NULL] and not in use. *)
Record inv (s : state) (l : list entry) : Prop := Inv {
  inv_chain : chain (heap s) (log_head s) l NULL;
  inv_nodup : NoDup (addrs l);
  inv_pool_nodup : NoDup (pool s);
  inv_pool_fresh : ∀ a, a ∈ pool s → a ≠ NULL ∧ heap s !! a = None
}.

(** Where the walk of [add_log] puts a new entry: in front of the first entry whose
    priority is greater than the new one. *)
Fixpoint ins (e : entry) (l : list entry) : list entry :=
  match l with
  | [] => [e]
  | x :: l' => if e_prio x <=? e_prio e then x :: ins e l' else e :: l
  end.

(** The entry [add_log(msg, delay_ms, priority)] creates in block [a]. *)
Definition new_entry (a : Z) (msg : list Z) (delay_ms prio : Z) : entry :=
  Entry a (strncpy msg (Z.to_nat (MAX_CMD_LEN - 1)) ++ [0])
        (uint16 delay_ms / TICK_MS) (uint8 prio).

(** The entries created by a series of calls, in call order: one per call as long
    as the allocator has a block left. *)
Fixpoint created (blocks : list Z) (calls : list (list Z * Z * Z)) : list entry :=
  match calls, blocks with
  | (msg, d, p) :: calls, a :: blocks => new_entry a msg d p :: created blocks calls
  | _, _ => []
  end.

(** What [print_log] sends for the entries [l], numbered from [count]. *)
Fixpoint lines (count : Z) (l : list entry) : list Z :=
  match l with
  | [] => []
  | e :: l' => c_str (log_line count (node_of e NULL)) ++ lines (count + 1) l'
  end.

(** One tick: entries with a positive delay stay, one tick closer; the others are
    due, they are reported and leave the list. *)
Definition dec_delay (k : Z) (e : entry) : entry :=
  Entry (e_addr e) (e_data e) (e_delay e - k) (e_prio e).

Definition due (e : entry) : bool := negb (0 <? e_delay e).

Definition tick_keep (l : list entry) : list entry :=
  omap (λ e, if due e then None else Some (dec_delay 1 e)) l.

Definition tick_out (l : list entry) : list Z :=
  flat_map (λ e, task_msg (e_data e)) (filter (λ e, due e = true) l).

Definition tick_freed (l : list entry) : list Z :=
  addrs (filter (λ e, due e = true) l).

(** The entries left after [k] ticks, and what tick number [k + 1] reports. *)
Definition remaining (k : nat) (l : list entry) : list entry :=
  omap (λ e, if Z.of_nat k <=? e_delay e then Some (dec_delay (Z.of_nat k) e) else None) l.

Definition reported (k : nat) (l : list entry) : list Z :=
  flat_map (λ e, task_msg (e_data e)) (filter (λ e, e_delay e = Z.of_nat k) l).

(** The address of the first node of [l]. *)
Definition first_addr (l : list entry) : Z :=
  match l with [] => NULL | e :: _ => e_addr e end.

(** The blocks [save_logs_to_eeprom] writes for the entries [l] when the cursor is
    at [a]: for each entry the image of its node, link included. *)
Fixpoint records (a : Z) (l : list entry) : list (Z * list Z) :=
  match l with
  | [] => []
  | e :: l' =>
      (a, struct_bytes (node_of e (first_addr l')))
        :: records (uint16 (a + sizeof_TaskNode)) l'
  end.

Definition entry_of (a : Z) (t : TaskNode) : entry :=
  Entry a (data t) (delay_ticks t) (priority t).

(** The entries [load_logs_from_eeprom] builds, in the order they are read, when
    the allocator hands out [blocks] and the cursor is at [a]. *)
Fixpoint loaded (e : gmap Z Z) (a : Z) (blocks : list Z) : list entry :=
  match blocks with
  | [] => []
  | b :: blocks =>
      entry_of b (struct_of_bytes (eeprom_read_block e a sizeof_TaskNode))
        :: loaded e (uint16 (a + sizeof_TaskNode)) blocks
  end.

(** The cursor after [n] records, starting from [a]. *)
Fixpoint advance (a : Z) (n : nat) : Z :=
  match n with
  | O => a
  | S n => advance (uint16 (a + sizeof_TaskNode)) n
  end.

(** The EEPROM after a series of block writes. *)
Definition ee_apply (e : gmap Z Z) (ws : list (Z * list Z)) : gmap Z Z :=
  foldl (λ e w, ee_write e w.1 w.2) e ws.

(** The payload fields of the nodes reachable from [log_head], front to back
    (for inspecting concrete states). *)
Fixpoint walk_fields (n : nat) (h : gmap Z TaskNode) (p : Z) : list (list Z * Z * Z) :=
  match n with
  | O => []
  | S n =>
      if p =? NULL then []
      else match h !! p with
           | Some t => (data t, delay_ticks t, priority t) :: walk_fields n h (next t)
           | None => []
           end
  end.

Definition queue_of (s : state) : list (list Z * Z * Z) :=
  walk_fields (fuel s) (heap s) (log_head s).

(** The fields of an entry fit their C types. *)
Definition entry_ok (e : entry) : Prop :=
  length (e_data e) = 32%nat ∧ 0 ≤ e_delay e < 65536 ∧ 0 ≤ e_prio e < 256.

End Queue.

Module QueueProofs.
Import Logger Queue.

Lemma chain_cons h e l q nx :
  e_addr e ≠ NULL → h !! e_addr e = Some (node_of e nx) → chain h nx l q →
  chain h (e_addr e) (e :: l) q.
Proof. intros. simpl. eauto. Qed.

Ltac proj := cbn [heap log_head pool tx ee_address eeprom ee_writes
                  set_heap set_pool set_log_head set_ee_address set_eeprom set_tx].

Ltac proj_in H :=
  cbn [heap log_head pool tx ee_address eeprom ee_writes
       set_heap set_pool set_log_head set_ee_address set_eeprom set_tx] in H.

Lemma chain_addrs h p l q a :
  chain h p l q → a ∈ addrs l → a ≠ NULL ∧ is_Some (h !! a).
Proof.
  revert p. induction l as [|e l IH]; simpl; intros p Hc Ha.
  - by apply elem_of_nil in Ha.
  - destruct Hc as (-> & Hn & nx & Hl & Hc).
    apply elem_of_cons in Ha as [->|Ha]; [eauto|by eapply IH].
Qed.

Lemma chain_insert_ne h p l q a n :
  a ∉ addrs l → chain h p l q → chain (<[a:=n]> h) p l q.
Proof.
  revert p. induction l as [|e l IH]; simpl; intros p Ha Hc; [done|].
  destruct Hc as (-> & Hn & nx & Hl & Hc).
  apply not_elem_of_cons in Ha as [Hne Ha].
  repeat split; try done. exists nx. split; [|by apply IH].
  by rewrite lookup_insert_ne.
Qed.

Lemma chain_delete_ne h p l q a :
  a ∉ addrs l → chain h p l q → chain (delete a h) p l q.
Proof.
  revert p. induction l as [|e l IH]; simpl; intros p Ha Hc; [done|].
  destruct Hc as (-> & Hn & nx & Hl & Hc).
  apply not_elem_of_cons in Ha as [Hne Ha].
  repeat split; try done. exists nx. split; [|by apply IH].
  by rewrite lookup_delete_ne.
Qed.

Lemma chain_app h p l1 l2 q :
  chain h p (l1 ++ l2) q ↔ ∃ m, chain h p l1 m ∧ chain h m l2 q.
Proof.
  revert p. induction l1 as [|e l1 IH]; simpl; intros p.
  - split; [intros Hc; by exists p|by intros (m & -> & Hc)].
  - split.
    + intros (-> & Hn & nx & Hl & Hc). apply IH in Hc as (m & H1 & H2).
      exists m. split; [|done]. repeat split; try done. by exists nx.
    + intros (m & (-> & Hn & nx & Hl & H1) & H2).
      repeat split; try done. exists nx. split; [done|]. apply IH. by exists m.
Qed.

Lemma chain_length h p l q :
  chain h p l q → NoDup (addrs l) → (length l ≤ size h)%nat.
Proof.
  intros Hc Hnd.
  rewrite <- (length_map e_addr l). fold (addrs l).
  rewrite <- (size_dom (D := gset Z) h).
  rewrite <- (size_list_to_set (C := gset Z) (addrs l)) by done.
  apply subseteq_size. intros a Ha%elem_of_list_to_set.
  apply elem_of_dom. by eapply chain_addrs.
Qed.

Lemma inv_fuel s l : inv s l → (length l < fuel s)%nat.
Proof.
  intros [Hc Hnd _ _]. unfold fuel.
  pose proof (chain_length _ _ _ _ Hc Hnd). lia.
Qed.

(** *** [add_log] *)

(** The walk stops at the node after which the new entry belongs, and the two
    assignments that follow splice the new node in there. *)
Lemma walk_insert l : ∀ x h n a e,
  chain h (e_addr x) (x :: l) NULL →
  NoDup (addrs (x :: l)) → a ∉ addrs (x :: l) → a ≠ NULL → a = e_addr e →
  (length l < n)%nat →
  ∃ temp t,
    walk n h (e_addr x) (e_prio e) = Some temp ∧
    h !! temp = Some t ∧ temp ∈ addrs (x :: l) ∧
    chain (<[temp := set_next a t]> (<[a := node_of e (next t)]> h))
          (e_addr x) (x :: ins e l) NULL.
Proof.
  induction l as [|y l IH]; intros x h n a e Hc Hnd Ha Hnull -> Hn;
    (destruct n as [|n]; [simpl in Hn; lia|]);
    destruct Hc as (_ & Hx & nx & Hlx & Hc);
    apply not_elem_of_cons in Ha as [Hax Ha];
    cbn [walk]; rewrite Hlx; cbn [mbind option_bind node_of next].
  - simpl in Hc. subst nx. rewrite Z.eqb_refl.
    exists (e_addr x), (node_of x NULL).
    split; [done|]. split; [done|]. split; [apply elem_of_cons; by left|].
    apply (chain_cons _ x _ _ (e_addr e)); [done|by rewrite lookup_insert_eq|].
    apply (chain_cons _ e [] _ NULL); [done| |done].
    rewrite lookup_insert_ne by done. by rewrite lookup_insert_eq.
  - pose proof Hc as (-> & Hy & ny & Hly & Hc').
    apply NoDup_cons in Hnd as [Hxl Hnd].
    destruct (e_addr y =? NULL) eqn:E; [apply Z.eqb_eq in E; done|].
    rewrite Hly. cbn [mbind option_bind node_of priority].
    destruct (e_prio y <=? e_prio e) eqn:Hp.
    + destruct (IH y h n (e_addr e) e) as (temp & t & Hw & Hlt & Hin & Hch);
        try done; [simpl in Hn; lia|].
      exists temp, t.
      split; [done|]. split; [done|]. split; [apply elem_of_cons; by right|].
      cbn [ins]. rewrite Hp. apply (chain_cons _ x _ _ (e_addr y)); [done| |done].
      rewrite lookup_insert_ne by (intros ->; done).
      by rewrite lookup_insert_ne.
    + exists (e_addr x), (node_of x (e_addr y)).
      split; [done|]. split; [done|]. split; [apply elem_of_cons; by left|].
      cbn [ins]. rewrite Hp.
      apply (chain_cons _ x _ _ (e_addr e)); [done|by rewrite lookup_insert_eq|].
      apply (chain_cons _ e _ _ (e_addr y)); [done|..].
      * rewrite lookup_insert_ne by done. by rewrite lookup_insert_eq.
      * apply chain_insert_ne; [done|]. by apply chain_insert_ne.
Qed.

Lemma ins_addrs e l : addrs (ins e l) ≡ₚ e_addr e :: addrs l.
Proof.
  induction l as [|x l IH]; simpl; [done|].
  destruct (e_prio x <=? e_prio e); simpl; [|done].
  rewrite IH. apply Permutation_swap.
Qed.

(** [add_log] on a well-formed state: without a free block nothing happens; with
    one, the new entry is placed by [ins]. *)
Lemma add_log_spec msg d p s l :
  inv s l →
  match pool s with
  | [] => add_log msg d p s = Some s
  | a :: blocks =>
      ∃ s', add_log msg d p s = Some s' ∧
            inv s' (ins (new_entry a msg d p) l) ∧
            pool s' = blocks ∧ tx s' = tx s ∧ ee_address s' = ee_address s ∧
            eeprom s' = eeprom s ∧ ee_writes s' = ee_writes s
  end.
Proof.
  intros Hinv. pose proof (inv_fuel s l Hinv) as Hfuel.
  destruct Hinv as [Hc Hnd Hpn Hpf].
  unfold add_log, malloc.
  destruct (pool s) as [|a blocks] eqn:Hpool; [done|].
  destruct (Hpf a) as [Ha0 Hah]; [by left|].
  apply NoDup_cons in Hpn as [Hab Hpn].
  assert (Hal : a ∉ addrs l).
  { intros Hin. destruct (chain_addrs _ _ _ _ _ Hc Hin) as [_ [? ?]]. congruence. }
  destruct (a =? NULL) eqn:E; [apply Z.eqb_eq in E; done|]. clear E.
  set (e := new_entry a msg d p).
  change (Node _ _ _ NULL) with (node_of e NULL).
  change (uint8 p) with (e_prio e).
  assert (Hea : e_addr e = a) by done.
  clearbody e. cbn zeta.
  change (heap (set_pool blocks s)) with (heap s).
  change (log_head (set_pool blocks s)) with (log_head s).
  change (fuel (set_pool blocks s)) with (fuel s).
  destruct l as [|x l].
  - simpl in Hc. rewrite Hc. simpl.
    eexists. split; [done|]. split; [|done].
    split; simpl.
    + rewrite Hea. repeat split; try done. exists NULL. by rewrite lookup_insert_eq.
    + apply NoDup_singleton.
    + done.
    + intros b Hb. destruct (Hpf b) as [? ?]; [by right|]. split; [done|].
      rewrite !lookup_insert_ne; [done|..]; intros ->; done.
  - pose proof Hc as (Hlh & Hx & nx & Hlx & Hc').
    destruct (log_head s =? NULL) eqn:E; [apply Z.eqb_eq in E; done|]. clear E.
    cbn [mbind option_bind].
    assert (Hax : a ≠ log_head s).
    { intros ->. apply Hal. rewrite Hlh. by left. }
    rewrite lookup_insert_ne by done.
    rewrite Hlx. cbn [mbind option_bind node_of priority].
    destruct (e_prio e <? e_prio x) eqn:Hp.
    + eexists. split; [done|]. split; [|done].
      assert (Hle : (e_prio x <=? e_prio e) = false) by lia.
      cbn [ins]. rewrite Hle.
      split; proj.
      * rewrite <- Hea. apply (chain_cons _ _ _ _ (log_head s)); [by rewrite Hea|..].
        -- by rewrite Hea, lookup_insert_eq.
        -- rewrite Hea. apply chain_insert_ne; [done|]. by apply chain_insert_ne.
      * cbn [addrs map]. rewrite Hea. apply NoDup_cons. done.
      * done.
      * intros b Hb. destruct (Hpf b) as [? ?]; [by right|]. split; [done|].
        rewrite !lookup_insert_ne; [done|..]; intros ->; done.
    + assert (Hle : (e_prio x <=? e_prio e) = true) by lia.
      cbn [ins]. rewrite Hle.
      destruct (walk_insert l x (<[a:=node_of e NULL]> (heap s)) (fuel s) a e)
        as (temp & t & Hw & Hlt & Hin & Hch); try done.
      { rewrite <- Hlh. by apply chain_insert_ne. }
      { simpl in Hfuel. lia. }
      rewrite Hlh, Hw. cbn [mbind option_bind]. rewrite Hlt.
      cbn [mbind option_bind].
      assert (Hta : a ≠ temp) by (intros ->; done).
      rewrite lookup_insert_ne by done. rewrite Hlt. cbn [mbind option_bind].
      eexists. split; [done|]. split; [|done].
      split; proj.
      * rewrite Hlh. rewrite insert_insert_eq in Hch.
        rewrite insert_insert_eq. done.
      * pose proof (ins_addrs e (x :: l)) as Hperm. cbn [ins] in Hperm.
        rewrite Hle in Hperm.
        change (e_addr x :: addrs (ins e l)) with (addrs (x :: ins e l)).
        eapply NoDup_Permutation_proper; [exact Hperm|].
        rewrite Hea. apply NoDup_cons. done.
      * done.
      * intros b Hb. destruct (Hpf b) as [? Hbh]; [by right|]. split; [done|].
        destruct (chain_addrs _ _ _ _ _ Hc Hin) as [_ [? Htemp]].
        rewrite !lookup_insert_ne; [done|..]; intros ->; try done. congruence.
Qed.

Lemma add_logs_spec calls : ∀ s l,
  inv s l →
  ∃ s', add_logs calls s = Some s' ∧
        inv s' (foldl (λ l e, ins e l) l (created (pool s) calls)) ∧
        tx s' = tx s ∧ ee_address s' = ee_address s ∧
        eeprom s' = eeprom s ∧ ee_writes s' = ee_writes s.
Proof.
  induction calls as [|[[msg d] p] calls IH]; intros s l Hinv.
  - exists s. by destruct (pool s).
  - pose proof (add_log_spec msg d p s l Hinv) as Hadd.
    cbn [add_logs]. destruct (pool s) as [|a blocks] eqn:Hpool.
    + rewrite Hadd. cbn [mbind option_bind].
      destruct (IH s l Hinv) as (s' & Hs' & Hinv' & Heq).
      exists s'. split; [done|]. split; [|done].
      rewrite Hpool in Hinv'. by destruct calls as [|[[??]?]?].
    + destruct Hadd as (s1 & -> & Hinv1 & Hp1 & Htx & Hea & Hee & Hew).
      cbn [mbind option_bind].
      destruct (IH s1 _ Hinv1) as (s' & Hs' & Hinv' & Heq).
      exists s'. split; [done|]. rewrite Hp1 in Hinv'. split; [done|].
      by rewrite <- Htx, <- Hea, <- Hee, <- Hew.
Qed.

(** *** Order of the list built by insertions *)

Definition by_prio (x y : entry) : Prop := e_prio x ≤ e_prio y.

Lemma ins_elem e l x : x ∈ ins e l ↔ x = e ∨ x ∈ l.
Proof.
  induction l as [|y l IH]; cbn [ins].
  - rewrite list_elem_of_singleton, elem_of_nil. tauto.
  - destruct (e_prio y <=? e_prio e).
    + rewrite !elem_of_cons, IH. tauto.
    + by rewrite elem_of_cons.
Qed.

Lemma ins_sorted e l :
  StronglySorted by_prio l → StronglySorted by_prio (ins e l).
Proof.
  induction 1 as [|x l Hs IH Hall]; cbn [ins].
  - by repeat constructor.
  - destruct (e_prio x <=? e_prio e) eqn:Hp.
    + constructor; [done|].
      apply Forall_forall. intros y [->|Hy]%ins_elem.
      * unfold by_prio. lia.
      * rewrite Forall_forall in Hall. by apply Hall.
    + constructor; [by constructor|].
      constructor; [unfold by_prio; lia|].
      eapply Forall_impl; [exact Hall|]. unfold by_prio. intros; lia.
Qed.

Lemma filter_none {A} (P : A → Prop) `{!∀ x, Decision (P x)} (l : list A) :
  Forall (λ x, ¬ P x) l → filter P l = [].
Proof.
  induction 1 as [|x l Hx Hl IH]; [done|]. by rewrite filter_cons_False.
Qed.

(** Among the entries of one priority the new entry comes last. *)
Lemma ins_stable e l p :
  StronglySorted by_prio l →
  filter (λ x, e_prio x = p) (ins e l) =
  filter (λ x, e_prio x = p) l ++ filter (λ x, e_prio x = p) [e].
Proof.
  induction 1 as [|x l Hs IH Hall]; cbn [ins].
  - by rewrite app_nil_l.
  - destruct (e_prio x <=? e_prio e) eqn:Hp.
    + rewrite !filter_cons, IH. by destruct (decide (e_prio x = p)).
    + rewrite (filter_cons _ e), (filter_cons _ e []), filter_nil.
      destruct (decide (e_prio e = p)) as [He|He]; [|by rewrite app_nil_r].
      assert (Hnone : filter (λ x, e_prio x = p) (x :: l) = []).
      { apply filter_none, Forall_cons. split; [lia|].
        eapply Forall_impl; [exact Hall|]. unfold by_prio. simpl. intros; lia. }
      by rewrite Hnone.
Qed.

Lemma ins_all_order es :
  StronglySorted by_prio (foldl (λ l e, ins e l) [] es) ∧
  ∀ p, filter (λ x, e_prio x = p) (foldl (λ l e, ins e l) [] es) =
       filter (λ x, e_prio x = p) es.
Proof.
  induction es as [|e es [IHs IHf]] using rev_ind.
  - split; [constructor|done].
  - rewrite foldl_app. cbn [foldl]. split; [by apply ins_sorted|].
    intros p. by rewrite ins_stable, filter_app, IHf.
Qed.

Lemma ins_all_perm es : foldl (λ l e, ins e l) [] es ≡ₚ es.
Proof.
  induction es as [|e es IH] using rev_ind; [done|].
  rewrite foldl_app. cbn [foldl].
  assert (Hins : ∀ l, ins e l ≡ₚ e :: l).
  { induction l as [|x l IHl]; cbn [ins]; [done|].
    destruct (e_prio x <=? e_prio e); [|done].
    rewrite IHl. apply Permutation_swap. }
  rewrite Hins, IH. by rewrite Permutation_app_comm.
Qed.

Lemma sorted_prios l : StronglySorted by_prio l → Sorted Z.le (map e_prio l).
Proof.
  intros Hs. apply StronglySorted_Sorted.
  induction Hs as [|x l Hs IH Hall]; [constructor|].
  cbn [map]. constructor; [done|]. by apply Forall_map.
Qed.

(** *** [print_log] *)

Lemma print_loop_spec l : ∀ temp count s n,
  chain (heap s) temp l NULL → (length l < n)%nat →
  print_loop n temp count s = Some (set_tx (tx s ++ lines count l) s).
Proof.
  induction l as [|e l IH]; intros temp count s n Hc Hn;
    (destruct n as [|n]; [simpl in Hn; lia|]).
  - simpl in Hc. subst temp. cbn [print_loop]. rewrite Z.eqb_refl.
    cbn [lines]. rewrite app_nil_r. by destruct s.
  - destruct Hc as (-> & Hnz & nx & Hl & Hc). cbn [print_loop].
    destruct (e_addr e =? NULL) eqn:E; [apply Z.eqb_eq in E; done|].
    rewrite Hl. cbn [mbind option_bind].
    rewrite (IH nx (count + 1) _ n); [|done|simpl in Hn; lia].
    cbn [lines]. unfold uart_send_str. proj. rewrite <- app_assoc. done.
Qed.

Lemma print_log_spec s l :
  inv s l → print_log s = Some (set_tx (tx s ++ lines 1 l) s).
Proof.
  intros Hinv. unfold print_log.
  apply print_loop_spec; [apply Hinv|by apply inv_fuel].
Qed.

Lemma inv_boot blocks e :
  NoDup blocks → NULL ∉ blocks → inv (boot blocks e) [].
Proof.
  intros Hnd Hnull. split; try done; [constructor|].
  intros a Ha. split; [by intros ->|]. apply lookup_empty.
Qed.

(** *** [execute_tasks] *)

Definition last_addr (l : list entry) : Z :=
  match last l with Some e => e_addr e | None => NULL end.

Lemma last_addr_snoc l e : last_addr (l ++ [e]) = e_addr e.
Proof. unfold last_addr. by rewrite last_snoc. Qed.

Lemma chain_snoc h p l e q :
  chain h p (l ++ [e]) q ↔
  chain h p l (e_addr e) ∧ e_addr e ≠ NULL ∧ h !! e_addr e = Some (node_of e q).
Proof.
  rewrite chain_app. cbn [chain]. split.
  - intros (m & H1 & -> & Hn & nx & Hl & ->). done.
  - intros (H1 & Hn & Hl). exists (e_addr e). eauto 10.
Qed.

Lemma last_addr_null h p l q : chain h p l q → last_addr l = NULL → l = [].
Proof.
  destruct l as [|e l _] using rev_ind; [done|].
  rewrite last_addr_snoc. intros (_ & Hn & _)%chain_snoc. done.
Qed.

Lemma tick_keep_cons e l :
  tick_keep (e :: l) =
  if 0 <? e_delay e then dec_delay 1 e :: tick_keep l else tick_keep l.
Proof. unfold tick_keep, due. simpl. by destruct (0 <? e_delay e). Qed.

Lemma tick_out_cons e l :
  tick_out (e :: l) =
  if 0 <? e_delay e then tick_out l else task_msg (e_data e) ++ tick_out l.
Proof.
  unfold tick_out, due. rewrite filter_cons.
  destruct (0 <? e_delay e); by case_decide.
Qed.

Lemma tick_freed_cons e l :
  tick_freed (e :: l) =
  if 0 <? e_delay e then tick_freed l else e_addr e :: tick_freed l.
Proof.
  unfold tick_freed, due. rewrite filter_cons.
  destruct (0 <? e_delay e); by case_decide.
Qed.

(** The loop of [execute_tasks], started in the middle of the list: [kept] are the
    entries already passed (and left in the list), [rest] the ones still to visit;
    [prev] points to the last entry kept, if any. *)
Lemma exec_loop_spec rest : ∀ n s kept temp prev,
  chain (heap s) (log_head s) kept temp →
  chain (heap s) temp rest NULL →
  NoDup (addrs (kept ++ rest)) →
  prev = last_addr kept →
  NoDup (pool s) →
  (∀ a, a ∈ pool s → a ≠ NULL ∧ heap s !! a = None) →
  (length rest < n)%nat →
  ∃ s', exec_loop n temp prev s = Some s' ∧
        inv s' (kept ++ tick_keep rest) ∧
        tx s' = tx s ++ tick_out rest ∧
        pool s' = rev (tick_freed rest) ++ pool s ∧
        ee_address s' = ee_address s ∧ eeprom s' = eeprom s ∧
        ee_writes s' = ee_writes s.
Proof.
  induction rest as [|e rest IH]; intros n s kept temp prev Hk Hr Hnd Hprev Hpn Hpf Hn;
    (destruct n as [|n]; [simpl in Hn; lia|]).
  - simpl in Hr. subst temp. cbn [exec_loop]. rewrite Z.eqb_refl.
    exists s. unfold tick_keep, tick_out, tick_freed. simpl.
    rewrite !app_nil_r in *. done.
  - destruct Hr as (-> & Hnz & nx & Hl & Hr). cbn [exec_loop].
    destruct (e_addr e =? NULL) eqn:E; [apply Z.eqb_eq in E; done|]. clear E.
    rewrite Hl. cbn [mbind option_bind node_of delay_ticks next data].
    unfold addrs in Hnd. rewrite map_app in Hnd. cbn [map] in Hnd.
    apply NoDup_app in Hnd as (Hndk & Hdisj & Hnde).
    apply NoDup_cons in Hnde as [Her Hndr].
    assert (Hek : e_addr e ∉ addrs kept).
    { intros Hin. apply (Hdisj _ Hin). by left. }
    assert (Hep : e_addr e ∉ pool s).
    { intros Hin. destruct (Hpf _ Hin) as [_ ?]. congruence. }
    rewrite tick_keep_cons, tick_out_cons, tick_freed_cons.
    destruct (0 <? e_delay e) eqn:Hd.
    + (* not yet due: one tick less, the node stays *)
      change (set_delay _ _) with (node_of (dec_delay 1 e) nx).
      edestruct (IH n (set_heap (<[e_addr e:=node_of (dec_delay 1 e) nx]> (heap s)) s)
                   (kept ++ [dec_delay 1 e]) nx (e_addr e))
        as (s' & Hs' & Hinv' & Htx & Hpool & Hrest); proj.
      * apply chain_snoc. cbn [dec_delay e_addr]. split; [|split; [done|]].
        -- by apply chain_insert_ne.
        -- by rewrite lookup_insert_eq.
      * by apply chain_insert_ne.
      * unfold addrs. rewrite <- app_assoc, map_app. cbn [map app dec_delay e_addr].
        apply NoDup_app. split; [done|]. split; [done|]. by apply NoDup_cons.
      * by rewrite last_addr_snoc.
      * done.
      * intros a Ha. destruct (Hpf a Ha) as [? ?]. split; [done|].
        rewrite lookup_insert_ne; [done|]. by intros <-.
      * simpl in Hn. lia.
      * exists s'. rewrite <- app_assoc in Hinv'.
        proj_in Htx. proj_in Hpool. proj_in Hrest. done.
    + (* due: reported, unlinked and freed *)
      unfold uart_send_str, free. proj.
      assert (Htx : ((tx s ++ c_str (bytes_of_string "Task: ")) ++ c_str (e_data e))
                      ++ c_str [10] = tx s ++ task_msg (e_data e)).
      { unfold task_msg. by rewrite <- !app_assoc. }
      rewrite Htx. clear Htx.
      assert (Hpn' : NoDup (e_addr e :: pool s)) by by apply NoDup_cons.
      destruct (prev =? NULL) eqn:Hp.
      * apply Z.eqb_eq in Hp. rewrite Hp in Hprev.
        symmetry in Hprev. apply (last_addr_null _ _ _ _ Hk) in Hprev. subst kept.
        simpl in Hk.
        edestruct (IH n (State (delete (e_addr e) (heap s)) (e_addr e :: pool s) nx
                           (ee_address s) (eeprom s) (ee_writes s)
                           (tx s ++ task_msg (e_data e)))
                     [] nx NULL)
          as (s' & Hs' & Hinv' & Htx & Hpool & Hrest); proj; try done.
        -- by apply chain_delete_ne.
        -- intros a [->|Ha]%elem_of_cons.
           ++ split; [done|]. apply lookup_delete_eq.
           ++ destruct (Hpf a Ha) as [? ?]. split; [done|].
              rewrite lookup_delete_ne; [done|]. by intros <-.
        -- simpl in Hn. lia.
        -- exists s'. rewrite Hp. split; [exact Hs'|]. split; [done|].
           proj_in Htx. proj_in Hpool. proj_in Hrest.
           rewrite Htx, Hpool. cbn [rev]. rewrite <- !app_assoc. done.
      * apply Z.eqb_neq in Hp.
        destruct kept as [|pe kept _] using rev_ind; [done|].
        rewrite last_addr_snoc in Hprev. subst prev.
        apply chain_snoc in Hk as (Hk & Hpz & Hlp).
        unfold addrs in Hek, Hndk. rewrite map_app in Hek, Hndk. cbn [map] in Hek, Hndk.
        apply not_elem_of_app in Hek as [Hek Hepe].
        apply NoDup_app in Hndk as (Hndk & Hkp & _).
        assert (Hpk : e_addr pe ∉ addrs kept).
        { intros Hin. apply (Hkp _ Hin). by left. }
        assert (Hne : e_addr e ≠ e_addr pe).
        { intros Heq. apply Hepe. rewrite Heq. by left. }
        rewrite Hlp. cbn [mbind option_bind].
        rewrite lookup_delete_ne by done. rewrite lookup_insert_eq.
        cbn [mbind option_bind set_next node_of next data delay_ticks priority].
        edestruct (IH n (State (delete (e_addr e)
                                  (<[e_addr pe:=node_of pe nx]> (heap s)))
                           (e_addr e :: pool s) (log_head s)
                           (ee_address s) (eeprom s) (ee_writes s)
                           (tx s ++ task_msg (e_data e)))
                     (kept ++ [pe]) nx (e_addr pe))
          as (s' & Hs' & Hinv' & Htx & Hpool & Hrest); proj; try done.
        -- apply chain_snoc. split; [|split; [done|]].
           ++ apply chain_delete_ne; [done|]. by apply chain_insert_ne.
           ++ rewrite lookup_delete_ne by done. by rewrite lookup_insert_eq.
        -- apply chain_delete_ne; [done|]. apply chain_insert_ne; [|done].
           intros Hin. apply (Hdisj (e_addr pe)).
           ++ unfold addrs. rewrite map_app. apply elem_of_app. right. by left.
           ++ by right.
        -- unfold addrs. rewrite !map_app. cbn [map].
           apply NoDup_app. split; [|split; [|done]].
           ++ apply NoDup_app. split; [done|]. split; [done|]. apply NoDup_singleton.
           ++ intros a Ha Hin. apply (Hdisj a); [|by right].
              unfold addrs. by rewrite map_app.
        -- by rewrite last_addr_snoc.
        -- intros a [->|Ha]%elem_of_cons.
           ++ split; [done|]. apply lookup_delete_eq.
           ++ destruct (Hpf a Ha) as [? Hah]. split; [done|].
              rewrite lookup_delete_ne by (by intros <-).
              rewrite lookup_insert_ne; [done|]. intros <-. congruence.
        -- simpl in Hn. lia.
        -- exists s'. split; [exact Hs'|]. split; [done|].
           proj_in Htx. proj_in Hpool. proj_in Hrest.
           rewrite Htx, Hpool. cbn [rev]. rewrite <- !app_assoc. done.
Qed.

Lemma execute_tasks_spec s l :
  inv s l →
  ∃ s', execute_tasks s = Some s' ∧
        inv s' (tick_keep l) ∧
        tx s' = tx s ++ tick_out l ∧
        pool s' = rev (tick_freed l) ++ pool s ∧
        ee_address s' = ee_address s ∧ eeprom s' = eeprom s ∧
        ee_writes s' = ee_writes s.
Proof.
  intros Hinv. pose proof (inv_fuel s l Hinv) as Hfuel.
  destruct Hinv as [Hc Hnd Hpn Hpf].
  unfold execute_tasks.
  apply (exec_loop_spec l (fuel s) s [] (log_head s) NULL); done.
Qed.

(** *** Several ticks *)

Definition delays_ok (l : list entry) : Prop := Forall (λ e, 0 ≤ e_delay e) l.

Lemma remaining_cons k e l :
  remaining k (e :: l) =
  if Z.of_nat k <=? e_delay e then dec_delay (Z.of_nat k) e :: remaining k l
  else remaining k l.
Proof.
  unfold remaining. cbn -[Z.of_nat Z.leb]. by destruct (Z.of_nat k <=? e_delay e).
Qed.

Lemma reported_cons k e l :
  reported k (e :: l) =
  if decide (e_delay e = Z.of_nat k) then task_msg (e_data e) ++ reported k l
  else reported k l.
Proof. unfold reported. rewrite filter_cons. by case_decide. Qed.

Lemma remaining_0 l : delays_ok l → remaining 0 l = l.
Proof.
  induction 1 as [|e l He Hl IH]; [done|].
  rewrite remaining_cons, IH. simpl in He.
  destruct (Z.of_nat 0 <=? e_delay e) eqn:E; [|exfalso; zbool; lia].
  destruct e as [a d t p]. unfold dec_delay. cbn [e_addr e_data e_delay e_prio].
  f_equal. f_equal. lia.
Qed.

Lemma remaining_S k l : tick_keep (remaining k l) = remaining (S k) l.
Proof.
  induction l as [|e l IH]; [done|].
  rewrite !remaining_cons.
  destruct (Z.of_nat k <=? e_delay e) eqn:E1;
    destruct (Z.of_nat (S k) <=? e_delay e) eqn:E2; try (exfalso; zbool; lia).
  - rewrite tick_keep_cons. cbn [dec_delay e_delay].
    destruct (0 <? e_delay e - Z.of_nat k) eqn:E3; [|exfalso; zbool; lia].
    rewrite IH. f_equal. unfold dec_delay. cbn [e_addr e_data e_delay e_prio].
    f_equal. lia.
  - rewrite tick_keep_cons. cbn [dec_delay e_delay].
    destruct (0 <? e_delay e - Z.of_nat k) eqn:E3; [exfalso; zbool; lia|]. done.
  - done.
Qed.

Lemma reported_remaining k l : tick_out (remaining k l) = reported k l.
Proof.
  induction l as [|e l IH]; [done|].
  rewrite remaining_cons, reported_cons.
  destruct (Z.of_nat k <=? e_delay e) eqn:E1.
  - rewrite tick_out_cons. cbn [dec_delay e_delay e_data].
    destruct (0 <? e_delay e - Z.of_nat k) eqn:E3; case_decide; try (exfalso; zbool; lia).
    + done.
    + by rewrite IH.
  - case_decide; [exfalso; zbool; lia|done].
Qed.

Lemma ticks_S k s : ticks (S k) s = ticks k s ≫= execute_tasks.
Proof.
  revert s. induction k as [|k IH]; intros s.
  - simpl. by destruct (execute_tasks s).
  - change (ticks (S (S k)) s) with (execute_tasks s ≫= ticks (S k)).
    change (ticks (S k) s) with (execute_tasks s ≫= ticks k).
    destruct (execute_tasks s) as [s1|]; [|done]. simpl. apply IH.
Qed.

Lemma ticks_spec k : ∀ s l,
  inv s l → delays_ok l →
  ∃ s', ticks k s = Some s' ∧ inv s' (remaining k l) ∧
        ee_address s' = ee_address s ∧ eeprom s' = eeprom s ∧
        ee_writes s' = ee_writes s.
Proof.
  induction k as [|k IH]; intros s l Hinv Hok.
  - exists s. by rewrite remaining_0.
  - destruct (IH s l Hinv Hok) as (s1 & Hs1 & Hinv1 & Ha & He & Hw).
    destruct (execute_tasks_spec s1 _ Hinv1) as (s' & Hs' & Hinv' & _ & _ & Ha' & He' & Hw').
    exists s'. rewrite ticks_S, Hs1. simpl. rewrite remaining_S in Hinv'.
    split; [done|]. split; [done|]. by rewrite Ha', He', Hw'.
Qed.

(** *** Where [ins] puts an entry in a sorted list *)

Lemma ins_split e l :
  StronglySorted by_prio l →
  ins e l = filter (λ x, e_prio x ≤ e_prio e) l
            ++ e :: filter (λ x, e_prio e < e_prio x) l.
Proof.
  induction 1 as [|x l Hs IH Hall]; [done|]. cbn [ins].
  rewrite !filter_cons.
  destruct (e_prio x <=? e_prio e) eqn:Hp.
  - rewrite IH. repeat case_decide; try (exfalso; zbool; lia). done.
  - repeat case_decide; try (exfalso; zbool; lia).
    assert (H1 : filter (λ y, e_prio y ≤ e_prio e) l = []).
    { apply filter_none. eapply Forall_impl; [exact Hall|].
      unfold by_prio. simpl. intros; lia. }
    assert (H2 : filter (λ y, e_prio e < e_prio y) l = l).
    { clear -Hall Hp. induction Hall as [|y l Hy Hl IHl]; [done|].
      rewrite filter_cons_True; [by rewrite IHl|]. unfold by_prio in Hy. lia. }
    by rewrite H1, H2.
Qed.

(** *** The EEPROM *)

Lemma map_fmap {A B} (f : A → B) (l : list A) : map f l = f <$> l.
Proof. induction l as [|x l IH]; [done|]. simpl. by rewrite IH. Qed.

Lemma uint16_id x : 0 ≤ x < 65536 → uint16 x = x.
Proof. intros. unfold uint16. by apply Z.mod_small. Qed.

Lemma ee_write_lookup b : ∀ e a x,
  0 ≤ a → a + Z.of_nat (length b) ≤ 65536 →
  ee_write e a b !! x =
  if decide (a ≤ x < a + Z.of_nat (length b)) then b !! Z.to_nat (x - a) else e !! x.
Proof.
  induction b as [|y b IH]; intros e a x Ha Hlen; cbn [ee_write].
  - case_decide; [simpl in *; lia|done].
  - cbn [length] in *. rewrite IH by lia. rewrite uint16_id by lia.
    repeat case_decide; try lia.
    + replace (Z.to_nat (x - a)) with (S (Z.to_nat (x - (a + 1)))) by lia. done.
    + assert (x = a) as -> by lia. rewrite lookup_insert_eq.
      by replace (Z.to_nat (a - a)) with 0%nat by lia.
    + rewrite lookup_insert_ne by lia. done.
Qed.

Lemma read_block_eq e a b :
  0 ≤ a → a + Z.of_nat (length b) ≤ 65536 →
  (∀ i x, b !! i = Some x → e !! (a + Z.of_nat i) = Some x) →
  eeprom_read_block e a (Z.of_nat (length b)) = b.
Proof.
  intros Ha Hlen Hb. unfold eeprom_read_block.
  apply list_eq. intros i.
  rewrite map_fmap, list_lookup_fmap.
  destruct (b !! i) as [x|] eqn:Hi.
  - pose proof (lookup_lt_Some _ _ _ Hi) as Hlt.
    rewrite lookup_seqZ_lt by lia. simpl.
    rewrite uint16_id by lia. unfold ee_read.
    replace (a + (0 + Z.of_nat i)) with (a + Z.of_nat i) by lia.
    by rewrite (Hb i x Hi).
  - pose proof (lookup_ge_None_1 _ _ Hi) as Hge.
    rewrite lookup_seqZ_ge by lia. done.
Qed.

(** *** [save_logs_to_eeprom] *)

Lemma chain_first h p l : chain h p l NULL → p = first_addr l.
Proof. destruct l; simpl; [done|]. by intros (-> & _). Qed.

Lemma save_loop_spec l : ∀ temp s n,
  chain (heap s) temp l NULL → (length l < n)%nat →
  save_loop n temp s =
  Some (State (heap s) (pool s) (log_head s)
              (advance (ee_address s) (length l))
              (ee_apply (eeprom s) (records (ee_address s) l))
              (ee_writes s ++ records (ee_address s) l)
              (tx s)).
Proof.
  induction l as [|e l IH]; intros temp s n Hc Hn;
    (destruct n as [|n]; [simpl in Hn; lia|]).
  - simpl in Hc. subst temp. cbn [save_loop]. rewrite Z.eqb_refl.
    cbn. rewrite app_nil_r. by destruct s.
  - destruct Hc as (-> & Hnz & nx & Hl & Hc). cbn [save_loop].
    destruct (e_addr e =? NULL) eqn:E; [apply Z.eqb_eq in E; done|].
    rewrite Hl. cbn [mbind option_bind].
    rewrite (IH nx _ n); [|done|simpl in Hn; lia].
    unfold eeprom_write_block. proj.
    rewrite (chain_first _ _ _ Hc).
    cbn [records advance length ee_apply foldl fst snd].
    by rewrite <- app_assoc.
Qed.

Lemma save_spec s l :
  inv s l →
  save_logs_to_eeprom s =
  Some (State (heap s) (pool s) (log_head s)
              (advance (ee_address s) (length l))
              (ee_apply (eeprom s) (records (ee_address s) l))
              (ee_writes s ++ records (ee_address s) l)
              (tx s ++ c_str (bytes_of_string "Logs saved to EEPROM." ++ [10]))).
Proof.
  intros Hinv. unfold save_logs_to_eeprom.
  rewrite (save_loop_spec l); [done|apply Hinv|by apply inv_fuel].
Qed.

(** *** [load_logs_from_eeprom] *)

Lemma load_loop_spec n : ∀ s l,
  inv s l →
  inv (load_loop n s)
      (rev (loaded (eeprom s) (ee_address s) (take n (pool s))) ++ l) ∧
  pool (load_loop n s) = drop n (pool s) ∧
  ee_address (load_loop n s) = advance (ee_address s) (length (take n (pool s))) ∧
  eeprom (load_loop n s) = eeprom s ∧
  ee_writes (load_loop n s) = ee_writes s ∧
  tx (load_loop n s) = tx s.
Proof.
  induction n as [|n IH]; intros s l Hinv.
  - by rewrite take_0.
  - cbn [load_loop]. unfold malloc.
    destruct (pool s) as [|a blocks] eqn:Hpool.
    + rewrite Z.eqb_refl, Hpool. done.
    + destruct Hinv as [Hc Hnd Hpn Hpf]. rewrite Hpool in Hpn, Hpf.
      destruct (Hpf a) as [Ha0 Hah]; [by left|].
      apply NoDup_cons in Hpn as [Hab Hpn].
      destruct (a =? NULL) eqn:E; [apply Z.eqb_eq in E; done|]. clear E.
      proj.
      set (t := struct_of_bytes _).
      set (s1 := set_log_head a _).
      assert (Hal : a ∉ addrs l).
      { intros Hin. destruct (chain_addrs _ _ _ _ _ Hc Hin) as [_ [? ?]]. congruence. }
      assert (Hinv1 : inv s1 (entry_of a t :: l)).
      { split; subst s1; proj.
        - apply (chain_cons _ (entry_of a t) _ _ (log_head s)); [done|..].
          + cbn [e_addr entry_of]. by rewrite lookup_insert_eq.
          + by apply chain_insert_ne.
        - cbn [addrs map entry_of e_addr]. by apply NoDup_cons.
        - done.
        - intros b Hb. destruct (Hpf b) as [? ?]; [by right|]. split; [done|].
          rewrite lookup_insert_ne; [done|]. by intros <-. }
      destruct (IH s1 _ Hinv1) as (Hinv' & Hp' & Ha' & He' & Hw' & Ht').
      rewrite Hp', Ha', He', Hw', Ht'. subst s1. proj.
      split; [|done].
      cbn [take loaded rev]. rewrite <- app_assoc. exact Hinv'.
Qed.

Lemma load_spec s l :
  inv s l →
  let s' := load_logs_from_eeprom s in
  inv s' (rev (loaded (eeprom s) 0 (take MAX_LOGS (pool s))) ++ l) ∧
  pool s' = drop MAX_LOGS (pool s) ∧
  ee_address s' = advance 0 (length (take MAX_LOGS (pool s))) ∧
  eeprom s' = eeprom s ∧ ee_writes s' = ee_writes s ∧
  tx s' = tx s ++ c_str (bytes_of_string "Logs loaded from EEPROM." ++ [10]).
Proof.
  intros Hinv s'.
  assert (Hinv0 : inv (set_ee_address 0 s) l) by (by destruct Hinv).
  destruct (load_loop_spec MAX_LOGS _ _ Hinv0) as (Hinv' & Hp' & Ha' & He' & Hw' & Ht').
  subst s'. unfold load_logs_from_eeprom, uart_send_str. proj.
  rewrite Hp', Ha', He', Hw', Ht'. split; [|done].
  by destruct Hinv'.
Qed.

(** *** Reading back what was saved *)

Lemma length_struct_bytes t :
  length (struct_bytes t) = (length (data t) + 5)%nat.
Proof. unfold struct_bytes, le16. rewrite !length_app. simpl. lia. Qed.

Lemma struct_bytes_fields e nx a :
  entry_ok e →
  fields (entry_of a (struct_of_bytes (struct_bytes (node_of e nx)))) = fields e.
Proof.
  intros (Hlen & Hd & Hp).
  unfold fields, entry_of, struct_of_bytes, struct_bytes, node_of, le16.
  cbn [e_data e_delay e_prio data delay_ticks priority next].
  rewrite take_app_length' by done.
  rewrite (lookup_total_app_r _ _ 32), (lookup_total_app_r _ _ 33),
    (lookup_total_app_r _ _ 34) by lia.
  rewrite Hlen. simpl.
  f_equal; [f_equal|]; unfold uint8; zmod.
Qed.

Lemma records_below l : ∀ a e x,
  0 ≤ a → a + 37 * Z.of_nat (length l) < 65536 → Forall entry_ok l → x < a →
  ee_apply e (records a l) !! x = e !! x.
Proof.
  induction l as [|y l IH]; intros a e x Ha Hlen Hok Hx; [done|].
  apply Forall_cons in Hok as [(Hy & _) Hok]. cbn [length] in Hlen.
  cbn [records ee_apply foldl fst snd]. change (foldl _ ?e0 ?ws) with (ee_apply e0 ws).
  unfold sizeof_TaskNode, MAX_CMD_LEN. rewrite uint16_id by lia.
  rewrite IH by (try done; lia).
  rewrite ee_write_lookup; [by case_decide; [lia|]|lia|].
  rewrite length_struct_bytes. cbn [node_of data]. lia.
Qed.

Lemma loaded_records l : ∀ a e blocks,
  0 ≤ a → a + 37 * Z.of_nat (length l) < 65536 → Forall entry_ok l →
  length blocks = length l →
  map fields (loaded (ee_apply e (records a l)) a blocks) = map fields l.
Proof.
  induction l as [|y l IH]; intros a e blocks Ha Hlen Hok Hb;
    destruct blocks as [|b blocks]; try done.
  pose proof Hok as [Hy Hok']%Forall_cons. pose proof Hy as (Hyl & _).
  cbn [length] in Hlen, Hb.
  cbn [records ee_apply foldl fst snd loaded map].
  change (foldl _ ?e0 ?ws) with (ee_apply e0 ws).
  unfold sizeof_TaskNode, MAX_CMD_LEN. rewrite uint16_id by lia.
  change (32 + 2 + 1 + 2) with 37.
  set (bx := struct_bytes (node_of y (first_addr l))).
  assert (Hbl : length bx = 37%nat).
  { subst bx. rewrite length_struct_bytes. cbn [node_of data]. lia. }
  f_equal.
  - replace (eeprom_read_block _ a 37) with bx; [by apply struct_bytes_fields|].
    symmetry. change 37 with (Z.of_nat 37). rewrite <- Hbl.
    apply read_block_eq; [done|lia|].
    intros i x Hi. pose proof (lookup_lt_Some _ _ _ Hi) as Hlt.
    rewrite records_below by (try done; lia).
    rewrite ee_write_lookup by lia.
    case_decide; [|lia]. by replace (Z.to_nat (a + Z.of_nat i - a)) with i by lia.
  - apply IH; try done; lia.
Qed.

(** Saving a queue of well-typed entries with the cursor at 0, then loading into
    an empty queue with enough free blocks, gives back the entries' fields in
    reverse order. *)
Lemma roundtrip_from_zero s l s2 :
  inv s l → ee_address s = 0 → Forall entry_ok l → length l = MAX_LOGS →
  ∃ s1, save_logs_to_eeprom s = Some s1 ∧
        (inv s2 [] → eeprom s2 = eeprom s1 → (MAX_LOGS ≤ length (pool s2))%nat →
         ∃ l2, inv (load_logs_from_eeprom s2) l2 ∧
               map fields l2 = rev (map fields l)).
Proof.
  intros Hinv Hz Hok Hlen. rewrite (save_spec s l Hinv). eexists. split; [done|].
  proj. intros Hinv2 He Hpool.
  destruct (load_spec s2 [] Hinv2) as (Hinv' & _).
  eexists. split; [exact Hinv'|].
  rewrite app_nil_r, map_rev. f_equal.
  rewrite He, Hz. apply loaded_records; try done.
  - rewrite Hlen. unfold MAX_LOGS. lia.
  - rewrite length_take. lia.
Qed.

Lemma records_lookup l : ∀ a i e,
  l !! i = Some e →
  records a l !! i =
  Some (advance a i, struct_bytes (node_of e (first_addr (drop (S i) l)))).
Proof.
  induction l as [|y l IH]; intros a i e Hi; [done|].
  destruct i as [|i]; cbn [records].
  - by injection Hi as ->.
  - cbn [lookup list_lookup] in *. rewrite (IH _ i e Hi). done.
Qed.

Lemma length_records a l : length (records a l) = length l.
Proof. revert a. induction l as [|y l IH]; intros a; [done|]. simpl. by rewrite IH. Qed.

Lemma loaded_lookup e blocks : ∀ a i b,
  blocks !! i = Some b →
  loaded e a blocks !! i =
  Some (entry_of b (struct_of_bytes
                      (eeprom_read_block e (advance a i) sizeof_TaskNode))).
Proof.
  induction blocks as [|c blocks IH]; intros a i b Hi; [done|].
  destruct i as [|i]; cbn [loaded].
  - by injection Hi as ->.
  - cbn [lookup list_lookup] in *. by rewrite (IH _ i b Hi).
Qed.

Lemma length_loaded e a blocks : length (loaded e a blocks) = length blocks.
Proof.
  revert a. induction blocks as [|c blocks IH]; intros a; [done|].
  simpl. by rewrite IH.
Qed.

Lemma advance_small n : ∀ a,
  0 ≤ a → a + 37 * Z.of_nat n < 65536 → advance a n = a + 37 * Z.of_nat n.
Proof.
  induction n as [|n IH]; intros a Ha Hn; cbn [advance]; [lia|].
  unfold sizeof_TaskNode, MAX_CMD_LEN. rewrite uint16_id by lia.
  rewrite IH by lia. lia.
Qed.

Lemma walk_fields_chain l : ∀ n h p,
  chain h p l NULL → (length l < n)%nat → walk_fields n h p = map fields l.
Proof.
  induction l as [|e l IH]; intros n h p Hc Hn;
    (destruct n as [|n]; [simpl in Hn; lia|]); cbn [walk_fields].
  - simpl in Hc. subst p. by rewrite Z.eqb_refl.
  - destruct Hc as (-> & Hnz & nx & Hl & Hc).
    destruct (e_addr e =? NULL) eqn:E; [apply Z.eqb_eq in E; done|].
    rewrite Hl. cbn [map]. f_equal. apply IH; [done|simpl in Hn; lia].
Qed.

Lemma queue_of_inv s l : inv s l → queue_of s = map fields l.
Proof.
  intros Hinv. apply walk_fields_chain; [apply Hinv|by apply inv_fuel].
Qed.

Lemma tick_keep_ins_due e l : due e = true → tick_keep (ins e l) = tick_keep l.
Proof.
  intros He. assert (Hd : (0 <? e_delay e) = false).
  { unfold due in He. by destruct (0 <? e_delay e). }
  induction l as [|x l IH]; cbn [ins].
  - by rewrite tick_keep_cons, Hd.
  - destruct (e_prio x <=? e_prio e).
    + rewrite !tick_keep_cons, IH. done.
    + by rewrite (tick_keep_cons e), Hd.
Qed.

Lemma tick_out_ins_due e l :
  due e = true →
  ∃ o1 o2, tick_out (ins e l) = o1 ++ task_msg (e_data e) ++ o2 ∧
           tick_out l = o1 ++ o2.
Proof.
  intros He. assert (Hd : (0 <? e_delay e) = false).
  { unfold due in He. by destruct (0 <? e_delay e). }
  induction l as [|x l (o1 & o2 & IH1 & IH2)]; cbn [ins].
  - exists [], []. by rewrite tick_out_cons, Hd.
  - destruct (e_prio x <=? e_prio e).
    + rewrite !tick_out_cons. destruct (0 <? e_delay x).
      * by exists o1, o2.
      * exists (task_msg (e_data x) ++ o1), o2.
        rewrite IH1, IH2, <- !app_assoc. done.
    + exists [], (tick_out (x :: l)). by rewrite (tick_out_cons e), Hd.
Qed.

End QueueProofs.

(* ===================================================================== *)
(** ** Properties of the task list, the runner and the persistence        *)
(* ===================================================================== *)

Module LoggerProofs.
Import Logger Queue QueueProofs.

(** *** Concrete states used below *)

Definition blocks4 : list Z := [100; 200; 300; 400].

Lemma blocks4_ok : NoDup blocks4 ∧ NULL ∉ blocks4.
Proof.
  split; [apply NoDup_ListNoDup; repeat constructor; simpl; intuition lia|].
  intros H. repeat (apply elem_of_cons in H as [H|H]; [done|]). by apply elem_of_nil in H.
Qed.

(** The scenario of the specification, then two more requests of priority 5 and 1. *)
Definition ping_pong : list (list Z * Z * Z) :=
  [(bytes_of_string "PING", 0, 5); (bytes_of_string "PONG", 0, 1);
   (bytes_of_string "LATE", 25, 5); (bytes_of_string "SOON", 0, 1)].

(** A queue with the single task ("A", priority 3, 2 ticks). *)
Definition task_A : entry := Entry 100 (strncpy (bytes_of_string "A") 31 ++ [0]) 2 3.

Definition state_A : state :=
  State {[100 := node_of task_A NULL]} [200] 100 0 ∅ [] [].

Lemma state_A_inv : inv state_A [task_A].
Proof.
  split.
  - split; [done|]. split; [done|]. exists NULL. split; [|done]. reflexivity.
  - apply NoDup_singleton.
  - apply NoDup_singleton.
  - intros a ->%list_elem_of_singleton. split; [done|]. reflexivity.
Qed.

Example state_A_built :
  add_log (bytes_of_string "A") 20 3 (boot [100; 200] ∅) = Some state_A.
Proof. reflexivity. Qed.

(** C1. Starting from the empty list of the reset state, any series of calls to
    [add_log] succeeds and leaves a well-formed list [l] which [print_log] then
    renders front to back.  [l] holds exactly the entries created (one per call
    that got a block), its priorities are non-decreasing, and for every priority
    [p] the entries of priority [p] stand in the order of their insertion.  The
    list is the result of applying the walk rule [ins] call after call, and one
    more call puts its entry behind every entry whose priority is at most the new
    one and in front of every entry of greater priority: at the front when the
    list is empty or the new priority is smaller than the head's. *)
Theorem insertion_order (blocks : list Z) (e0 : gmap Z Z)
    (calls : list (list Z * Z * Z)) :
  NoDup blocks → NULL ∉ blocks →
  ∃ s l,
    add_logs calls (boot blocks e0) = Some s ∧ inv s l ∧
    print_log s = Some (set_tx (lines 1 l) s) ∧
    queue_of s = map fields l ∧
    Sorted Z.le (map e_prio l) ∧
    (∀ p, filter (λ x, e_prio x = p) l
          = filter (λ x, e_prio x = p) (created blocks calls)) ∧
    l ≡ₚ created blocks calls ∧
    l = foldl (λ l e, ins e l) [] (created blocks calls) ∧
    (∀ msg d p,
       match pool s with
       | [] => add_log msg d p s = Some s
       | a :: _ =>
           ∃ s', add_log msg d p s = Some s' ∧
                 inv s' (filter (λ x, e_prio x ≤ uint8 p) l
                         ++ new_entry a msg d p
                         :: filter (λ x, uint8 p < e_prio x) l)
       end).
Proof.
  intros Hnd Hnull.
  destruct (add_logs_spec calls (boot blocks e0) [] (inv_boot _ _ Hnd Hnull))
    as (s & Hs & Hinv & Htx & _).
  cbn [boot pool tx] in Hinv, Htx.
  destruct (ins_all_order (created blocks calls)) as [Hsorted Hstable].
  eexists s, _. split; [exact Hs|]. split; [exact Hinv|].
  split; [|split; [|split; [|split; [|split; [|split]]]]].
  - rewrite (print_log_spec _ _ Hinv), Htx. done.
  - by apply queue_of_inv.
  - by apply sorted_prios.
  - exact Hstable.
  - apply ins_all_perm.
  - done.
  - intros msg d p. pose proof (add_log_spec msg d p s _ Hinv) as Hadd.
    destruct (pool s) as [|a bl]; [done|].
    destruct Hadd as (s' & Hs' & Hinv' & _). exists s'. split; [done|].
    by rewrite ins_split in Hinv'.
Qed.

Lemma insertion_order_witness :
  ∃ s l,
    add_logs ping_pong (boot blocks4 ∅) = Some s ∧ inv s l ∧
    print_log s = Some (set_tx (lines 1 l) s) ∧
    queue_of s = map fields l ∧
    Sorted Z.le (map e_prio l) ∧
    (∀ p, filter (λ x, e_prio x = p) l
          = filter (λ x, e_prio x = p) (created blocks4 ping_pong)) ∧
    l ≡ₚ created blocks4 ping_pong ∧
    l = foldl (λ l e, ins e l) [] (created blocks4 ping_pong) ∧
    (∀ msg d p,
       match pool s with
       | [] => add_log msg d p s = Some s
       | a :: _ =>
           ∃ s', add_log msg d p s = Some s' ∧
                 inv s' (filter (λ x, e_prio x ≤ uint8 p) l
                         ++ new_entry a msg d p
                         :: filter (λ x, uint8 p < e_prio x) l)
       end).
Proof.
  apply (insertion_order blocks4 ∅ ping_pong); apply blocks4_ok.
Defined.

(** The scenario of the specification: PING with priority 5, then PONG with
    priority 1, are listed as PONG, PING; equal priorities keep insertion order. *)
Example ping_pong_rendered :
  (λ s, (map (λ t, (c_str t.1.1, t.2)) (queue_of s), tx s))
    <$> (add_logs ping_pong (boot blocks4 ∅) ≫= print_log) =
  Some ([(bytes_of_string "PONG", 1); (bytes_of_string "SOON", 1);
         (bytes_of_string "PING", 5); (bytes_of_string "LATE", 5)],
        bytes_of_string "1: [1] PONG" ++ [10] ++ bytes_of_string "2: [1] SOON" ++ [10]
        ++ bytes_of_string "3: [5] PING" ++ [10] ++ bytes_of_string "4: [5] LATE" ++ [10]).
Proof. by vm_compute. Qed.

(** The claim of the specification for [delay_ticks = 2] fails: after the second
    tick nothing has been sent, and the task is still in the list, with delay 0. *)
Lemma second_tick_counterexample :
  (λ s, (tx s, queue_of s)) <$> ticks 2 state_A = Some ([], [(e_data task_A, 0, 3)]) ∧
  ¬ (∃ s, ticks 2 state_A = Some s ∧ log_head s = NULL).
Proof.
  split; [by vm_compute|]. intros (s & Hs & Hh).
  vm_compute in Hs. injection Hs as <-. vm_compute in Hh. done.
Qed.

(** C2 (amended). In a well-formed list with delays in the range of [uint16_t],
    [k] ticks leave exactly the entries whose delay was at least [k], each with
    its delay reduced by [k], in their order; and tick number [k + 1] reports
    exactly the entries whose delay was [k], once each, in list order, and removes
    them.  So an entry with [delay_ticks = N] is still listed after ticks 1..N
    (with delay [N - k] after tick [k]), is executed exactly once, by tick number
    [N + 1], and is absent from then on. *)
Theorem tick_schedule (s : state) (l : list entry) (k : nat) :
  inv s l → delays_ok l →
  ∃ s_k s',
    ticks k s = Some s_k ∧ inv s_k (remaining k l) ∧
    execute_tasks s_k = Some s' ∧ ticks (S k) s = Some s' ∧
    tx s' = tx s_k ++ reported k l ∧
    inv s' (remaining (S k) l) ∧
    queue_of s_k = map fields (remaining k l) ∧
    queue_of s' = map fields (remaining (S k) l).
Proof.
  intros Hinv Hok.
  destruct (ticks_spec k s l Hinv Hok) as (s_k & Hs_k & Hinv_k & _).
  destruct (execute_tasks_spec s_k _ Hinv_k) as (s' & Hs' & Hinv' & Htx & _).
  rewrite remaining_S in Hinv'. rewrite reported_remaining in Htx.
  exists s_k, s'. rewrite ticks_S, Hs_k.
  do 6 (split; [done|]). split; by apply queue_of_inv.
Qed.

Lemma tick_schedule_witness :
  ∃ s_k s',
    ticks 2 state_A = Some s_k ∧ inv s_k (remaining 2 [task_A]) ∧
    execute_tasks s_k = Some s' ∧ ticks 3 state_A = Some s' ∧
    tx s' = tx s_k ++ reported 2 [task_A] ∧
    inv s' (remaining 3 [task_A]) ∧
    queue_of s_k = map fields (remaining 2 [task_A]) ∧
    queue_of s' = map fields (remaining 3 [task_A]).
Proof.
  apply (tick_schedule state_A [task_A] 2).
  - apply state_A_inv.
  - repeat constructor. simpl. lia.
Defined.

(** The scenario of the specification as the code runs it: ("A", 3, 2 ticks) has
    delay 1 after the first tick and delay 0 after the second, and only the third
    tick sends "Task: A" and empties the list. *)
Example task_A_three_ticks :
  (λ s, (tx s, queue_of s)) <$> ticks 1 state_A = Some ([], [(e_data task_A, 1, 3)]) ∧
  (λ s, (tx s, queue_of s)) <$> ticks 2 state_A = Some ([], [(e_data task_A, 0, 3)]) ∧
  (λ s, (tx s, queue_of s)) <$> ticks 3 state_A
    = Some (bytes_of_string "Task: A" ++ [10], []) ∧
  (λ s, (tx s, queue_of s)) <$> ticks 7 state_A
    = Some (bytes_of_string "Task: A" ++ [10], []).
Proof. by vm_compute. Qed.

(** C10. [add_log] stores [delay_ms / TICK_MS], the quotient of the integer
    division by 10 with the remainder dropped.  A delay below 10 ms gives
    [delay_ticks = 0]: the entry is due at the very next [execute_tasks], which
    sends its message and leaves the list as if the entry had never been added.
    25 ms gives 2 ticks. *)
Theorem delay_conversion (msg : list Z) (d p : Z) (s : state) (l : list entry)
    (a : Z) (blocks : list Z) :
  inv s l → pool s = a :: blocks →
  let e := new_entry a msg d p in
  ∃ s',
    add_log msg d p s = Some s' ∧ inv s' (ins e l) ∧
    e_delay e = uint16 d / TICK_MS ∧
    (0 ≤ d < 65536 →
     e_delay e = d / 10 ∧ d = 10 * e_delay e + d mod 10 ∧ 0 ≤ d mod 10 < 10) ∧
    (0 ≤ d < 10 →
     e_delay e = 0 ∧
     ∃ s'' o1 o2,
       execute_tasks s' = Some s'' ∧ inv s'' (tick_keep l) ∧
       tx s'' = tx s' ++ o1 ++ task_msg (e_data e) ++ o2 ∧
       tick_out l = o1 ++ o2) ∧
    (d = 25 → e_delay e = 2).
Proof.
  intros Hinv Hpool. cbn zeta.
  pose proof (add_log_spec msg d p s l Hinv) as Hadd. rewrite Hpool in Hadd.
  destruct Hadd as (s' & Hs' & Hinv' & _).
  set (e := new_entry a msg d p) in *.
  exists s'. split; [done|]. split; [done|]. split; [done|].
  assert (He : e_delay e = uint16 d / 10) by done. rewrite He. clearbody e.
  split; [|split].
  - intros Hd. rewrite uint16_id by done. repeat split; zmod.
  - intros Hd. rewrite uint16_id by lia.
    assert (Hz : d / 10 = 0) by zmod. split; [done|].
    assert (Hdue : due e = true).
    { unfold due. rewrite He, uint16_id by lia. by rewrite Hz. }
    destruct (execute_tasks_spec s' _ Hinv') as (s'' & Hs'' & Hinv'' & Htx & _).
    destruct (tick_out_ins_due e l Hdue) as (o1 & o2 & Ho & Hl).
    exists s'', o1, o2. rewrite tick_keep_ins_due in Hinv'' by done.
    rewrite Ho in Htx. done.
  - intros ->. reflexivity.
Qed.

Lemma delay_conversion_witness :
  let e := new_entry 100 (bytes_of_string "A") 25 3 in
  ∃ s',
    add_log (bytes_of_string "A") 25 3 (boot blocks4 ∅) = Some s' ∧ inv s' (ins e []) ∧
    e_delay e = uint16 25 / TICK_MS ∧
    (0 ≤ 25 < 65536 →
     e_delay e = 25 / 10 ∧ 25 = 10 * e_delay e + 25 mod 10 ∧ 0 ≤ 25 mod 10 < 10) ∧
    (0 ≤ 25 < 10 →
     e_delay e = 0 ∧
     ∃ s'' o1 o2,
       execute_tasks s' = Some s'' ∧ inv s'' (tick_keep []) ∧
       tx s'' = tx s' ++ o1 ++ task_msg (e_data e) ++ o2 ∧
       tick_out [] = o1 ++ o2) ∧
    (25 = 25 → e_delay e = 2).
Proof.
  apply (delay_conversion (bytes_of_string "A") 25 3 (boot blocks4 ∅) [] 100
           [200; 300; 400]).
  - apply inv_boot; apply blocks4_ok.
  - reflexivity.
Defined.

Example delay_examples :
  map (λ d, e_delay (new_entry 100 [] d 0)) [0; 9; 10; 19; 25; 1000; 65535]
  = [0; 0; 1; 1; 2; 100; 6553].
Proof. reflexivity. Qed.

(** *** Persistence *)

Definition blocks10 : list Z := (λ i, 100 * i) <$> seqZ 1 10.

(** Ten requests with payloads [tag]0 .. [tag]9, all of priority 5 and due at once. *)
Definition requests (tag : string) : list (list Z * Z * Z) :=
  (λ i, (bytes_of_string tag ++ [48 + i], 0, 5)) <$> seqZ 0 10.

Definition payloads (calls : list (list Z * Z * Z)) : list (list Z * Z * Z) :=
  (λ c, (strncpy c.1.1 31 ++ [0], uint16 c.1.2 / TICK_MS, uint8 c.2)) <$> calls.

(** C6 (the code at the failing inputs). [save_logs_to_eeprom] never sets
    [ee_address] back to 0.  Two SAVE commands in a row on a one-entry list: the
    second call writes its record at address 37.  A SAVE after a LOAD (here on an
    erased EEPROM, with ten free blocks): the ten records go to addresses 370, 407,
    ..., not to 0, 37, ... *)
Theorem save_continues_at_cursor :
  (λ s, (map fst (ee_writes s), ee_address s))
    <$> ((add_log (bytes_of_string "A") 0 5 (boot blocks4 ∅)
          ≫= save_logs_to_eeprom) ≫= save_logs_to_eeprom)
  = Some ([0; 37], 74) ∧
  (λ s, (map fst (ee_writes s), ee_address s))
    <$> save_logs_to_eeprom (load_logs_from_eeprom (boot blocks10 ∅))
  = Some ((λ i, 370 + 37 * i) <$> seqZ 0 10, 740).
Proof. split; by vm_compute. Qed.

(** The list holding the second batch of ten requests, after a first batch was
    entered, saved and executed. *)
Definition second_batch : option state :=
  ((add_logs (requests "a") (boot blocks10 ∅)
    ≫= save_logs_to_eeprom) ≫= execute_tasks) ≫= add_logs (requests "b").

(** SAVE, one tick, LOAD. *)
Definition save_tick_load (s : state) : option state :=
  load_logs_from_eeprom <$> (save_logs_to_eeprom s ≫= execute_tasks).

(** C3 (the code at the failing input). Ten entries a0..a9 are entered, saved
    and executed; then ten entries b0..b9 are entered, so the list holds exactly
    [MAX_LOGS] entries, and saved; the tick empties the list; LOAD then rebuilds
    a0..a9 in reverse order, not b0..b9: the second SAVE wrote at addresses 370 and
    up because the cursor was not set back to 0, and LOAD reads from 0. *)
Theorem save_load_stale :
  queue_of <$> second_batch = Some (payloads (requests "b")) ∧
  queue_of <$> ((second_batch ≫= save_logs_to_eeprom) ≫= execute_tasks) = Some [] ∧
  queue_of <$> (second_batch ≫= save_tick_load)
  = Some (rev (payloads (requests "a"))) ∧
  rev (payloads (requests "a")) ≠ rev (payloads (requests "b")).
Proof. repeat split; by vm_compute. Qed.

(** With the cursor at 0, as after a reset, the same steps do reproduce the saved
    entries in reverse order. *)
Example save_load_fresh :
  queue_of <$> (add_logs (requests "a") (boot blocks10 ∅) ≫= save_tick_load)
  = Some (rev (payloads (requests "a"))).
Proof. by vm_compute. Qed.

(** The claim of the specification fails when the allocator has fewer than
    [MAX_LOGS] blocks left: with three blocks, three records are read. *)
Lemma load_short_counterexample :
  let s' := load_logs_from_eeprom (boot [100; 200; 300] ∅) in
  length (queue_of s') = 3%nat ∧ ee_address s' = 111 ∧
  length (queue_of s') ≠ MAX_LOGS.
Proof. by vm_compute. Qed.

(** C7 (amended). Whatever the EEPROM holds, whatever the list holds and wherever
    the cursor stands, [load_logs_from_eeprom] reads records of [sizeof(TaskNode)]
    bytes from addresses 0, 37, 74, ..., one for each block [malloc] hands out, and
    stops after [MAX_LOGS] records or at the first failed allocation: it reads
    exactly [MAX_LOGS] records when that many blocks are free.  Each record becomes
    the new head of the list, so the records end up in reverse order in front of
    the entries that were there, which are all kept.  The cursor is left behind the
    last record read. *)
Theorem load_reads (s : state) (l : list entry) :
  inv s l →
  let s' := load_logs_from_eeprom s in
  let got := take MAX_LOGS (pool s) in
  let new := loaded (eeprom s) 0 got in
  inv s' (rev new ++ l) ∧
  queue_of s' = rev (map fields new) ++ queue_of s ∧
  length new = (MAX_LOGS `min` length (pool s))%nat ∧
  (∀ i b, got !! i = Some b →
          new !! i = Some (entry_of b (struct_of_bytes
                             (eeprom_read_block (eeprom s) (37 * Z.of_nat i)
                                                sizeof_TaskNode)))) ∧
  ee_address s' = 37 * Z.of_nat (length new) ∧
  eeprom s' = eeprom s ∧
  ((MAX_LOGS ≤ length (pool s))%nat →
   length new = MAX_LOGS ∧ ee_address s' = 370).
Proof.
  intros Hinv s' got new.
  destruct (load_spec s l Hinv) as (Hinv' & Hp & Ha & He & _).
  fold s' got new in Hinv', Hp, Ha, He.
  assert (Hlen : length new = (MAX_LOGS `min` length (pool s))%nat).
  { unfold new, got. by rewrite length_loaded, length_take. }
  assert (Hgot : length got = length new).
  { unfold new. by rewrite length_loaded. }
  assert (Hadv : ee_address s' = 37 * Z.of_nat (length new)).
  { rewrite Ha, Hgot, advance_small; unfold MAX_LOGS in Hlen; lia. }
  split; [done|]. split.
  { rewrite (queue_of_inv _ _ Hinv'), (queue_of_inv _ _ Hinv).
    by rewrite map_app, map_rev. }
  split; [done|]. split.
  { intros i b Hi. unfold new. rewrite (loaded_lookup _ _ 0 i b Hi).
    pose proof (lookup_lt_Some _ _ _ Hi) as Hlt.
    rewrite advance_small; [done|lia|]. unfold MAX_LOGS in Hlen. lia. }
  split; [done|]. split; [done|].
  intros Hpool. rewrite Hadv, Hlen. unfold MAX_LOGS in *. split; lia.
Qed.

Lemma load_reads_witness :
  let s := state_A in
  let s' := load_logs_from_eeprom s in
  let got := take MAX_LOGS (pool s) in
  let new := loaded (eeprom s) 0 got in
  inv s' (rev new ++ [task_A]) ∧
  queue_of s' = rev (map fields new) ++ queue_of s ∧
  length new = (MAX_LOGS `min` length (pool s))%nat ∧
  (∀ i b, got !! i = Some b →
          new !! i = Some (entry_of b (struct_of_bytes
                             (eeprom_read_block (eeprom s) (37 * Z.of_nat i)
                                                sizeof_TaskNode)))) ∧
  ee_address s' = 37 * Z.of_nat (length new) ∧
  eeprom s' = eeprom s ∧
  ((MAX_LOGS ≤ length (pool s))%nat →
   length new = MAX_LOGS ∧ ee_address s' = 370).
Proof. apply (load_reads state_A [task_A]). apply state_A_inv. Defined.

(** LOAD on a list that already holds task A, with one free block and an erased
    EEPROM: one record of 0xFF bytes is put in front of A, which stays. *)
Example load_keeps_queue :
  map (λ t, (t.1.2, t.2)) (queue_of (load_logs_from_eeprom state_A))
  = [(65535, 255); (2, 3)].
Proof. by vm_compute. Qed.

(** The claim of the specification fails: the record written for PONG, which is
    followed by PING in the list, is 37 bytes long and ends with the two bytes of
    the address of PING's node (block 100). *)
Lemma record_fields_counterexample :
  let pong := strncpy (bytes_of_string "PONG") 31 ++ [0] in
  (λ s, ee_writes s !! 0%nat)
    <$> (add_logs [(bytes_of_string "PING", 0, 5); (bytes_of_string "PONG", 0, 1)]
           (boot blocks4 ∅) ≫= save_logs_to_eeprom)
  = Some (Some (0, pong ++ le16 0 ++ [1] ++ [100; 0])) ∧
  pong ++ le16 0 ++ [1] ++ [100; 0] ≠ pong ++ le16 0 ++ [1].
Proof. split; by vm_compute. Qed.

(** C8 (amended). [save_logs_to_eeprom] makes one block write per entry, front to
    back, and nothing else: no header, no count, no checksum.  The block of an
    entry is the memory image of its node: the payload buffer, the two bytes of
    [delay_ticks] (low byte first), the byte of [priority], and then the two bytes
    of the node's [next] pointer, the address of the following node or [NULL];
    37 bytes when the buffer has its 32 bytes.  Each block is written where the
    cursor stands and the cursor moves on by [sizeof(TaskNode)], so the blocks lie
    one after the other. *)
Theorem save_layout (s : state) (l : list entry) :
  inv s l →
  ∃ s',
    save_logs_to_eeprom s = Some s' ∧
    ee_writes s' = ee_writes s ++ records (ee_address s) l ∧
    eeprom s' = ee_apply (eeprom s) (records (ee_address s) l) ∧
    ee_address s' = advance (ee_address s) (length l) ∧
    length (records (ee_address s) l) = length l ∧
    (∀ i e, l !! i = Some e →
            records (ee_address s) l !! i =
            Some (advance (ee_address s) i,
                  e_data e ++ le16 (e_delay e) ++ [uint8 (e_prio e)]
                  ++ le16 (first_addr (drop (S i) l))) ∧
            (length (e_data e) = 32%nat →
             length (e_data e ++ le16 (e_delay e) ++ [uint8 (e_prio e)]
                     ++ le16 (first_addr (drop (S i) l))) = 37%nat) ∧
            advance (ee_address s) (S i)
            = uint16 (advance (ee_address s) i + sizeof_TaskNode)) ∧
    queue_of s' = queue_of s.
Proof.
  intros Hinv. rewrite (save_spec s l Hinv). eexists. split; [done|]. proj.
  do 3 (split; [done|]). split; [apply length_records|]. split.
  - intros i e Hi. split; [by apply records_lookup|]. split.
    + intros Hlen. rewrite !length_app, Hlen. done.
    + clear. generalize (ee_address s). induction i as [|i IH]; intros a; [done|].
      cbn [advance] in *. apply IH.
  - done.
Qed.

Lemma save_layout_witness :
  ∃ s',
    save_logs_to_eeprom state_A = Some s' ∧
    ee_writes s' = ee_writes state_A ++ records (ee_address state_A) [task_A] ∧
    eeprom s' = ee_apply (eeprom state_A) (records (ee_address state_A) [task_A]) ∧
    ee_address s' = advance (ee_address state_A) (length [task_A]) ∧
    length (records (ee_address state_A) [task_A]) = length [task_A] ∧
    (∀ i e, [task_A] !! i = Some e →
            records (ee_address state_A) [task_A] !! i =
            Some (advance (ee_address state_A) i,
                  e_data e ++ le16 (e_delay e) ++ [uint8 (e_prio e)]
                  ++ le16 (first_addr (drop (S i) [task_A]))) ∧
            (length (e_data e) = 32%nat →
             length (e_data e ++ le16 (e_delay e) ++ [uint8 (e_prio e)]
                     ++ le16 (first_addr (drop (S i) [task_A]))) = 37%nat) ∧
            advance (ee_address state_A) (S i)
            = uint16 (advance (ee_address state_A) i + sizeof_TaskNode)) ∧
    queue_of s' = queue_of state_A.
Proof. apply (save_layout state_A [task_A]). apply state_A_inv. Defined.

End LoggerProofs.

(* ===================================================================== *)
(** ** More on the receive ring: overflow, wrap-around, draining          *)
(* ===================================================================== *)

Module RingMore.
Import Ring RingProofs.

(** No byte arrives while the ring is full (the consumer keeps up). *)
Fixpoint no_overflow (evs : list event) (st : ring * list Z) : bool :=
  match evs with
  | [] => true
  | e :: evs =>
      match e with Rx _ => negb (buffer_is_full st.1) | Echo => true end
      && no_overflow evs (step st e)
  end.

(** [n] calls of [buffer_read] in a row: the values returned and the ring left. *)
Fixpoint read_n (n : nat) (r : ring) : list Z * ring :=
  match n with
  | O => ([], r)
  | S n =>
      let '(c, r1) := buffer_read r in
      let '(cs, r2) := read_n n r1 in
      (c :: cs, r2)
  end.

Lemma step_ok st e : ok st.1 → ok (step st e).1.
Proof.
  destruct st as [r tx]. intros Hok. destruct e as [d|]; cbn [step fst snd] in *.
  - by apply ok_rx.
  - rewrite uart_echo_read. by apply ok_read.
Qed.

(** What one step does to the bytes delivered so far followed by the unread
    ones: a byte received while the ring is not full is appended, nothing else
    changes. *)
Lemma step_stream st e :
  ok st.1 →
  (step st e).2 ++ contents (step st e).1 =
  st.2 ++ contents st.1 ++
  match e with
  | Rx d => if buffer_is_full st.1 then [] else [char_of d]
  | Echo => []
  end.
Proof.
  destruct st as [r tx]. intros Hok. destruct e as [d|]; cbn [step fst snd] in *.
  - destruct (buffer_is_full r) eqn:Hf.
    + by rewrite rx_full, app_nil_r.
    + by rewrite rx_not_full.
  - rewrite uart_echo_read, app_nil_r. cbn [fst snd].
    destruct (buffer_is_empty r) eqn:He.
    + unfold buffer_read. by rewrite He.
    + rewrite (read_not_empty r Hok He), <- app_assoc. done.
Qed.

(** X1. Whatever bytes arrive and however interrupts and consumer steps
    interleave, both indices stay inside [rx_buffer], the array keeps its 64
    cells, and at most [BUFFER_SIZE - 1] bytes are unread. *)
Theorem ring_bounds (evs : list event) :
  let r := (exec evs (init, [])).1 in
  length (rx_buffer r) = 64%nat ∧ 0 ≤ head r < BUFFER_SIZE ∧
  0 ≤ tail r < BUFFER_SIZE ∧
  (length (contents r) ≤ Z.to_nat (BUFFER_SIZE - 1))%nat.
Proof.
  assert (Hok : ok (exec evs (init, [])).1).
  { induction evs as [|e evs IH] using rev_ind; [apply ok_init|].
    rewrite exec_snoc. by apply step_ok. }
  destruct Hok as (Hl & Hh & Ht). cbn zeta.
  split; [done|]. split; [done|]. split; [done|].
  rewrite length_contents. pose proof (used_lt (exec evs (init, [])).1).
  change (Z.to_nat (BUFFER_SIZE - 1)) with 63%nat. lia.
Qed.

Lemma exec_ok evs st : ok st.1 → ok (exec evs st).1.
Proof.
  revert st. induction evs as [|e evs IH]; intros st Hok; [done|].
  simpl. apply IH. by apply step_ok.
Qed.

(** X2. In every execution, overflowing or not, the bytes handed to the consumer
    followed by the bytes still unread form a subsequence of the bytes received:
    bytes may be dropped, but none is reordered, duplicated or made up. *)
Theorem ring_subsequence (evs : list event) :
  let st := exec evs (init, []) in
  (st.2 ++ contents st.1) `sublist_of` pushed evs.
Proof.
  induction evs as [|e evs IH] using rev_ind; [done|].
  cbn zeta in *. rewrite exec_snoc, pushed_snoc.
  rewrite step_stream by (apply exec_ok, ok_init).
  rewrite app_assoc. apply sublist_app; [done|].
  destruct e as [d|]; [|done].
  destruct (buffer_is_full _); [apply sublist_nil_l|done].
Qed.

(** X3. As long as no byte arrives while the ring is full, nothing is lost, for
    executions of any length (the indices wrap around as often as needed): the
    bytes delivered followed by the unread ones are those before followed by all
    the bytes received. *)
Theorem ring_lossless (evs : list event) (st : ring * list Z) :
  ok st.1 → no_overflow evs st = true →
  (exec evs st).2 ++ contents (exec evs st).1 =
  st.2 ++ contents st.1 ++ pushed evs.
Proof.
  revert st. induction evs as [|e evs IH]; intros st Hok Hno.
  - simpl. by rewrite app_nil_r.
  - cbn [no_overflow] in Hno. apply andb_true_iff in Hno as [He Hno].
    change (exec (e :: evs) st) with (exec evs (step st e)).
    rewrite IH by (try done; by apply step_ok).
    rewrite app_assoc, step_stream by done.
    rewrite <- !app_assoc. do 2 f_equal.
    destruct e as [d|]; [|done].
    apply negb_true_iff in He. by rewrite He.
Qed.

(** 150 bytes received, each one read before the next arrives. *)
Definition long_run : list event :=
  flat_map (λ d, [Rx d; Echo]) (seqZ 0 150).

Definition start : ring * list Z := (init, []).

Lemma ring_lossless_witness :
  (exec long_run start).2 ++ contents (exec long_run start).1 =
  start.2 ++ contents start.1 ++ pushed long_run.
Proof.
  apply (ring_lossless long_run start); [apply ok_init|by vm_compute].
Defined.

(** X4. The ring holds [BUFFER_SIZE - 1] = 63 bytes: when bytes arrive and none
    is read, the first 63 are kept, in order, and all later ones are dropped. *)
Theorem ring_capacity (ds : list Z) :
  let st := exec (Rx <$> ds) (init, []) in
  contents st.1 = take (Z.to_nat (BUFFER_SIZE - 1)) (char_of <$> ds) ∧ st.2 = [].
Proof.
  change (Z.to_nat (BUFFER_SIZE - 1)) with 63%nat.
  induction ds as [|d ds [IHc IHt]] using rev_ind; [done|].
  cbn zeta in *. rewrite !fmap_app. cbn [fmap list_fmap]. rewrite exec_snoc.
  set (st := exec (Rx <$> ds) (init, [])) in *.
  assert (Hok : ok st.1) by apply exec_ok, ok_init.
  split; [|done]. cbn [step fst].
  destruct (buffer_is_full st.1) eqn:Hf.
  - rewrite rx_full by done.
    apply full_used in Hf; [|done].
    rewrite <- length_contents, IHc, length_take, length_fmap in Hf.
    rewrite take_app_le by (rewrite length_fmap; lia). done.
  - rewrite rx_not_full by done. rewrite IHc.
    assert (Hlt : (length ds < 63)%nat).
    { destruct (decide (length ds < 63)%nat) as [|Hge]; [done|]. exfalso.
      assert (Hu : used st.1 = 63%nat).
      { rewrite <- length_contents, IHc, length_take, length_fmap. lia. }
      apply full_used in Hu; [congruence|done]. }
    rewrite !take_ge; [done|..]; rewrite ?length_app, length_fmap; simpl; lia.
Qed.

(** X5. On a ring that is neither empty nor full, a receive interrupt and a read
    commute: the read returns the same byte and the ring ends up the same,
    whichever of the two comes first.  (The interrupt writes only the cell at
    [head] and [head]; the read changes only [tail].) *)
Theorem rx_read_commute (d : Z) (r : Ring.ring) :
  ok r → buffer_is_empty r = false → buffer_is_full r = false →
  buffer_read (USART_RX_vect d r) =
  ((buffer_read r).1, USART_RX_vect d (buffer_read r).2).
Proof.
  intros (Hl & Hh & Ht) He Hf.
  unfold buffer_read, USART_RX_vect, buffer_is_empty, buffer_is_full,
    uint8, BUFFER_SIZE in *.
  rewrite He. cbn [head tail rx_buffer].
  apply Z.eqb_neq in He, Hf.
  assert (H1 : (((head r + 1) mod 64) mod 256 =? tail r) = false)
    by (apply Z.eqb_neq; zmod).
  assert (H3 : (((head r + 1) mod 64) mod 256 =? ((tail r + 1) mod 64) mod 256) = false)
    by (apply Z.eqb_neq; zmod).
  rewrite H1. cbn [negb fst snd head tail rx_buffer].
  rewrite H1, H3. cbn [negb fst snd head tail rx_buffer].
  rewrite list_lookup_total_insert_ne by lia. done.
Qed.

Lemma rx_read_commute_witness :
  buffer_read (USART_RX_vect 33 (USART_RX_vect 104 init)) =
  ((buffer_read (USART_RX_vect 104 init)).1,
   USART_RX_vect 33 (buffer_read (USART_RX_vect 104 init)).2).
Proof.
  apply (rx_read_commute 33 (USART_RX_vect 104 init));
    [apply ok_rx, ok_init|reflexivity|reflexivity].
Defined.

(** X6. Reading as many times as there are unread bytes returns exactly the
    unread bytes, oldest first, and leaves the ring empty; [head] and the array
    are as before. *)
Theorem ring_drain (r : Ring.ring) :
  ok r →
  (read_n (used r) r).1 = contents r ∧
  buffer_is_empty (read_n (used r) r).2 = true ∧
  head (read_n (used r) r).2 = head r ∧
  rx_buffer (read_n (used r) r).2 = rx_buffer r.
Proof.
  remember (used r) as n eqn:Hn. revert r Hn.
  induction n as [|n IH]; intros r Hn Hok.
  - simpl. symmetry in Hn. split.
    + pose proof (length_contents r) as Hl. rewrite Hn in Hl.
      by apply nil_length_inv in Hl.
    + by rewrite (empty_used r Hok).
  - assert (He : buffer_is_empty r = false).
    { destruct (buffer_is_empty r) eqn:He; [|done].
      apply empty_used in He; [lia|done]. }
    pose proof (read_not_empty r Hok He) as Hc.
    pose proof (ok_read r Hok) as Hok1.
    cbn [read_n]. destruct (buffer_read r) as [c r1] eqn:Hr. simpl in Hc, Hok1.
    assert (Hn1 : n = used r1).
    { apply (f_equal length) in Hc. cbn [length] in Hc.
      rewrite !length_contents in Hc. lia. }
    destruct (IH r1 Hn1 Hok1) as (H1 & H2 & H3 & H4).
    destruct (read_n n r1) as [cs r2]. simpl in *.
    assert (Hr1 : head r1 = head r ∧ rx_buffer r1 = rx_buffer r).
    { unfold buffer_read in Hr. rewrite He in Hr. by injection Hr as _ <-. }
    destruct Hr1 as [Hh Hb].
    rewrite Hc, H1, H3, H4. done.
Qed.

Lemma ring_drain_witness :
  (read_n (used full_ring) full_ring).1 = contents full_ring ∧
  buffer_is_empty (read_n (used full_ring) full_ring).2 = true ∧
  head (read_n (used full_ring) full_ring).2 = head full_ring ∧
  rx_buffer (read_n (used full_ring) full_ring).2 = rx_buffer full_ring.
Proof. apply (ring_drain full_ring). by vm_compute. Defined.

End RingMore.

(* ===================================================================== *)
(** ** More on the task list: any mix of operations                       *)
(* ===================================================================== *)

Module LoggerMore.
Import Logger Queue QueueProofs.

(** The five operations on the list that [parse_command] and the main loop
    reach: [add_log], [execute_tasks], [print_log], [save_logs_to_eeprom] and
    [load_logs_from_eeprom]. *)
Inductive op :=
  | Add (msg : list Z) (delay_ms prio : Z)
  | Tick
  | List
  | Save
  | Load.

Definition run_op (o : op) (s : state) : option state :=
  match o with
  | Add msg d p => add_log msg d p s
  | Tick => execute_tasks s
  | List => print_log s
  | Save => save_logs_to_eeprom s
  | Load => Some (load_logs_from_eeprom s)
  end.

Fixpoint run_ops (os : list op) (s : state) : option state :=
  match os with
  | [] => Some s
  | o :: os => s ← run_op o s; run_ops os s
  end.

Definition is_load (o : op) : bool := match o with Load => true | _ => false end.

Lemma inv_same s s' l :
  heap s' = heap s → log_head s' = log_head s → pool s' = pool s →
  inv s l → inv s' l.
Proof. intros Hh Hl Hp [? ? ? ?]. split; rewrite ?Hh, ?Hl, ?Hp; done. Qed.

Lemma tick_keep_prio (P : Z → Prop) l :
  Forall (λ y, P (e_prio y)) l → Forall (λ y, P (e_prio y)) (tick_keep l).
Proof.
  induction 1 as [|x l Hx Hl IH]; [constructor|].
  rewrite tick_keep_cons. destruct (0 <? e_delay x); [|done].
  by constructor.
Qed.

Lemma tick_keep_sorted l :
  StronglySorted by_prio l → StronglySorted by_prio (tick_keep l).
Proof.
  induction 1 as [|x l Hs IH Hall]; [constructor|].
  rewrite tick_keep_cons. destruct (0 <? e_delay x); [|done].
  constructor; [done|]. by apply (tick_keep_prio (λ p, e_prio x ≤ p)).
Qed.

Lemma tick_blocks l : tick_freed l ++ addrs (tick_keep l) ≡ₚ addrs l.
Proof.
  induction l as [|x l IH]; [done|].
  rewrite tick_keep_cons, tick_freed_cons.
  destruct (0 <? e_delay x); cbn [addrs map app dec_delay e_addr].
  - fold (addrs (tick_keep l)) (addrs l). rewrite <- IH.
    symmetry. apply Permutation_middle.
  - fold (addrs l). by rewrite <- IH.
Qed.

Lemma loaded_addrs e bl : ∀ a, addrs (loaded e a bl) = bl.
Proof.
  induction bl as [|b bl IH]; intros a; [done|].
  cbn [loaded addrs map entry_of e_addr]. f_equal. apply IH.
Qed.

(** Every operation runs to completion on a well-formed state, keeps it well
    formed and neither loses nor duplicates a block; all but LOAD keep a sorted
    list sorted. *)
Lemma run_op_inv o s l :
  inv s l →
  ∃ s' l', run_op o s = Some s' ∧ inv s' l' ∧
           pool s' ++ addrs l' ≡ₚ pool s ++ addrs l ∧
           (is_load o = false →
            StronglySorted by_prio l → StronglySorted by_prio l').
Proof.
  intros Hinv. destruct o as [msg d p| | | |]; cbn [run_op is_load].
  - pose proof (add_log_spec msg d p s l Hinv) as Hadd.
    destruct (pool s) as [|a bl] eqn:Hp.
    + exists s, l. rewrite Hp. done.
    + destruct Hadd as (s' & Hs' & Hinv' & Hp' & _).
      exists s', (ins (new_entry a msg d p) l).
      split; [done|]. split; [done|]. split.
      * rewrite Hp', ins_addrs. cbn [new_entry e_addr].
        symmetry. apply Permutation_middle.
      * intros _. apply ins_sorted.
  - destruct (execute_tasks_spec s l Hinv) as (s' & Hs' & Hinv' & _ & Hp' & _).
    exists s', (tick_keep l). split; [done|]. split; [done|]. split.
    + rewrite Hp', <- (tick_blocks l), <- Permutation_rev.
      rewrite (app_assoc (pool s)). apply Permutation_app_tail, Permutation_app_comm.
    + intros _. apply tick_keep_sorted.
  - rewrite (print_log_spec s l Hinv). eexists _, l. split; [done|].
    split; [by apply (inv_same s)|]. done.
  - rewrite (save_spec s l Hinv). eexists _, l. split; [done|].
    split; [by apply (inv_same s)|]. done.
  - destruct (load_spec s l Hinv) as (Hinv' & Hp' & _).
    eexists _, _. split; [done|]. split; [exact Hinv'|]. split; [|done].
    rewrite Hp'. unfold addrs. rewrite map_app, map_rev.
    fold (addrs (loaded (eeprom s) 0 (take MAX_LOGS (pool s)))) (addrs l).
    rewrite loaded_addrs, <- Permutation_rev.
    rewrite app_assoc. apply Permutation_app_tail.
    rewrite Permutation_app_comm. by rewrite take_drop.
Qed.

Lemma run_ops_inv os : ∀ s l,
  inv s l →
  ∃ s' l', run_ops os s = Some s' ∧ inv s' l' ∧
           pool s' ++ addrs l' ≡ₚ pool s ++ addrs l ∧
           (forallb (λ o, negb (is_load o)) os = true →
            StronglySorted by_prio l → StronglySorted by_prio l').
Proof.
  induction os as [|o os IH]; intros s l Hinv.
  - exists s, l. done.
  - destruct (run_op_inv o s l Hinv) as (s1 & l1 & Hs1 & Hinv1 & Hb1 & Hsort1).
    destruct (IH s1 l1 Hinv1) as (s' & l' & Hs' & Hinv' & Hb' & Hsort').
    exists s', l'. cbn [run_ops]. rewrite Hs1. cbn [mbind option_bind].
    split; [done|]. split; [done|]. split; [by rewrite Hb'|].
    cbn [forallb]. intros [Ho Hos]%andb_true_iff Hs.
    apply Hsort'; [done|]. apply Hsort1; [|done]. by apply negb_true_iff.
Qed.

(** *** Strings that end inside their array *)

(** The [data] array of the entry has its 32 bytes and holds a NUL.  Reading it
    as a string ([%s] in [print_log], [uart_send_str(temp->data)] in
    [execute_tasks]) then ends inside the array, with the characters [c_str]
    gives.  Without a NUL the C code reads on past [data[31]], which [c_str]
    does not show: what follows is about states all of whose entries are
    terminated. *)
Definition terminated (e : entry) : Prop :=
  length (e_data e) = 32%nat ∧ 0 ∈ e_data e.

(** Record slot [i] of the EEPROM, the 37 bytes from address [37 * i] on, has a
    NUL among its first 32 bytes: the node read from it is terminated. *)
Definition slot_clean (e : gmap Z Z) (i : Z) : bool :=
  existsb (λ j, ee_read e (37 * i + j) =? 0) (seqZ 0 32).

(** The [MAX_LOGS] slots [load_logs_from_eeprom] reads are clean. *)
Definition slots_clean (e : gmap Z Z) : bool :=
  forallb (slot_clean e) (seqZ 0 (Z.of_nat MAX_LOGS)).

(** The slots are clean and the cursor stands at the start of a slot, at most
    [n] slots from address 0. *)
Definition stored (n : Z) (s : state) : Prop :=
  slots_clean (eeprom s) = true ∧ ∃ k, ee_address s = 37 * k ∧ 0 ≤ k ≤ n.

Lemma slot_clean_spec e i :
  slot_clean e i = true ↔ ∃ j, 0 ≤ j < 32 ∧ ee_read e (37 * i + j) = 0.
Proof.
  unfold slot_clean. rewrite existsb_exists. split.
  - intros (j & Hj%list_elem_of_In%elem_of_seqZ & E%Z.eqb_eq).
    exists j. split; [lia|done].
  - intros (j & Hj & E). exists j.
    split; [apply list_elem_of_In, elem_of_seqZ; lia|by apply Z.eqb_eq].
Qed.

Lemma slots_clean_spec e :
  slots_clean e = true ↔ ∀ i, 0 ≤ i < 10 → slot_clean e i = true.
Proof.
  unfold slots_clean. rewrite forallb_forall. split.
  - intros H i Hi. apply H, list_elem_of_In, elem_of_seqZ. unfold MAX_LOGS. lia.
  - intros H i Hi%list_elem_of_In%elem_of_seqZ. apply H. unfold MAX_LOGS in Hi. lia.
Qed.

Lemma terminated_new a msg d p : terminated (new_entry a msg d p).
Proof.
  unfold terminated, new_entry. cbn [e_data]. split.
  - unfold strncpy. rewrite length_app, length_take, length_app, length_replicate.
    cbn [length]. unfold MAX_CMD_LEN. lia.
  - apply elem_of_app. right. by apply list_elem_of_singleton.
Qed.

Lemma terminated_ins e l :
  terminated e → Forall terminated l → Forall terminated (ins e l).
Proof.
  intros He. induction 1 as [|x l Hx Hl IH]; cbn [ins].
  - constructor; [done|constructor].
  - destruct (e_prio x <=? e_prio e).
    + by constructor.
    + constructor; [done|]. by constructor.
Qed.

Lemma terminated_tick l : Forall terminated l → Forall terminated (tick_keep l).
Proof.
  induction 1 as [|x l Hx Hl IH]; [constructor|].
  rewrite tick_keep_cons. destruct (0 <? e_delay x); [|done].
  by constructor.
Qed.

(** The records of terminated entries lie where [records] says: nothing outside
    their range changes, and the NUL of each entry arrives in its slot. *)
Lemma records_outside l : ∀ a e x,
  0 ≤ a → a + 37 * Z.of_nat (length l) < 65536 → Forall terminated l →
  x < a ∨ a + 37 * Z.of_nat (length l) ≤ x →
  ee_apply e (records a l) !! x = e !! x.
Proof.
  induction l as [|y l IH]; intros a e x Ha Hlen Hok Hx; [done|].
  apply Forall_cons in Hok as [(Hy & _) Hok]. cbn [length] in Hlen, Hx.
  cbn [records ee_apply foldl fst snd]. change (foldl _ ?e0 ?ws) with (ee_apply e0 ws).
  unfold sizeof_TaskNode, MAX_CMD_LEN. rewrite uint16_id by lia.
  rewrite IH by (try done; lia).
  rewrite ee_write_lookup; [|lia|].
  - rewrite length_struct_bytes. cbn [node_of data]. rewrite Hy.
    case_decide; [lia|done].
  - rewrite length_struct_bytes. cbn [node_of data]. lia.
Qed.

Lemma records_slot l : ∀ a e m y j,
  0 ≤ a → a + 37 * Z.of_nat (length l) < 65536 → Forall terminated l →
  l !! m = Some y → e_data y !! j = Some 0 →
  ee_apply e (records a l) !! (a + 37 * Z.of_nat m + Z.of_nat j) = Some 0.
Proof.
  induction l as [|z l IH]; intros a e m y j Ha Hlen Hok Hm Hj; [done|].
  pose proof Hok as [(Hz & _) Hok']%Forall_cons. cbn [length] in Hlen.
  cbn [records ee_apply foldl fst snd]. change (foldl _ ?e0 ?ws) with (ee_apply e0 ws).
  unfold sizeof_TaskNode, MAX_CMD_LEN. rewrite uint16_id by lia.
  destruct m as [|m].
  - injection Hm as ->.
    pose proof (lookup_lt_Some _ _ _ Hj) as Hlt. rewrite Hz in Hlt.
    rewrite records_outside by (try done; lia).
    rewrite ee_write_lookup;
      [|lia|rewrite length_struct_bytes; cbn [node_of data]; lia].
    rewrite length_struct_bytes. cbn [node_of data]. rewrite Hz.
    case_decide; [|lia].
    replace (Z.to_nat (a + 37 * Z.of_nat 0 + Z.of_nat j - a)) with j by lia.
    unfold struct_bytes. cbn [node_of data]. by rewrite lookup_app_l by lia.
  - replace (a + 37 * Z.of_nat (S m) + Z.of_nat j)
      with ((a + (32 + 2 + 1 + 2)) + 37 * Z.of_nat m + Z.of_nat j) by lia.
    apply (IH _ _ m y j); try done; lia.
Qed.

(** A node read from a clean slot is terminated. *)
Lemma loaded_terminated e bl : ∀ k,
  slots_clean e = true → 0 ≤ k → k + Z.of_nat (length bl) ≤ 10 →
  Forall terminated (loaded e (37 * k) bl).
Proof.
  induction bl as [|b bl IH]; intros k Hclean Hk Hlen; [constructor|].
  cbn [length] in Hlen. cbn [loaded]. constructor.
  - unfold terminated, eeprom_read_block, sizeof_TaskNode, MAX_CMD_LEN.
    cbn [entry_of e_data struct_of_bytes data]. rewrite map_fmap. split.
    + rewrite length_take, length_fmap, length_seqZ. reflexivity.
    + pose proof (proj1 (slots_clean_spec e) Hclean k) as Hs.
      apply slot_clean_spec in Hs as (j & Hj & E); [|lia].
      apply list_elem_of_lookup. exists (Z.to_nat j).
      rewrite lookup_take_lt by lia. rewrite list_lookup_fmap.
      rewrite lookup_seqZ_lt by lia. cbn [fmap option_fmap option_map].
      rewrite uint16_id by lia. f_equal. rewrite <- E. f_equal. lia.
  - unfold sizeof_TaskNode, MAX_CMD_LEN. rewrite uint16_id by lia.
    replace (37 * k + (32 + 2 + 1 + 2)) with (37 * (k + 1)) by lia.
    apply IH; [done|lia|lia].
Qed.

Lemma stored_mono n n' s s' :
  stored n s → eeprom s' = eeprom s → ee_address s' = ee_address s → n ≤ n' →
  stored n' s'.
Proof.
  intros (Hc & k & Hk & Hkn) He Ha Hn. split; [by rewrite He|].
  exists k. rewrite Ha. split; [done|lia].
Qed.

(** SAVE writes whole records into whole slots: clean slots stay clean. *)
Lemma save_stored s l n (B : nat) :
  inv s l → Forall terminated l → (length l ≤ B)%nat → stored n s →
  37 * (n + Z.of_nat B) < 65536 →
  ∃ s', save_logs_to_eeprom s = Some s' ∧ inv s' l ∧ pool s' = pool s ∧
        stored (n + Z.of_nat B) s'.
Proof.
  intros Hinv Ht Hlen (Hclean & k & Hk & Hkn) Hb.
  rewrite (save_spec s l Hinv). eexists. split; [done|].
  split; [by apply (inv_same s)|]. split; [done|].
  unfold stored. proj. rewrite Hk. split.
  - apply slots_clean_spec. intros i Hi. apply slot_clean_spec.
    pose proof (proj1 (slots_clean_spec _) Hclean i Hi) as Hs.
    apply slot_clean_spec in Hs as (j & Hj & E).
    destruct (decide (k ≤ i < k + Z.of_nat (length l))) as [Hin|Hout].
    + destruct (lookup_lt_is_Some_2 l (Z.to_nat (i - k))) as [y Hy]; [lia|].
      pose proof (Forall_lookup_1 _ _ _ _ Ht Hy) as (Hyl & Hy0).
      apply list_elem_of_lookup in Hy0 as [j' Hj'].
      pose proof (lookup_lt_Some _ _ _ Hj') as Hlt. rewrite Hyl in Hlt.
      exists (Z.of_nat j'). split; [lia|]. unfold ee_read.
      replace (37 * i + Z.of_nat j')
        with (37 * k + 37 * Z.of_nat (Z.to_nat (i - k)) + Z.of_nat j') by lia.
      by rewrite (records_slot l _ _ _ y j') by (try done; lia).
    + exists j. split; [done|]. unfold ee_read in *.
      by rewrite records_outside by (try done; lia).
  - exists (k + Z.of_nat (length l)).
    split; [rewrite advance_small by lia; lia|lia].
Qed.

(** LOAD from clean slots builds terminated nodes and leaves the cursor at the
    start of a slot. *)
Lemma load_stored s l n :
  inv s l → Forall terminated l → slots_clean (eeprom s) = true → 10 ≤ n →
  Forall terminated (rev (loaded (eeprom s) 0 (take MAX_LOGS (pool s))) ++ l) ∧
  stored n (load_logs_from_eeprom s).
Proof.
  intros Hinv Ht Hclean Hn.
  destruct (load_spec s l Hinv) as (_ & _ & Ha & He & _).
  assert (Hlen : (length (take MAX_LOGS (pool s)) ≤ 10)%nat).
  { rewrite length_take. unfold MAX_LOGS. lia. }
  split.
  - apply Forall_app. split; [|done]. apply Forall_rev.
    apply (loaded_terminated _ _ 0); [done|lia|lia].
  - split; [by rewrite He|].
    exists (Z.of_nat (length (take MAX_LOGS (pool s)))). rewrite Ha.
    split; [rewrite advance_small by lia; lia|lia].
Qed.

(** Every operation on a state whose entries are terminated, LOAD only from
    clean slots. *)
Lemma run_op_safe (blocks : list Z) o s l n :
  inv s l → Forall terminated l → pool s ++ addrs l ≡ₚ blocks →
  (is_load o = true → slots_clean (eeprom s) = true) →
  ∃ s' l',
    run_op o s = Some s' ∧ inv s' l' ∧ Forall terminated l' ∧
    pool s' ++ addrs l' ≡ₚ blocks ∧
    (10 ≤ n → stored n s → 37 * (n + Z.of_nat (length blocks)) < 65536 →
     stored (n + Z.of_nat (length blocks)) s').
Proof.
  intros Hinv Ht Hb Hload.
  assert (Hlen : (length l ≤ length blocks)%nat).
  { apply Permutation_length in Hb. rewrite length_app in Hb.
    unfold addrs in Hb. rewrite length_map in Hb. lia. }
  destruct o as [msg d p| | | |]; cbn [run_op is_load] in *.
  - pose proof (add_log_spec msg d p s l Hinv) as Hadd.
    destruct (pool s) as [|a bl] eqn:Hp.
    + exists s, l. rewrite Hp. do 4 (split; [done|]).
      intros _ Hst _. apply (stored_mono n _ s); [done|done|done|lia].
    + destruct Hadd as (s' & Hs' & Hinv' & Hp' & _ & Ha' & He' & _).
      exists s', (ins (new_entry a msg d p) l).
      split; [done|]. split; [done|].
      split; [apply terminated_ins; [apply terminated_new|done]|]. split.
      * rewrite <- Hb, Hp', ins_addrs. cbn [new_entry e_addr].
        symmetry. apply Permutation_middle.
      * intros _ Hst _. apply (stored_mono n _ s); [done|done|done|lia].
  - destruct (execute_tasks_spec s l Hinv)
      as (s' & Hs' & Hinv' & _ & Hp' & Ha' & He' & _).
    exists s', (tick_keep l). split; [done|]. split; [done|].
    split; [by apply terminated_tick|]. split.
    + rewrite <- Hb, Hp', <- (tick_blocks l), <- Permutation_rev.
      rewrite (app_assoc (pool s)). apply Permutation_app_tail, Permutation_app_comm.
    + intros _ Hst _. apply (stored_mono n _ s); [done|done|done|lia].
  - rewrite (print_log_spec s l Hinv). eexists _, l. split; [done|].
    split; [by apply (inv_same s)|]. do 2 (split; [done|]).
    intros _ Hst _. apply (stored_mono n _ s); [done|done|done|lia].
  - rewrite (save_spec s l Hinv). eexists _, l. split; [done|].
    split; [by apply (inv_same s)|]. do 2 (split; [done|]).
    intros Hn Hst Hbound.
    destruct (save_stored s l n (length blocks) Hinv Ht Hlen Hst Hbound)
      as (s' & Hs' & _ & _ & Hst').
    rewrite (save_spec s l Hinv) in Hs'. by injection Hs' as <-.
  - specialize (Hload eq_refl).
    destruct (load_spec s l Hinv) as (Hinv' & Hp' & _).
    eexists _, _. split; [done|]. split; [exact Hinv'|].
    split; [by apply (load_stored s l 10)|]. split.
    + rewrite <- Hb, Hp'. unfold addrs. rewrite map_app, map_rev.
      fold (addrs (loaded (eeprom s) 0 (take MAX_LOGS (pool s)))) (addrs l).
      rewrite loaded_addrs, <- Permutation_rev.
      rewrite app_assoc. apply Permutation_app_tail.
      rewrite Permutation_app_comm. by rewrite take_drop.
    + intros Hn _ _. apply (load_stored s l); [done|done|done|lia].
Qed.

Lemma run_ops_safe (blocks : list Z) os : ∀ s l n,
  inv s l → Forall terminated l → pool s ++ addrs l ≡ₚ blocks →
  (existsb is_load os = true →
   10 ≤ n ∧ stored n s ∧
   37 * (n + Z.of_nat (length blocks) * Z.of_nat (length os)) < 65536) →
  ∃ s' l',
    run_ops os s = Some s' ∧ inv s' l' ∧ Forall terminated l' ∧
    pool s' ++ addrs l' ≡ₚ blocks.
Proof.
  induction os as [|o os IH]; intros s l n Hinv Ht Hb Hmode.
  - exists s, l. done.
  - cbn [existsb length] in Hmode.
    destruct (run_op_safe blocks o s l n Hinv Ht Hb)
      as (s1 & l1 & Hs1 & Hinv1 & Ht1 & Hb1 & Hst1).
    { intros Ho. rewrite Ho in Hmode. by destruct Hmode as (_ & [? _] & _). }
    destruct (IH s1 l1 (n + Z.of_nat (length blocks)) Hinv1 Ht1 Hb1)
      as (s' & l' & Hs' & Hinv' & Ht' & Hb').
    { intros Hos. rewrite Hos, orb_true_r in Hmode.
      destruct Hmode as (Hn & Hst & Hbound); [done|].
      split; [lia|]. split; [apply Hst1; [done|done|nia]|nia]. }
    exists s', l'. cbn [run_ops]. rewrite Hs1. done.
Qed.

(** X7. Memory safety of the list code.  From the reset state, a series of
    [add_log], [execute_tasks], [print_log], [save_logs_to_eeprom] and
    [load_logs_from_eeprom] runs to completion, and so does every part of it
    from the start: no [NULL] or freed pointer is dereferenced, every list walk
    ends, and every node's [data] holds a NUL, so that no string read leaves its
    array.  [log_head] starts a [NULL]-terminated list of distinct nodes, and
    every block of the allocator is either free or in the list, exactly once:
    nothing leaks, nothing is freed twice.

    A series with a LOAD needs an EEPROM whose ten record slots each hold a
    NUL among their 32 data bytes (as ten saved records do), and few enough
    operations for the 16-bit cursor not to wrap around.  Without that a loaded
    node may lack the NUL, and [print_log] and [execute_tasks] read past
    [data[31]]: such runs are outside the theorem. *)
Theorem list_memory_safe (blocks : list Z) (e0 : gmap Z Z) (os pre : list op) :
  NoDup blocks → NULL ∉ blocks →
  (existsb is_load os = true →
   slots_clean e0 = true ∧
   37 * (10 + Z.of_nat (length blocks) * Z.of_nat (length os)) < 65536) →
  pre `prefix_of` os →
  ∃ s l, run_ops pre (boot blocks e0) = Some s ∧ inv s l ∧
         Forall terminated l ∧ queue_of s = map fields l ∧
         pool s ++ addrs l ≡ₚ blocks ∧ NoDup (pool s ++ addrs l).
Proof.
  intros Hnd Hnull Hmode [suf ->].
  destruct (run_ops_safe blocks pre (boot blocks e0) [] 10)
    as (s & l & Hs & Hinv & Ht & Hb).
  - by apply inv_boot.
  - constructor.
  - cbn [boot pool addrs map]. by rewrite app_nil_r.
  - intros Hpre. destruct Hmode as (Hclean & Hbound).
    { by rewrite existsb_app, Hpre. }
    split; [lia|]. split.
    + split; [done|]. exists 0. cbn [boot ee_address]. lia.
    + rewrite length_app in Hbound. nia.
  - exists s, l. split; [done|]. split; [done|]. split; [done|].
    split; [by apply queue_of_inv|]. split; [done|]. by rewrite Hb.
Qed.

(** An EEPROM whose first ten slots were written with zeros. *)
Definition zeroed : gmap Z Z := ee_write ∅ 0 (replicate 370 0).

Definition sample_ops : list op :=
  [Add (bytes_of_string "one") 30 7; Add (bytes_of_string "two") 0 2; List; Tick;
   Save; Add (bytes_of_string "three") 10 2; Load; Tick; Tick; List].

Lemma list_memory_safe_witness :
  ∃ s l, run_ops sample_ops (boot LoggerProofs.blocks4 zeroed) = Some s ∧ inv s l ∧
         Forall terminated l ∧ queue_of s = map fields l ∧
         pool s ++ addrs l ≡ₚ LoggerProofs.blocks4 ∧ NoDup (pool s ++ addrs l).
Proof.
  apply (list_memory_safe LoggerProofs.blocks4 zeroed sample_ops sample_ops).
  - apply LoggerProofs.blocks4_ok.
  - apply LoggerProofs.blocks4_ok.
  - intros _. split; [by vm_compute|]. vm_compute. reflexivity.
  - reflexivity.
Defined.

(** On a chip whose EEPROM is erased, LOAD builds nodes of [0xFF] bytes: the
    slots are not clean and the loaded nodes are not terminated. *)
Example erased_not_clean :
  slots_clean ∅ = false ∧
  (λ s, map (λ t, existsb (Z.eqb 0) t.1.1) (queue_of s))
    <$> run_ops [Load] (boot LoggerProofs.blocks4 ∅)
  = Some [false; false; false; false].
Proof. by vm_compute. Qed.

Lemma filter_Forall {A} (P : A → Prop) `{!∀ x, Decision (P x)} (Q : A → Prop) l :
  Forall Q l → Forall Q (filter P l).
Proof.
  induction 1 as [|x l Hx Hl IH]; [constructor|].
  rewrite filter_cons. case_decide; [by constructor|done].
Qed.

Lemma filter_sorted {A} (R : relation A) (P : A → Prop) `{!∀ x, Decision (P x)} l :
  StronglySorted R l → StronglySorted R (filter P l).
Proof.
  induction 1 as [|x l Hs IH Hall]; [constructor|].
  rewrite filter_cons. case_decide; [|done].
  constructor; [done|]. by apply filter_Forall.
Qed.

(** X8. Without LOAD the list stays sorted: after any series of [add_log],
    [execute_tasks], [print_log] and [save_logs_to_eeprom] from the reset state
    the priorities are non-decreasing front to back (removing due entries never
    reorders the others), and the tasks that the next [execute_tasks] finds due
    are reported in that order, smallest priority value first. *)
Theorem list_stays_sorted (blocks : list Z) (e0 : gmap Z Z) (os : list op) :
  NoDup blocks → NULL ∉ blocks →
  forallb (λ o, negb (is_load o)) os = true →
  ∃ s l s',
    run_ops os (boot blocks e0) = Some s ∧ inv s l ∧
    Sorted Z.le (map e_prio l) ∧
    execute_tasks s = Some s' ∧
    tx s' = tx s ++ flat_map (λ e, task_msg (e_data e))
                             (filter (λ e, due e = true) l) ∧
    Sorted Z.le (map e_prio (filter (λ e, due e = true) l)).
Proof.
  intros Hnd Hnull Hos.
  destruct (run_ops_inv os _ _ (inv_boot blocks e0 Hnd Hnull))
    as (s & l & Hs & Hinv & _ & Hsorted).
  specialize (Hsorted Hos (SSorted_nil _)).
  destruct (execute_tasks_spec s l Hinv) as (s' & Hs' & _ & Htx & _).
  exists s, l, s'. split; [done|]. split; [done|].
  split; [by apply sorted_prios|]. split; [done|]. split; [done|].
  by apply sorted_prios, filter_sorted.
Qed.

Definition sample_ops_no_load : list op :=
  [Add (bytes_of_string "one") 30 7; Add (bytes_of_string "two") 0 2; List; Tick;
   Save; Add (bytes_of_string "three") 10 2; Add (bytes_of_string "four") 0 7; Tick].

Lemma list_stays_sorted_witness :
  ∃ s l s',
    run_ops sample_ops_no_load (boot LoggerProofs.blocks4 ∅) = Some s ∧ inv s l ∧
    Sorted Z.le (map e_prio l) ∧
    execute_tasks s = Some s' ∧
    tx s' = tx s ++ flat_map (λ e, task_msg (e_data e))
                             (filter (λ e, due e = true) l) ∧
    Sorted Z.le (map e_prio (filter (λ e, due e = true) l)).
Proof.
  apply (list_stays_sorted LoggerProofs.blocks4 ∅ sample_ops_no_load);
    [apply LoggerProofs.blocks4_ok|apply LoggerProofs.blocks4_ok|reflexivity].
Defined.

(** *** What [add_log] stores *)

Lemma c_str_nonzero l : Forall (λ c, c ≠ 0) (c_str l).
Proof.
  induction l as [|c l IH]; cbn [c_str]; [constructor|].
  destruct (c =? 0) eqn:E; [constructor|]. constructor; [|done].
  by apply Z.eqb_neq.
Qed.

Lemma c_str_app_nul w x : Forall (λ c, c ≠ 0) w → c_str (w ++ 0 :: x) = w.
Proof.
  induction 1 as [|c w Hc Hw IH]; [done|].
  cbn [app c_str]. apply Z.eqb_neq in Hc. by rewrite Hc, IH.
Qed.

Lemma replicate_snoc_0 k : replicate k 0 ++ [0] = 0 :: replicate k 0.
Proof. induction k as [|k IH]; [done|]. simpl. by rewrite IH. Qed.

Lemma strncpy_c_str msg n : c_str (strncpy msg n ++ [0]) = take n (c_str msg).
Proof.
  unfold strncpy. rewrite take_app, take_replicate, <- app_assoc.
  rewrite replicate_snoc_0. apply c_str_app_nul.
  apply Forall_take, c_str_nonzero.
Qed.

Lemma length_strncpy msg n : length (strncpy msg n) = n.
Proof.
  unfold strncpy. rewrite length_take, length_app, length_replicate. lia.
Qed.

Lemma c_str_bytes l :
  Forall (λ c, 0 ≤ c < 256) l → Forall (λ c, 0 ≤ c < 256) (c_str l).
Proof.
  induction 1 as [|c l Hc Hl IH]; cbn [c_str]; [constructor|].
  destruct (c =? 0); by constructor.
Qed.

(** X9. What a successful [add_log] stores: a 32-byte buffer that ends with a
    NUL and holds the message cut to its first 31 characters (shorter messages
    whole), a delay of at most 6553 ticks and a priority below 256; when the
    message consists of bytes, every field fits its C type. *)
Theorem add_log_stores (msg : list Z) (d p : Z) (s : state) (l : list entry)
    (a : Z) (bl : list Z) :
  inv s l → pool s = a :: bl →
  ∃ s' e,
    add_log msg d p s = Some s' ∧ inv s' (ins e l) ∧ e_addr e = a ∧
    length (e_data e) = 32%nat ∧ e_data e !! 31%nat = Some 0 ∧
    c_str (e_data e) = take 31 (c_str msg) ∧
    0 ≤ e_delay e ≤ 6553 ∧ 0 ≤ e_prio e < 256 ∧
    (Forall (λ c, 0 ≤ c < 256) msg →
     entry_ok e ∧ Forall (λ c, 0 ≤ c < 256) (e_data e)).
Proof.
  intros Hinv Hpool.
  pose proof (add_log_spec msg d p s l Hinv) as Hadd. rewrite Hpool in Hadd.
  destruct Hadd as (s' & Hs' & Hinv' & _).
  exists s', (new_entry a msg d p). split; [done|]. split; [done|].
  split; [done|]. cbn [new_entry e_data e_delay e_prio].
  change (Z.to_nat (MAX_CMD_LEN - 1)) with 31%nat.
  assert (Hlen : length (strncpy msg 31 ++ [0]) = 32%nat).
  { rewrite length_app, length_strncpy. done. }
  assert (Hd : 0 ≤ uint16 d / TICK_MS ≤ 6553) by (unfold uint16, TICK_MS; zmod).
  assert (Hp : 0 ≤ uint8 p < 256) by (unfold uint8; zmod).
  split; [done|]. split.
  { rewrite lookup_app_r by (rewrite length_strncpy; lia).
    by rewrite length_strncpy. }
  split; [apply strncpy_c_str|]. split; [done|]. split; [done|].
  intros Hmsg. split.
  { unfold entry_ok. cbn [new_entry e_data e_delay e_prio].
    split; [done|]. split; [lia|done]. }
  apply Forall_app. split; [|by repeat constructor].
  unfold strncpy. apply Forall_take, Forall_app. split.
  - by apply c_str_bytes.
  - apply Forall_replicate. lia.
Qed.

Lemma add_log_stores_witness :
  ∃ s' e,
    add_log (bytes_of_string "a message of more than thirty-one characters") 1234 300
      (boot LoggerProofs.blocks4 ∅) = Some s' ∧
    inv s' (ins e []) ∧ e_addr e = 100 ∧
    length (e_data e) = 32%nat ∧ e_data e !! 31%nat = Some 0 ∧
    c_str (e_data e)
    = take 31 (c_str (bytes_of_string "a message of more than thirty-one characters")) ∧
    0 ≤ e_delay e ≤ 6553 ∧ 0 ≤ e_prio e < 256 ∧
    (Forall (λ c, 0 ≤ c < 256)
       (bytes_of_string "a message of more than thirty-one characters") →
     entry_ok e ∧ Forall (λ c, 0 ≤ c < 256) (e_data e)).
Proof.
  apply (add_log_stores _ 1234 300 (boot LoggerProofs.blocks4 ∅) [] 100 [200; 300; 400]).
  - apply inv_boot; apply LoggerProofs.blocks4_ok.
  - reflexivity.
Defined.

(** *** Persistence *)

Lemma records_frame l : ∀ a e x,
  0 ≤ a → a + 37 * Z.of_nat (length l) < 65536 → Forall entry_ok l →
  x < a ∨ a + 37 * Z.of_nat (length l) ≤ x →
  ee_apply e (records a l) !! x = e !! x.
Proof.
  induction l as [|y l IH]; intros a e x Ha Hlen Hok Hx; [done|].
  apply Forall_cons in Hok as [(Hy & _) Hok]. cbn [length] in Hlen, Hx.
  cbn [records ee_apply foldl fst snd]. change (foldl _ ?e0 ?ws) with (ee_apply e0 ws).
  unfold sizeof_TaskNode, MAX_CMD_LEN. rewrite uint16_id by lia.
  rewrite IH by (try done; lia).
  rewrite ee_write_lookup; [|lia|].
  - rewrite length_struct_bytes. cbn [node_of data]. rewrite Hy.
    case_decide; [lia|done].
  - rewrite length_struct_bytes. cbn [node_of data]. lia.
Qed.

(** X10. [save_logs_to_eeprom] on a list of well-typed entries that fits below
    the end of the address space: the list, the allocator and every EEPROM cell
    outside the [37 * n] bytes from the cursor on are left as they were; the
    cursor ends [37 * n] further and the confirmation line is sent. *)
Theorem save_frame (s : state) (l : list entry) :
  inv s l → Forall entry_ok l →
  0 ≤ ee_address s → ee_address s + 37 * Z.of_nat (length l) < 65536 →
  ∃ s',
    save_logs_to_eeprom s = Some s' ∧
    heap s' = heap s ∧ log_head s' = log_head s ∧ pool s' = pool s ∧
    queue_of s' = queue_of s ∧
    ee_address s' = ee_address s + 37 * Z.of_nat (length l) ∧
    (∀ x, x < ee_address s ∨ ee_address s + 37 * Z.of_nat (length l) ≤ x →
          eeprom s' !! x = eeprom s !! x) ∧
    tx s' = tx s ++ bytes_of_string "Logs saved to EEPROM." ++ [10].
Proof.
  intros Hinv Hok Ha Hlen. rewrite (save_spec s l Hinv). eexists. split; [done|].
  proj. do 4 (split; [done|]).
  split; [by apply advance_small|]. split; [|done].
  intros x Hx. by apply records_frame.
Qed.

Lemma save_frame_witness :
  ∃ s',
    save_logs_to_eeprom LoggerProofs.state_A = Some s' ∧
    heap s' = heap LoggerProofs.state_A ∧
    log_head s' = log_head LoggerProofs.state_A ∧
    pool s' = pool LoggerProofs.state_A ∧
    queue_of s' = queue_of LoggerProofs.state_A ∧
    ee_address s' = ee_address LoggerProofs.state_A
                    + 37 * Z.of_nat (length [LoggerProofs.task_A]) ∧
    (∀ x, x < ee_address LoggerProofs.state_A
          ∨ ee_address LoggerProofs.state_A
            + 37 * Z.of_nat (length [LoggerProofs.task_A]) ≤ x →
          eeprom s' !! x = eeprom LoggerProofs.state_A !! x) ∧
    tx s' = tx LoggerProofs.state_A ++ bytes_of_string "Logs saved to EEPROM." ++ [10].
Proof.
  apply (save_frame LoggerProofs.state_A [LoggerProofs.task_A]).
  - apply LoggerProofs.state_A_inv.
  - repeat constructor; simpl; lia.
  - simpl. lia.
  - simpl. lia.
Defined.

Lemma loaded_app e b1 : ∀ a b2,
  loaded e a (b1 ++ b2) = loaded e a b1 ++ loaded e (advance a (length b1)) b2.
Proof.
  induction b1 as [|b b1 IH]; intros a b2; [done|].
  cbn [app loaded length advance]. by rewrite IH.
Qed.

(** The payload fields of the node read from record slot [i] of the EEPROM [e]. *)
Definition record_at (e : gmap Z Z) (i : Z) : list Z * Z * Z :=
  fields (entry_of NULL
            (struct_of_bytes (eeprom_read_block e (37 * i) sizeof_TaskNode))).

Lemma loaded_fields e bl : ∀ k,
  0 ≤ k → 37 * (k + Z.of_nat (length bl)) < 65536 →
  map fields (loaded e (37 * k) bl) = map (record_at e) (seqZ k (Z.of_nat (length bl))).
Proof.
  induction bl as [|b bl IH]; intros k Hk Hlen; [done|].
  cbn [length] in Hlen. rewrite seqZ_cons by (cbn [length]; lia).
  cbn [loaded map]. f_equal.
  unfold sizeof_TaskNode, MAX_CMD_LEN. rewrite uint16_id by lia.
  replace (37 * k + (32 + 2 + 1 + 2)) with (37 * Z.succ k) by lia.
  replace (Z.pred (Z.of_nat (length (b :: bl)))) with (Z.of_nat (length bl))
    by (cbn [length]; lia).
  apply IH; lia.
Qed.

Lemma record_at_ext e e' i :
  0 ≤ i → 37 * i + 37 < 65536 →
  (∀ x, 37 * i ≤ x < 37 * i + 37 → e !! x = e' !! x) →
  record_at e i = record_at e' i.
Proof.
  intros Hi Hb Hx. unfold record_at, eeprom_read_block. do 3 f_equal.
  apply map_ext_in. intros j Hj%list_elem_of_In%elem_of_seqZ.
  unfold sizeof_TaskNode, MAX_CMD_LEN in Hj. unfold ee_read.
  rewrite uint16_id by lia. rewrite Hx by lia. done.
Qed.

(** X11. Saving and loading with fewer than [MAX_LOGS] entries.  A list [l] of
    [n <= MAX_LOGS] well-typed entries is saved with the cursor at 0.  A later
    LOAD with [MAX_LOGS] free blocks, on any list, reads [MAX_LOGS] records all
    the same: the entries of [l] come back in reverse order, directly in front of
    the entries that were already in memory; and in front of them stand
    [MAX_LOGS - n] further entries, read from the slots [n], ..., [MAX_LOGS - 1]
    behind the saved records, which hold what the EEPROM held there before the
    save (the last slot first). *)
Theorem save_load_prefix (s : state) (l : list entry) (s2 : state) (l2 : list entry) :
  inv s l → ee_address s = 0 → Forall entry_ok l → (length l ≤ MAX_LOGS)%nat →
  inv s2 l2 → (MAX_LOGS ≤ length (pool s2))%nat →
  ∃ s1,
    save_logs_to_eeprom s = Some s1 ∧
    (eeprom s2 = eeprom s1 →
     queue_of (load_logs_from_eeprom s2)
     = rev (map (record_at (eeprom s))
                (seqZ (Z.of_nat (length l)) (Z.of_nat (MAX_LOGS - length l))))
       ++ rev (map fields l) ++ queue_of s2).
Proof.
  intros Hinv Hz Hok Hlen Hinv2 Hpool.
  rewrite (save_spec s l Hinv). eexists. split; [done|]. proj. intros He.
  destruct (load_spec s2 l2 Hinv2) as (Hinv' & _).
  rewrite (queue_of_inv _ _ Hinv'), (queue_of_inv _ _ Hinv2).
  rewrite He, Hz.
  set (bl := take MAX_LOGS (pool s2)).
  assert (Hbl : length bl = MAX_LOGS) by (unfold bl; rewrite length_take; lia).
  unfold MAX_LOGS in Hlen, Hbl.
  rewrite <- (take_drop (length l) bl), loaded_app.
  rewrite map_app, map_rev, map_app, rev_app_distr, <- app_assoc.
  rewrite length_take, Nat.min_l by lia.
  rewrite advance_small by lia.
  f_equal; [|f_equal].
  - f_equal. replace (0 + 37 * Z.of_nat (length l)) with (37 * Z.of_nat (length l)) by lia.
    rewrite loaded_fields by (rewrite ?length_drop; lia).
    rewrite length_drop, Hbl. unfold MAX_LOGS.
    apply map_ext_in. intros i Hi%list_elem_of_In%elem_of_seqZ.
    apply record_at_ext; [lia|lia|].
    intros x Hx. apply records_frame; [done|lia|done|lia].
  - f_equal. apply loaded_records; try done.
    + lia.
    + rewrite length_take. lia.
Qed.

(** A board with ten free blocks after a reset, its EEPROM as [SAVE] on
    [state_A] left it. *)
Definition rebooted : state :=
  set_eeprom (eeprom (default LoggerProofs.state_A
                        (save_logs_to_eeprom LoggerProofs.state_A))) []
    (boot LoggerProofs.blocks10 ∅).

Lemma save_load_prefix_witness :
  ∃ s1,
    save_logs_to_eeprom LoggerProofs.state_A = Some s1 ∧
    (eeprom rebooted = eeprom s1 →
     queue_of (load_logs_from_eeprom rebooted)
     = rev (map (record_at (eeprom LoggerProofs.state_A))
                (seqZ (Z.of_nat (length [LoggerProofs.task_A]))
                      (Z.of_nat (MAX_LOGS - length [LoggerProofs.task_A]))))
       ++ rev (map fields [LoggerProofs.task_A]) ++ queue_of rebooted).
Proof.
  apply (save_load_prefix LoggerProofs.state_A [LoggerProofs.task_A] rebooted []).
  - apply LoggerProofs.state_A_inv.
  - reflexivity.
  - repeat constructor; simpl; lia.
  - simpl. unfold MAX_LOGS. lia.
  - apply (inv_same (boot LoggerProofs.blocks10 ∅)); try done.
    apply inv_boot.
    + apply NoDup_ListNoDup. unfold LoggerProofs.blocks10. simpl.
      repeat constructor; simpl; intuition lia.
    + intros H. unfold LoggerProofs.blocks10 in H. simpl in H.
      repeat (apply elem_of_cons in H as [H|H]; [done|]). by apply elem_of_nil in H.
  - simpl. unfold MAX_LOGS. lia.
Defined.

(** One task saved after a reset, then reset and LOAD on the erased remainder of
    the EEPROM: nine entries of 0xFF bytes, then the task. *)
Example save_one_load_ten :
  (λ s, map (λ t, (t.1.2, t.2)) (queue_of (load_logs_from_eeprom
          (boot LoggerProofs.blocks10 (eeprom s)))))
    <$> save_logs_to_eeprom LoggerProofs.state_A
  = Some (replicate 9 (65535, 255) ++ [(2, 3)]).
Proof. by vm_compute. Qed.

Lemma digits_nonzero d :
  Forall (λ c, c ≠ 0) (bytes_of_string (NilEmpty.string_of_uint d)).
Proof. induction d; cbn; try constructor; done. Qed.

Lemma dec_nonzero n : Forall (λ c, c ≠ 0) (dec n).
Proof.
  unfold dec, NilZero.string_of_uint.
  destruct (N.to_uint (Z.to_N n)); try apply digits_nonzero.
  by repeat constructor.
Qed.

Lemma c_str_id l : Forall (λ c, c ≠ 0) l → c_str l = l.
Proof.
  induction 1 as [|c l Hc Hl IH]; [done|]. cbn [c_str].
  apply Z.eqb_neq in Hc. by rewrite Hc, IH.
Qed.

(** The line [snprintf] leaves in [buf] for the entry [e] as number [k], written
    out: the count, the priority in brackets, the string in [data], a newline;
    49 characters at most. *)
Definition line_text (k : Z) (e : entry) : list Z :=
  take 49 (dec k ++ bytes_of_string ": [" ++ dec (e_prio e) ++ bytes_of_string "] "
           ++ c_str (e_data e) ++ [10]).

Lemma lines_text l : ∀ c,
  lines c l = concat (zip_with line_text (seqZ c (Z.of_nat (length l))) l).
Proof.
  induction l as [|e l IH]; intros c; [done|].
  rewrite seqZ_cons by (cbn [length]; lia).
  replace (Z.pred (Z.of_nat (length (e :: l)))) with (Z.of_nat (length l))
    by (cbn [length]; lia).
  cbn [lines zip_with concat]. rewrite IH. f_equal.
  unfold log_line, line_text. cbn [node_of priority data].
  apply c_str_id, Forall_take.
  repeat (apply Forall_app; split);
    try apply dec_nonzero; try apply c_str_nonzero; by repeat constructor.
Qed.

(** The string in a terminated array: the bytes before its first NUL, which
    stands inside the array. *)
Lemma c_str_take l :
  0 ∈ l → ∃ k, l !! k = Some 0 ∧ c_str l = take k l.
Proof.
  induction l as [|c l IH]; intros H0; [by apply elem_of_nil in H0|].
  cbn [c_str]. destruct (c =? 0) eqn:E.
  - apply Z.eqb_eq in E. subst c. by exists 0%nat.
  - apply Z.eqb_neq in E. apply elem_of_cons in H0 as [H0|H0]; [done|].
    destruct (IH H0) as (k & Hk & Hc). exists (S k). split; [done|].
    cbn [take]. by rewrite Hc.
Qed.

(** X12. [print_log] on a list whose entries are terminated only sends: the
    list, the allocator, the cursor and the EEPROM are as before; what is sent
    is one line per entry, front to back, numbered from 1, each made of the
    count, the priority in brackets, the string in [data] and a newline, cut to
    49 characters; the string of each entry ends at a NUL inside its [data]; an
    empty list prints nothing; and a second call prints the same lines again. *)
Theorem print_log_readonly (s : state) (l : list entry) :
  inv s l → Forall terminated l →
  ∃ s',
    print_log s = Some s' ∧
    heap s' = heap s ∧ log_head s' = log_head s ∧ pool s' = pool s ∧
    ee_address s' = ee_address s ∧ eeprom s' = eeprom s ∧
    ee_writes s' = ee_writes s ∧ queue_of s' = queue_of s ∧
    tx s' = tx s ++ lines 1 l ∧
    lines 1 l = concat (zip_with line_text (seqZ 1 (Z.of_nat (length l))) l) ∧
    Forall (λ e, ∃ k, (k < 32)%nat ∧ e_data e !! k = Some 0 ∧
                      c_str (e_data e) = take k (e_data e)) l ∧
    (log_head s = NULL → tx s' = tx s) ∧
    (tx <$> print_log s') = Some (tx s' ++ lines 1 l).
Proof.
  intros Hinv Ht. rewrite (print_log_spec s l Hinv). eexists. split; [done|]. proj.
  do 8 (split; [done|]). split; [apply lines_text|]. split; [|split].
  - eapply Forall_impl; [exact Ht|]. intros e (Hlen & H0).
    destruct (c_str_take _ H0) as (k & Hk & Hc). exists k.
    split; [|done]. apply lookup_lt_Some in Hk. lia.
  - intros Hnull. destruct Hinv as [Hc _ _ _]. destruct l as [|e l].
    + by rewrite app_nil_r.
    + destruct Hc as (He & Hne & _). congruence.
  - rewrite (print_log_spec _ l); [done|]. by apply (inv_same s).
Qed.

Lemma task_A_terminated : Forall terminated [LoggerProofs.task_A].
Proof.
  constructor; [|constructor]. split; [reflexivity|].
  apply list_elem_of_lookup. by exists 1%nat.
Qed.

Lemma print_log_readonly_witness :
  ∃ s',
    print_log LoggerProofs.state_A = Some s' ∧
    heap s' = heap LoggerProofs.state_A ∧
    log_head s' = log_head LoggerProofs.state_A ∧
    pool s' = pool LoggerProofs.state_A ∧
    ee_address s' = ee_address LoggerProofs.state_A ∧
    eeprom s' = eeprom LoggerProofs.state_A ∧
    ee_writes s' = ee_writes LoggerProofs.state_A ∧
    queue_of s' = queue_of LoggerProofs.state_A ∧
    tx s' = tx LoggerProofs.state_A ++ lines 1 [LoggerProofs.task_A] ∧
    lines 1 [LoggerProofs.task_A]
    = concat (zip_with line_text
                (seqZ 1 (Z.of_nat (length [LoggerProofs.task_A])))
                [LoggerProofs.task_A]) ∧
    Forall (λ e, ∃ k, (k < 32)%nat ∧ e_data e !! k = Some 0 ∧
                      c_str (e_data e) = take k (e_data e)) [LoggerProofs.task_A] ∧
    (log_head LoggerProofs.state_A = NULL → tx s' = tx LoggerProofs.state_A) ∧
    (tx <$> print_log s') = Some (tx s' ++ lines 1 [LoggerProofs.task_A]).
Proof.
  apply (print_log_readonly LoggerProofs.state_A [LoggerProofs.task_A]).
  - apply LoggerProofs.state_A_inv.
  - apply task_A_terminated.
Defined.

(** The line sent for [task_A] (priority 3, text "A"). *)
Example print_task_A :
  tx <$> print_log LoggerProofs.state_A = Some (bytes_of_string "1: [3] A" ++ [10]).
Proof. by vm_compute. Qed.

End LoggerMore.

(* ===================================================================== *)
(** ** The command interpreter and the main loop                          *)
(**    ([parse_command], [main], [ISR(TIMER1_COMPA_vect)])                *)
(* ===================================================================== *)

Module Firmware.
Import Logger.

(** [strncmp(a, b, n)]: the difference of the first pair of characters that
    differ among the first [n], 0 when there is none before a NUL or the [n]-th
    character.  A list stands for the memory from the pointer on; past its end a
    NUL is read. *)
Fixpoint strncmp (a b : list Z) (n : nat) : Z :=
  match n with
  | O => 0
  | S n =>
      let x := hd 0 a in
      let y := hd 0 b in
      if x =? y then (if x =? 0 then 0 else strncmp (tl a) (tl b) n)
      else x - y
  end.

(** The globals of [uart_command_logger.X/main.c]: those of the task list
    ([tasks], which also carries the bytes sent), the receive ring, the line
    buffer [cmd_buf] with its index [idx], the [tick] flag, and the output
    register [PORTB]. *)
Record system := System {
  tasks : state;
  ring : Ring.ring;
  cmd_buf : list Z;
  idx : Z;
  tick : Z;
  PORTB : Z
}.

Definition set_tasks (t : state) (y : system) : system :=
  System t (ring y) (cmd_buf y) (idx y) (tick y) (PORTB y).
Definition set_ring (r : Ring.ring) (y : system) : system :=
  System (tasks y) r (cmd_buf y) (idx y) (tick y) (PORTB y).
Definition set_cmd_buf (b : list Z) (y : system) : system :=
  System (tasks y) (ring y) b (idx y) (tick y) (PORTB y).
Definition set_idx (i : Z) (y : system) : system :=
  System (tasks y) (ring y) (cmd_buf y) i (tick y) (PORTB y).
Definition set_tick (t : Z) (y : system) : system :=
  System (tasks y) (ring y) (cmd_buf y) (idx y) t (PORTB y).
Definition set_PORTB (p : Z) (y : system) : system :=
  System (tasks y) (ring y) (cmd_buf y) (idx y) (tick y) p.

(** [uart_send(c)] *)
Definition uart_send (c : Z) (y : system) : system :=
  set_tasks (set_tx (Ring.uart_send c (tx (tasks y))) (tasks y)) y.

(** [uart_send_str("...\n")] for the fixed replies. *)
Definition reply (line : string) (y : system) : system :=
  set_tasks (uart_send_str (bytes_of_string line ++ [10]) (tasks y)) y.

Section Board.

(** The number of pin PB0 in port B, from <avr/io.h>. *)
Variable PB0 : Z.

(** [void parse_command(const char* cmd)].

    [scanned] stands for what [sscanf(cmd + 6, "%d %[^]", &delay, msg)] leaves in
    the locals [delay] and [msg] in the DELAY branch; the format has no closing
    bracket, so the C library fixes no result and any pair is allowed for. *)
Definition parse_command (scanned : Z * list Z) (cmd : list Z) (y : system)
    : option system :=
  if strncmp cmd (bytes_of_string "LED ON") 6 =? 0 then
    let y := set_PORTB (uint8 (Z.lor (PORTB y) (Z.shiftl 1 PB0))) y in
    Some (reply "LED ON" y)
  else if strncmp cmd (bytes_of_string "LED OFF") 7 =? 0 then
    let y := set_PORTB (uint8 (Z.land (PORTB y) (Z.lnot (Z.shiftl 1 PB0)))) y in
    Some (reply "LED OFF" y)
  else if strncmp cmd (bytes_of_string "LOG ") 4 =? 0 then
    t ← add_log (drop 4 cmd) 0 5 (tasks y);
    Some (reply "Log added" (set_tasks t y))
  else if strncmp cmd (bytes_of_string "DELAY ") 6 =? 0 then
    let '(delay, msg) := scanned in
    t ← add_log msg delay 5 (tasks y);
    Some (reply "Delayed task added" (set_tasks t y))
  else if strncmp cmd (bytes_of_string "LIST") 4 =? 0 then
    t ← print_log (tasks y); Some (set_tasks t y)
  else if strncmp cmd (bytes_of_string "SAVE") 4 =? 0 then
    t ← save_logs_to_eeprom (tasks y); Some (set_tasks t y)
  else if strncmp cmd (bytes_of_string "LOAD") 4 =? 0 then
    Some (set_tasks (load_logs_from_eeprom (tasks y)) y)
  else
    Some (reply "Unknown command" y).

(** The first statement of the loop body of [main]:
    [if (!buffer_is_empty()) { char c = buffer_read(); uart_send(c); ... }] *)
Definition handle_input (scanned : Z * list Z) (y : system) : option system :=
  if negb (Ring.buffer_is_empty (ring y)) then
    let '(c, r) := Ring.buffer_read (ring y) in
    let y := set_ring r y in
    let y := uart_send c y in
    if (c =? 10) || (c =? 13) then
      let y := set_cmd_buf (<[Z.to_nat (idx y) := 0]> (cmd_buf y)) y in
      y ← (if 0 <? idx y then parse_command scanned (cmd_buf y) y else Some y);
      Some (set_idx 0 y)
    else if idx y <? MAX_CMD_LEN - 1 then
      let y := set_cmd_buf (<[Z.to_nat (idx y) := c]> (cmd_buf y)) y in
      Some (set_idx (uint8 (idx y + 1)) y)
    else Some y
  else Some y.

(** The second statement: [if (tick) { tick = 0; execute_tasks(); }] *)
Definition handle_tick (y : system) : option system :=
  if negb (tick y =? 0) then
    let y := set_tick 0 y in
    t ← execute_tasks (tasks y); Some (set_tasks t y)
  else Some y.

(** One pass through the body of [while (1)] in [main]. *)
Definition main_iteration (scanned : Z * list Z) (y : system) : option system :=
  y ← handle_input scanned y; handle_tick y.

(** [ISR(TIMER1_COMPA_vect) { tick = 1; }] *)
Definition TIMER1_COMPA_vect (y : system) : system := set_tick 1 y.

(** [ISR(USART_RX_vect)] on the globals of the system. *)
Definition USART_RX_vect (udr0 : Z) (y : system) : system :=
  set_ring (Ring.USART_RX_vect udr0 (ring y)) y.

(** What happens to the system: a byte arrives, the timer fires, or the main
    loop makes one pass. *)
Inductive event :=
  | Byte (udr0 : Z)
  | Timer
  | Pass (scanned : Z * list Z).

Definition step (e : event) (y : system) : option system :=
  match e with
  | Byte d => Some (USART_RX_vect d y)
  | Timer => Some (TIMER1_COMPA_vect y)
  | Pass scanned => main_iteration scanned y
  end.

Fixpoint run (evs : list event) (y : system) : option system :=
  match evs with
  | [] => Some y
  | e :: evs => y ← step e y; run evs y
  end.

End Board.

(** The system when [main] enters its loop: the greeting has been sent, the
    zero-initialised globals are untouched.  (The set-up of the UART, timer and
    port direction registers is not modelled.) *)
Definition startup (blocks : list Z) (e : gmap Z Z) (portb : Z) : system :=
  System (uart_send_str (bytes_of_string "System Ready" ++ [10]) (boot blocks e))
         Ring.init (replicate 32 0) 0 0 portb.

End Firmware.

Module FirmwareProofs.
Import Logger Queue QueueProofs LoggerMore Firmware.

Ltac sysproj :=
  cbn [tasks ring cmd_buf idx tick PORTB set_tasks set_ring set_cmd_buf set_idx
       set_tick set_PORTB uart_send reply].

(** *** Strings *)

Lemma strncmp_app_nul n : ∀ w b junk,
  strncmp (w ++ 0 :: junk) b n = strncmp w b n.
Proof.
  induction n as [|n IH]; intros w b junk; [done|].
  destruct w as [|c w]; cbn [strncmp app hd tl].
  - destruct (0 =? hd 0 b); done.
  - destruct (c =? hd 0 b); [|done]. destruct (c =? 0); [done|]. apply IH.
Qed.

Lemma strncmp_zero_prefix n : ∀ w kw,
  strncmp w kw n = 0 → Forall (λ c, c ≠ 0) kw → length kw = n → take n w = kw.
Proof.
  induction n as [|n IH]; intros w kw Hs Hkw Hlen.
  - by destruct kw.
  - destruct kw as [|k kw]; [done|]. apply Forall_cons in Hkw as [Hk Hkw].
    cbn [strncmp] in Hs. cbn zeta in Hs. cbn [hd tl] in Hs.
    destruct (hd 0 w =? k) eqn:E; [|apply Z.eqb_neq in E; lia].
    apply Z.eqb_eq in E. destruct w as [|c w]; [simpl in E; congruence|].
    simpl in E. subst c. cbn [hd tl] in Hs.
    destruct (k =? 0) eqn:E0; [apply Z.eqb_eq in E0; done|].
    cbn [take]. f_equal. apply IH; [done|done|]. simpl in Hlen. lia.
Qed.

Lemma c_str_app_nul_any u x : c_str (u ++ 0 :: x) = c_str u.
Proof.
  induction u as [|c u IH]; [done|]. cbn [app c_str]. by rewrite IH.
Qed.

Lemma add_log_c_str m1 m2 d p t :
  c_str m1 = c_str m2 → add_log m1 d p t = add_log m2 d p t.
Proof. intros H. unfold add_log, strncpy. by rewrite H. Qed.

Section Board.
Variable PB0 : Z.

(** [parse_command] reads its argument as a C string: what follows the first
    NUL in the buffer does not matter. *)
Lemma parse_command_nul sc w junk y :
  parse_command PB0 sc (w ++ 0 :: junk) y = parse_command PB0 sc w y.
Proof.
  unfold parse_command. rewrite !strncmp_app_nul.
  destruct (strncmp w (bytes_of_string "LED ON") 6 =? 0); [done|].
  destruct (strncmp w (bytes_of_string "LED OFF") 7 =? 0); [done|].
  destruct (strncmp w (bytes_of_string "LOG ") 4 =? 0) eqn:E; [|done].
  apply Z.eqb_eq in E. apply strncmp_zero_prefix in E; [|by repeat constructor|done].
  assert (Hlen : (4 ≤ length w)%nat).
  { apply (f_equal length) in E. rewrite length_take in E.
    change (length (bytes_of_string "LOG ")) with 4%nat in E. lia. }
  rewrite (add_log_c_str (drop 4 (w ++ 0 :: junk)) (drop 4 w)); [done|].
  rewrite drop_app_le by done. apply c_str_app_nul_any.
Qed.

(** *** The invariant of the whole system *)

(** The task state is well formed with list [l], the ring indices and [idx] are
    inside their arrays. *)
Definition sys_ok (y : system) (l : list entry) : Prop :=
  inv (tasks y) l ∧ Ring.ok (ring y) ∧ length (cmd_buf y) = 32%nat ∧ 0 ≤ idx y ≤ 31.

Lemma inv_send str t l : inv t l → inv (uart_send_str str t) l.
Proof. by apply inv_same. Qed.

(** *** Runs in which every string read stays inside its array *)

(** The argument of the [parse_command] call that the next pass of the main
    loop makes, if it makes one: the line buffer, closed with a NUL at [idx],
    when the next byte in the ring ends a line that is not empty. *)
Definition pending (y : system) : option (list Z) :=
  if Ring.buffer_is_empty (ring y) then None
  else
    let c := (Ring.buffer_read (ring y)).1 in
    if ((c =? 10) || (c =? 13)) && (0 <? idx y)
    then Some (<[Z.to_nat (idx y) := 0]> (cmd_buf y))
    else None.

(** [pending] says what [handle_input] does: with [Some cmd] the pass echoes the
    terminator, calls [parse_command cmd] and resets [idx]; with [None] it makes
    no call, and the task state changes at most by the echoed byte. *)
Lemma pending_some sc y cmd :
  pending y = Some cmd →
  handle_input PB0 sc y =
  (y' ← parse_command PB0 sc cmd
          (set_cmd_buf cmd
             (uart_send (Ring.buffer_read (ring y)).1
                        (set_ring (Ring.buffer_read (ring y)).2 y)));
   Some (set_idx 0 y')).
Proof.
  unfold pending, handle_input.
  destruct (Ring.buffer_is_empty (ring y)); [done|]. cbn [negb].
  destruct (Ring.buffer_read (ring y)) as [c r]. cbn [fst snd]. cbn zeta. sysproj.
  destruct ((c =? 10) || (c =? 13)); [|done].
  destruct (0 <? idx y); [|done]. cbn [andb]. by intros [= <-].
Qed.

Lemma pending_none sc y :
  pending y = None →
  ∃ y', handle_input PB0 sc y = Some y' ∧ PORTB y' = PORTB y ∧
        ∃ out, tasks y' = set_tx (tx (tasks y) ++ out) (tasks y).
Proof.
  unfold pending, handle_input.
  assert (Hid : ∃ out, tasks y = set_tx (tx (tasks y) ++ out) (tasks y)).
  { exists []. rewrite app_nil_r. by destruct (tasks y). }
  destruct (Ring.buffer_is_empty (ring y)); cbn [negb]; [by exists y|].
  destruct (Ring.buffer_read (ring y)) as [c r]. cbn [fst snd]. cbn zeta. sysproj.
  assert (Hc : ∃ out, set_tx (Ring.uart_send c (tx (tasks y))) (tasks y)
                      = set_tx (tx (tasks y) ++ out) (tasks y)) by by exists [c].
  destruct ((c =? 10) || (c =? 13)).
  - destruct (0 <? idx y); [done|]. intros _. cbn [mbind option_bind].
    eexists. split; [done|]. sysproj. done.
  - intros _. destruct (idx y <? MAX_CMD_LEN - 1);
      (eexists; split; [done|]; sysproj; done).
Qed.

(** The command lines passed to [parse_command] during a run, in order. *)
Fixpoint commands (evs : list event) (y : system) : list (list Z) :=
  match evs with
  | [] => []
  | e :: evs =>
      match e with Pass _ => option_list (pending y) | _ => [] end
      ++ match step PB0 e y with Some y' => commands evs y' | None => [] end
  end.

(** [strncmp(cmd, kw, strlen(kw)) == 0] *)
Definition is_cmd (kw : string) (cmd : list Z) : bool :=
  strncmp cmd (bytes_of_string kw) (length (bytes_of_string kw)) =? 0.

Lemma commands_app evs1 : ∀ evs2 y,
  commands (evs1 ++ evs2) y =
  commands evs1 y
  ++ match run PB0 evs1 y with Some y' => commands evs2 y' | None => [] end.
Proof.
  induction evs1 as [|e evs1 IH]; intros evs2 y; [done|].
  cbn [app commands run]. rewrite <- app_assoc. f_equal.
  destruct (step PB0 e y) as [y1|]; [apply IH|done].
Qed.

Lemma stored_send n str t : stored n t → stored n (uart_send_str str t).
Proof. intros H. by apply (stored_mono n n t). Qed.

Lemma parse_command_safe (blocks : list Z) sc cmd y l n :
  inv (tasks y) l → Forall terminated l → pool (tasks y) ++ addrs l ≡ₚ blocks →
  (is_cmd "LOAD" cmd = true → slots_clean (eeprom (tasks y)) = true) →
  ∃ y' l',
    parse_command PB0 sc cmd y = Some y' ∧ inv (tasks y') l' ∧
    Forall terminated l' ∧ pool (tasks y') ++ addrs l' ≡ₚ blocks ∧
    ring y' = ring y ∧ cmd_buf y' = cmd_buf y ∧ idx y' = idx y ∧ tick y' = tick y ∧
    (10 ≤ n → stored n (tasks y) → 37 * (n + Z.of_nat (length blocks)) < 65536 →
     stored (n + Z.of_nat (length blocks)) (tasks y')).
Proof.
  intros Hinv Ht Hb Hload. unfold parse_command.
  assert (Hsame : ∀ str p,
    ∃ y' l',
      Some (reply str (set_PORTB p y)) = Some y' ∧ inv (tasks y') l' ∧
      Forall terminated l' ∧ pool (tasks y') ++ addrs l' ≡ₚ blocks ∧
      ring y' = ring y ∧ cmd_buf y' = cmd_buf y ∧ idx y' = idx y ∧
      tick y' = tick y ∧
      (10 ≤ n → stored n (tasks y) → 37 * (n + Z.of_nat (length blocks)) < 65536 →
       stored (n + Z.of_nat (length blocks)) (tasks y'))).
  { intros str p. eexists _, l. split; [done|]. sysproj.
    split; [by apply inv_send|]. do 6 (split; [done|]).
    intros _ Hst _. apply (stored_mono n _ (tasks y)); [done|done|done|lia]. }
  destruct (_ =? 0); [apply Hsame|].
  destruct (_ =? 0); [apply Hsame|].
  destruct (_ =? 0).
  { destruct (run_op_safe blocks (Add (drop 4 cmd) 0 5) _ _ n Hinv Ht Hb)
      as (t & l' & Hr & Hinv' & Ht' & Hb' & Hst'); [done|].
    cbn [run_op] in Hr. rewrite Hr. eexists _, l'. split; [done|]. sysproj.
    split; [by apply inv_send|]. do 6 (split; [done|]).
    intros Hn Hst Hbound. by apply stored_send, Hst'. }
  destruct (_ =? 0).
  { destruct sc as [delay msg].
    destruct (run_op_safe blocks (Add msg delay 5) _ _ n Hinv Ht Hb)
      as (t & l' & Hr & Hinv' & Ht' & Hb' & Hst'); [done|].
    cbn [run_op] in Hr. rewrite Hr. eexists _, l'. split; [done|]. sysproj.
    split; [by apply inv_send|]. do 6 (split; [done|]).
    intros Hn Hst Hbound. by apply stored_send, Hst'. }
  destruct (_ =? 0).
  { destruct (run_op_safe blocks List _ _ n Hinv Ht Hb)
      as (t & l' & Hr & Hinv' & Ht' & Hb' & Hst'); [done|].
    cbn [run_op] in Hr. rewrite Hr. by eexists _, l'. }
  destruct (_ =? 0).
  { destruct (run_op_safe blocks Save _ _ n Hinv Ht Hb)
      as (t & l' & Hr & Hinv' & Ht' & Hb' & Hst'); [done|].
    cbn [run_op] in Hr. rewrite Hr. by eexists _, l'. }
  destruct (strncmp cmd (bytes_of_string "LOAD") 4 =? 0) eqn:E.
  { destruct (run_op_safe blocks Load _ _ n Hinv Ht Hb)
      as (t & l' & Hr & Hinv' & Ht' & Hb' & Hst'); [by intros _; apply Hload|].
    cbn [run_op] in Hr. injection Hr as <-. by eexists _, l'. }
  replace y with (set_PORTB (PORTB y) y) at 1 by by destruct y.
  apply Hsame.
Qed.

Lemma handle_input_safe (blocks : list Z) sc y l n :
  sys_ok y l → Forall terminated l → pool (tasks y) ++ addrs l ≡ₚ blocks →
  (∀ cmd, pending y = Some cmd → is_cmd "LOAD" cmd = true →
          slots_clean (eeprom (tasks y)) = true) →
  ∃ y' l',
    handle_input PB0 sc y = Some y' ∧ sys_ok y' l' ∧ tick y' = tick y ∧
    Forall terminated l' ∧ pool (tasks y') ++ addrs l' ≡ₚ blocks ∧
    (10 ≤ n → stored n (tasks y) → 37 * (n + Z.of_nat (length blocks)) < 65536 →
     stored (n + Z.of_nat (length blocks)) (tasks y')).
Proof.
  intros Hok Ht Hb Hload. pose proof Hok as (Hinv & Hring & Hbuf & Hidx).
  unfold handle_input. unfold pending in Hload.
  assert (Hmono : 10 ≤ n → stored n (tasks y) →
                  37 * (n + Z.of_nat (length blocks)) < 65536 →
                  stored (n + Z.of_nat (length blocks)) (tasks y)).
  { intros _ Hst _. apply (stored_mono n _ (tasks y)); [done|done|done|lia]. }
  destruct (Ring.buffer_is_empty (ring y)); cbn [negb]; [by exists y, l|].
  pose proof (RingProofs.ok_read _ Hring) as Hring'.
  destruct (Ring.buffer_read (ring y)) as [c r]. cbn [fst snd] in Hring', Hload.
  cbn zeta in *. sysproj.
  assert (Hinv0 : inv (set_tx (Ring.uart_send c (tx (tasks y))) (tasks y)) l)
    by by apply (inv_same (tasks y)).
  assert (Hmono0 : 10 ≤ n → stored n (tasks y) →
            37 * (n + Z.of_nat (length blocks)) < 65536 →
            stored (n + Z.of_nat (length blocks))
                   (set_tx (Ring.uart_send c (tx (tasks y))) (tasks y))).
  { intros _ Hst _. apply (stored_mono n _ (tasks y)); [done|done|done|lia]. }
  destruct ((c =? 10) || (c =? 13)).
  - destruct (0 <? idx y).
    + cbn [andb] in Hload.
      edestruct (parse_command_safe blocks sc) as
        (y4 & l4 & -> & Hinv4 & Ht4 & Hb4 & Hr & Hc & Hi & Htk & Hst4);
        [| | | |cbn [mbind option_bind]; exists (set_idx 0 y4), l4; split; [done|]].
      { sysproj. exact Hinv0. }
      { exact Ht. }
      { sysproj. exact Hb. }
      { sysproj. intros Hcmd. by apply (Hload _ eq_refl). }
      sysproj. revert Hb4 Hr Hc Hi Htk Hst4. sysproj. intros Hb4 Hr Hc Hi Htk Hst4.
      split; [|split; [done|split; [done|split; [exact Hb4|]]]].
      * unfold sys_ok. sysproj. split; [done|].
        rewrite Hr, Hc, length_insert. split; [done|]. split; [done|lia].
      * intros Hn Hst Hbound. apply Hst4; [done| |done].
        by apply (stored_mono n n (tasks y)).
    + cbn [mbind option_bind]. eexists _, l. split; [done|].
      unfold sys_ok. sysproj.
      split; [|done]. split; [done|]. rewrite length_insert.
      split; [done|]. split; [done|lia].
  - unfold MAX_CMD_LEN. destruct (idx y <? 32 - 1) eqn:E.
    + eexists _, l. split; [done|]. unfold sys_ok. sysproj. split; [|done].
      split; [done|]. rewrite length_insert. unfold uint8.
      split; [done|]. split; [done|]. zbool. zmod.
    + eexists _, l. split; [done|]. unfold sys_ok. sysproj. split; [|done]. done.
Qed.

Lemma handle_tick_safe (blocks : list Z) y l :
  sys_ok y l → Forall terminated l → pool (tasks y) ++ addrs l ≡ₚ blocks →
  ∃ y' l',
    handle_tick y = Some y' ∧ sys_ok y' l' ∧
    Forall terminated l' ∧ pool (tasks y') ++ addrs l' ≡ₚ blocks ∧
    (∀ m, stored m (tasks y) → stored m (tasks y')).
Proof.
  intros Hok Ht Hb. pose proof Hok as (Hinv & Hring & Hbuf & Hidx).
  unfold handle_tick.
  destruct (negb (tick y =? 0)); [|by exists y, l].
  destruct (execute_tasks_spec _ _ Hinv)
    as (t & Hr & Hinv' & _ & Hp' & Ha' & He' & _).
  sysproj. rewrite Hr. cbn [mbind option_bind].
  eexists _, (tick_keep l). split; [done|]. unfold sys_ok. sysproj.
  split; [done|]. split; [by apply terminated_tick|]. split.
  - rewrite <- Hb, Hp', <- (tick_blocks l), <- Permutation_rev.
    rewrite (app_assoc (pool (tasks y))).
    apply Permutation_app_tail, Permutation_app_comm.
  - intros m Hst. by apply (stored_mono m m (tasks y)).
Qed.

Lemma main_iteration_safe (blocks : list Z) sc y l n :
  sys_ok y l → Forall terminated l → pool (tasks y) ++ addrs l ≡ₚ blocks →
  (∀ cmd, pending y = Some cmd → is_cmd "LOAD" cmd = true →
          slots_clean (eeprom (tasks y)) = true) →
  ∃ y' l',
    main_iteration PB0 sc y = Some y' ∧ sys_ok y' l' ∧
    Forall terminated l' ∧ pool (tasks y') ++ addrs l' ≡ₚ blocks ∧
    (10 ≤ n → stored n (tasks y) → 37 * (n + Z.of_nat (length blocks)) < 65536 →
     stored (n + Z.of_nat (length blocks)) (tasks y')).
Proof.
  intros Hok Ht Hb Hload. unfold main_iteration.
  destruct (handle_input_safe blocks sc y l n Hok Ht Hb Hload)
    as (y1 & l1 & -> & Hok1 & _ & Ht1 & Hb1 & Hst1).
  cbn [mbind option_bind].
  destruct (handle_tick_safe blocks y1 l1 Hok1 Ht1 Hb1)
    as (y' & l' & -> & Hok' & Ht' & Hb' & Hst').
  exists y', l'. do 4 (split; [done|]).
  intros Hn Hst Hbound. by apply Hst', Hst1.
Qed.

Lemma run_safe (blocks : list Z) evs : ∀ y l n,
  sys_ok y l → Forall terminated l → pool (tasks y) ++ addrs l ≡ₚ blocks →
  (existsb (is_cmd "LOAD") (commands evs y) = true →
   10 ≤ n ∧ stored n (tasks y) ∧
   37 * (n + Z.of_nat (length blocks) * Z.of_nat (length evs)) < 65536) →
  ∃ y' l',
    run PB0 evs y = Some y' ∧ sys_ok y' l' ∧ Forall terminated l' ∧
    pool (tasks y') ++ addrs l' ≡ₚ blocks.
Proof.
  induction evs as [|e evs IH]; intros y l n Hok Ht Hb Hmode; [by exists y, l|].
  cbn [run commands length] in *.
  destruct e as [d| |sc]; cbn [step app] in *.
  - cbn [mbind option_bind].
    apply (IH _ l n); [|done|done|].
    + destruct Hok as (? & ? & ? & ?). unfold sys_ok, USART_RX_vect. sysproj.
      split; [done|]. split; [by apply RingProofs.ok_rx|done].
    + intros Hl. destruct (Hmode Hl) as (Hn & Hst & Hbound).
      split; [done|]. split; [done|nia].
  - cbn [mbind option_bind].
    apply (IH _ l n); [done|done|done|].
    intros Hl. destruct (Hmode Hl) as (Hn & Hst & Hbound).
    split; [done|]. split; [done|nia].
  - destruct (main_iteration_safe blocks sc y l n Hok Ht Hb)
      as (y1 & l1 & Hy1 & Hok1 & Ht1 & Hb1 & Hst1).
    { intros cmd Hp Hcmd. rewrite Hp in Hmode.
      change (option_list (Some cmd)) with [cmd] in Hmode.
      cbn [app existsb] in Hmode.
      rewrite Hcmd in Hmode. by destruct Hmode as (_ & [? _] & _). }
    rewrite Hy1 in *. cbn [mbind option_bind].
    apply (IH _ l1 (n + Z.of_nat (length blocks))); [done|done|done|].
    intros Hl. rewrite existsb_app, Hl, orb_true_r in Hmode.
    destruct Hmode as (Hn & Hst & Hbound); [done|].
    split; [lia|]. split; [apply Hst1; [done|done|nia]|nia].
Qed.

(** X13. Safety of the firmware loop.  From the state in which [main] enters
    its loop, whatever bytes arrive and whenever the timer fires, the run and
    every part of it from the start completes: no dangling or [NULL] pointer is
    dereferenced, every list walk ends, every node's [data] holds a NUL, so that
    no string read leaves its array; [rx_buffer] and [cmd_buf] are only ever
    indexed inside their bounds ([head], [tail] below 64, [idx] at most 31); and
    every block of the allocator is free or in the list, exactly once.

    Two kinds of run are outside the theorem.  A line that begins with
    [DELAY ]: its [sscanf] format has no closing bracket, so that what the call
    leaves in [delay] and [msg] is undefined.  And a [LOAD] from an EEPROM in
    which one of the ten record slots has no NUL among its 32 data bytes (an
    erased EEPROM, for one), or after so many passes that the 16-bit cursor may
    have wrapped around: the loaded nodes may then lack the NUL. *)
Theorem firmware_safe (blocks : list Z) (e0 : gmap Z Z) (portb : Z)
    (evs pre : list event) :
  NoDup blocks → NULL ∉ blocks →
  Forall (λ cmd, is_cmd "DELAY " cmd = false)
         (commands evs (startup blocks e0 portb)) →
  (existsb (is_cmd "LOAD") (commands evs (startup blocks e0 portb)) = true →
   slots_clean e0 = true ∧
   37 * (10 + Z.of_nat (length blocks) * Z.of_nat (length evs)) < 65536) →
  pre `prefix_of` evs →
  ∃ y l,
    run PB0 pre (startup blocks e0 portb) = Some y ∧
    inv (tasks y) l ∧ Forall terminated l ∧
    length (Ring.rx_buffer (ring y)) = 64%nat ∧
    0 ≤ Ring.head (ring y) < 64 ∧ 0 ≤ Ring.tail (ring y) < 64 ∧
    length (cmd_buf y) = 32%nat ∧ 0 ≤ idx y ≤ 31 ∧
    pool (tasks y) ++ addrs l ≡ₚ blocks.
Proof.
  intros Hnd Hnull _ Hmode [suf ->].
  assert (Hok : sys_ok (startup blocks e0 portb) []).
  { unfold sys_ok, startup. sysproj. split; [|split; [apply RingProofs.ok_init|done]].
    apply inv_send. by apply inv_boot. }
  destruct (run_safe blocks pre (startup blocks e0 portb) [] 10 Hok)
    as (y & l & Hr & (Hinv & Hring & Hbuf & Hidx) & Ht & Hb).
  - constructor.
  - unfold startup. sysproj. cbn. by rewrite app_nil_r.
  - intros Hpre. rewrite commands_app, existsb_app, Hpre in Hmode.
    destruct Hmode as (Hclean & Hbound); [done|].
    split; [lia|]. split.
    + split; [done|]. exists 0. unfold startup. sysproj. cbn. lia.
    + rewrite length_app in Hbound. nia.
  - exists y, l. split; [done|]. split; [done|]. split; [done|].
    destruct Hring as (? & ? & ?). done.
Qed.

(** *** Single commands *)

(** X14. [LOG <text>] calls [add_log] with the text, delay 0 and priority 5,
    and then always answers "Log added", also when no block was free and nothing
    was stored.  [PORTB] is not touched. *)
Theorem log_command (sc : Z * list Z) (msg : list Z) (y : system) (l : list entry) :
  inv (tasks y) l →
  ∃ y',
    parse_command PB0 sc (bytes_of_string "LOG " ++ msg) y = Some y' ∧
    tx (tasks y') = tx (tasks y) ++ bytes_of_string "Log added" ++ [10] ∧
    PORTB y' = PORTB y ∧
    match pool (tasks y) with
    | [] => inv (tasks y') l ∧ pool (tasks y') = []
    | a :: bl => inv (tasks y') (ins (new_entry a msg 0 5) l) ∧ pool (tasks y') = bl
    end.
Proof.
  intros Hinv. unfold parse_command.
  change (strncmp (bytes_of_string "LOG " ++ msg) (bytes_of_string "LED ON") 6 =? 0)
    with false.
  change (strncmp (bytes_of_string "LOG " ++ msg) (bytes_of_string "LED OFF") 7 =? 0)
    with false.
  change (strncmp (bytes_of_string "LOG " ++ msg) (bytes_of_string "LOG ") 4 =? 0)
    with true.
  change (drop 4 (bytes_of_string "LOG " ++ msg)) with msg. cbv iota.
  pose proof (add_log_spec msg 0 5 (tasks y) l Hinv) as Hadd.
  destruct (pool (tasks y)) as [|a bl] eqn:Hp.
  - rewrite Hadd. cbn [mbind option_bind]. eexists. split; [done|]. sysproj.
    unfold uart_send_str. proj. split; [done|]. split; [done|].
    split; [by apply (inv_same (tasks y))|done].
  - destruct Hadd as (t & -> & Hinv' & Hp' & Htx & _). cbn [mbind option_bind].
    eexists. split; [done|]. sysproj. unfold uart_send_str. proj.
    rewrite Htx. split; [done|]. split; [done|].
    split; [by apply (inv_same t)|done].
Qed.

Lemma testbit_pin n i : 0 ≤ n → 0 ≤ i → Z.testbit (Z.shiftl 1 n) i = (i =? n).
Proof.
  intros Hn Hi. rewrite Z.shiftl_spec by done.
  destruct (i =? n) eqn:E; zbool.
  - subst. by rewrite Z.sub_diag.
  - destruct (i - n) eqn:D; [lia|done|done].
Qed.

(** X15. [LED ON] sets bit [PB0] of [PORTB] and [LED OFF] clears it; the other
    seven bits keep their values and the register stays a byte.  Anything that
    follows the keyword on the line is ignored. *)
Theorem led_commands (sc : Z * list Z) (rest : list Z) (y : system) :
  0 ≤ PB0 < 8 → 0 ≤ PORTB y < 256 →
  ∃ y_on y_off,
    parse_command PB0 sc (bytes_of_string "LED ON" ++ rest) y = Some y_on ∧
    parse_command PB0 sc (bytes_of_string "LED OFF" ++ rest) y = Some y_off ∧
    tasks y_on = uart_send_str (bytes_of_string "LED ON" ++ [10]) (tasks y) ∧
    tasks y_off = uart_send_str (bytes_of_string "LED OFF" ++ [10]) (tasks y) ∧
    0 ≤ PORTB y_on < 256 ∧ 0 ≤ PORTB y_off < 256 ∧
    (∀ i, 0 ≤ i →
          Z.testbit (PORTB y_on) i
          = (if i =? PB0 then true else Z.testbit (PORTB y) i) ∧
          Z.testbit (PORTB y_off) i
          = (if i =? PB0 then false else Z.testbit (PORTB y) i)).
Proof.
  intros Hpin Hport. unfold parse_command.
  change (strncmp (bytes_of_string "LED ON" ++ rest) (bytes_of_string "LED ON") 6 =? 0)
    with true.
  change (strncmp (bytes_of_string "LED OFF" ++ rest) (bytes_of_string "LED ON") 6 =? 0)
    with false.
  change (strncmp (bytes_of_string "LED OFF" ++ rest) (bytes_of_string "LED OFF") 7 =? 0)
    with true.
  cbv iota. eexists _, _. split; [done|]. split; [done|]. sysproj.
  split; [done|]. split; [done|]. unfold uint8.
  split; [apply Z.mod_pos_bound; lia|]. split; [apply Z.mod_pos_bound; lia|].
  assert (Hhigh : ∀ i, 8 ≤ i → Z.testbit (PORTB y) i = false).
  { intros i Hi. destruct (decide (PORTB y = 0)) as [->|Hnz]; [apply Z.bits_0|].
    apply Z.bits_above_log2; [lia|].
    assert (Z.log2 (PORTB y) < 8); [|lia].
    apply Z.log2_lt_pow2; lia. }
  intros i Hi. change 256 with (2 ^ 8).
  destruct (decide (i < 8)) as [Hlt|Hge].
  - rewrite !Z.mod_pow2_bits_low by done.
    rewrite Z.lor_spec, Z.land_spec, Z.lnot_spec, !testbit_pin by lia.
    destruct (i =? PB0); [by rewrite orb_true_r, andb_false_r|].
    by rewrite orb_false_r, andb_true_r.
  - rewrite !Z.mod_pow2_bits_high by lia. rewrite Hhigh by lia.
    assert (E : (i =? PB0) = false) by (apply Z.eqb_neq; lia). by rewrite E.
Qed.

(** X16. The keyword is compared by prefix, in source order, and nothing after it
    is looked at: a line that begins with LIST, SAVE or LOAD runs [print_log],
    [save_logs_to_eeprom] or [load_logs_from_eeprom] whatever follows; a line
    whose first character is none of L, D and S is answered with
    "Unknown command" and changes nothing else. *)
Theorem keyword_dispatch (sc : Z * list Z) (rest cmd : list Z) (y : system) :
  parse_command PB0 sc (bytes_of_string "LIST" ++ rest) y
    = (λ t, set_tasks t y) <$> print_log (tasks y) ∧
  parse_command PB0 sc (bytes_of_string "SAVE" ++ rest) y
    = (λ t, set_tasks t y) <$> save_logs_to_eeprom (tasks y) ∧
  parse_command PB0 sc (bytes_of_string "LOAD" ++ rest) y
    = Some (set_tasks (load_logs_from_eeprom (tasks y)) y) ∧
  (hd 0 cmd ≠ 76 → hd 0 cmd ≠ 68 → hd 0 cmd ≠ 83 →
   parse_command PB0 sc cmd y
   = Some (set_tasks (uart_send_str (bytes_of_string "Unknown command" ++ [10])
                                    (tasks y)) y)).
Proof.
  split; [|split; [|split]].
  - unfold parse_command.
    change (strncmp (bytes_of_string "LIST" ++ rest) (bytes_of_string "LED ON") 6 =? 0)
      with false.
    change (strncmp (bytes_of_string "LIST" ++ rest) (bytes_of_string "LED OFF") 7 =? 0)
      with false.
    change (strncmp (bytes_of_string "LIST" ++ rest) (bytes_of_string "LOG ") 4 =? 0)
      with false.
    change (strncmp (bytes_of_string "LIST" ++ rest) (bytes_of_string "DELAY ") 6 =? 0)
      with false.
    change (strncmp (bytes_of_string "LIST" ++ rest) (bytes_of_string "LIST") 4 =? 0)
      with true.
    cbv iota. by destruct (print_log (tasks y)).
  - unfold parse_command.
    change (strncmp (bytes_of_string "SAVE" ++ rest) (bytes_of_string "LED ON") 6 =? 0)
      with false.
    change (strncmp (bytes_of_string "SAVE" ++ rest) (bytes_of_string "LED OFF") 7 =? 0)
      with false.
    change (strncmp (bytes_of_string "SAVE" ++ rest) (bytes_of_string "LOG ") 4 =? 0)
      with false.
    change (strncmp (bytes_of_string "SAVE" ++ rest) (bytes_of_string "DELAY ") 6 =? 0)
      with false.
    change (strncmp (bytes_of_string "SAVE" ++ rest) (bytes_of_string "LIST") 4 =? 0)
      with false.
    change (strncmp (bytes_of_string "SAVE" ++ rest) (bytes_of_string "SAVE") 4 =? 0)
      with true.
    cbv iota. by destruct (save_logs_to_eeprom (tasks y)).
  - unfold parse_command.
    change (strncmp (bytes_of_string "LOAD" ++ rest) (bytes_of_string "LED ON") 6 =? 0)
      with false.
    change (strncmp (bytes_of_string "LOAD" ++ rest) (bytes_of_string "LED OFF") 7 =? 0)
      with false.
    change (strncmp (bytes_of_string "LOAD" ++ rest) (bytes_of_string "LOG ") 4 =? 0)
      with false.
    change (strncmp (bytes_of_string "LOAD" ++ rest) (bytes_of_string "DELAY ") 6 =? 0)
      with false.
    change (strncmp (bytes_of_string "LOAD" ++ rest) (bytes_of_string "LIST") 4 =? 0)
      with false.
    change (strncmp (bytes_of_string "LOAD" ++ rest) (bytes_of_string "SAVE") 4 =? 0)
      with false.
    change (strncmp (bytes_of_string "LOAD" ++ rest) (bytes_of_string "LOAD") 4 =? 0)
      with true.
    done.
  - intros HL HD HS.
    assert (Hne : ∀ k kw n, k ≠ 0 → hd 0 cmd ≠ k →
                  (strncmp cmd (k :: kw) (S n) =? 0) = false).
    { intros k kw n Hk Hc. cbn [strncmp hd]. cbn zeta.
      apply Z.eqb_neq in Hc. rewrite Hc. apply Z.eqb_neq. apply Z.eqb_neq in Hc. lia. }
    unfold parse_command.
    change (bytes_of_string "LED ON") with (76 :: bytes_of_string "ED ON").
    change (bytes_of_string "LED OFF") with (76 :: bytes_of_string "ED OFF").
    change (bytes_of_string "LOG ") with (76 :: bytes_of_string "OG ").
    change (bytes_of_string "DELAY ") with (68 :: bytes_of_string "ELAY ").
    change (bytes_of_string "LIST") with (76 :: bytes_of_string "IST").
    change (bytes_of_string "SAVE") with (83 :: bytes_of_string "AVE").
    change (bytes_of_string "LOAD") with (76 :: bytes_of_string "OAD").
    rewrite !Hne by done. done.
Qed.

(** *** From received bytes to a command *)

Lemma parse_command_core sc cmd y r b i k :
  parse_command PB0 sc cmd (System (tasks y) r b i k (PORTB y)) =
  (λ y', System (tasks y') r b i k (PORTB y')) <$> parse_command PB0 sc cmd y.
Proof.
  unfold parse_command. sysproj.
  destruct (strncmp cmd (bytes_of_string "LED ON") 6 =? 0); [done|].
  destruct (strncmp cmd (bytes_of_string "LED OFF") 7 =? 0); [done|].
  destruct (strncmp cmd (bytes_of_string "LOG ") 4 =? 0).
  { by destruct (add_log (drop 4 cmd) 0 5 (tasks y)). }
  destruct (strncmp cmd (bytes_of_string "DELAY ") 6 =? 0).
  { destruct sc as [delay msg]. by destruct (add_log msg delay 5 (tasks y)). }
  destruct (strncmp cmd (bytes_of_string "LIST") 4 =? 0).
  { by destruct (print_log (tasks y)). }
  destruct (strncmp cmd (bytes_of_string "SAVE") 4 =? 0).
  { by destruct (save_logs_to_eeprom (tasks y)). }
  destruct (strncmp cmd (bytes_of_string "LOAD") 4 =? 0); done.
Qed.

Lemma ring_front r c cs :
  Ring.ok r → Ring.contents r = c :: cs →
  Ring.buffer_is_empty r = false ∧ (Ring.buffer_read r).1 = c ∧
  Ring.contents (Ring.buffer_read r).2 = cs ∧ Ring.ok (Ring.buffer_read r).2.
Proof.
  intros Hok Hc.
  assert (He : Ring.buffer_is_empty r = false).
  { destruct (Ring.buffer_is_empty r) eqn:He; [|done].
    apply RingProofs.empty_used in He; [|done].
    rewrite <- RingProofs.length_contents, Hc in He. done. }
  pose proof (RingProofs.read_not_empty r Hok He) as Hr. rewrite Hc in Hr.
  injection Hr as -> ->. split; [done|]. split; [done|]. split; [done|].
  by apply RingProofs.ok_read.
Qed.

Lemma read_n_front n r :
  (RingMore.read_n (S n) r).2 = (RingMore.read_n n (Ring.buffer_read r).2).2.
Proof.
  cbn [RingMore.read_n]. destruct (Ring.buffer_read r) as [c r1]. cbn [snd].
  by destruct (RingMore.read_n n r1).
Qed.

Lemma read_n_end n : ∀ r,
  (RingMore.read_n (S n) r).2 = (Ring.buffer_read (RingMore.read_n n r).2).2.
Proof.
  induction n as [|n IH]; intros r.
  - cbn [RingMore.read_n snd]. by destruct (Ring.buffer_read r).
  - rewrite read_n_front, IH, <- read_n_front. done.
Qed.

Lemma take_take_app {A} n (a b : list A) : take n (take n a ++ b) = take n (a ++ b).
Proof.
  destruct (decide (n ≤ length a)%nat) as [Hle|Hgt].
  - rewrite !take_app_le; [by rewrite take_take, Nat.min_id|done|].
    rewrite length_take. lia.
  - by rewrite (take_ge a) by lia.
Qed.

Lemma set_tx_app t a b :
  set_tx (tx (set_tx (tx t ++ a) t) ++ b) (set_tx (tx t ++ a) t)
  = set_tx (tx t ++ a ++ b) t.
Proof. unfold set_tx. proj. by rewrite <- app_assoc. Qed.

(** One pass that finds an ordinary character at the front of the ring. *)
Lemma pass_char sc y c cs p :
  Ring.ok (ring y) → tick y = 0 → Ring.contents (ring y) = c :: cs →
  c ≠ 10 → c ≠ 13 → length (cmd_buf y) = 32%nat → 0 ≤ idx y ≤ 31 →
  take (Z.to_nat (idx y)) (cmd_buf y) = p →
  ∃ y',
    main_iteration PB0 sc y = Some y' ∧
    tasks y' = set_tx (tx (tasks y) ++ [c]) (tasks y) ∧ PORTB y' = PORTB y ∧
    tick y' = 0 ∧ ring y' = (Ring.buffer_read (ring y)).2 ∧
    length (cmd_buf y') = 32%nat ∧ 0 ≤ idx y' ≤ 31 ∧
    take (Z.to_nat (idx y')) (cmd_buf y') = take 31 (p ++ [c]).
Proof.
  intros Hok Htick Hc H10 H13 Hbuf Hidx Hp.
  destruct (ring_front _ _ _ Hok Hc) as (He & Hfst & _ & _).
  assert (Hlp : length p = Z.to_nat (idx y)).
  { rewrite <- Hp, length_take. lia. }
  unfold main_iteration, handle_input. rewrite He. cbn [negb].
  destruct (Ring.buffer_read (ring y)) as [c' r] eqn:Hr. cbn [fst snd] in *. subst c'.
  cbn zeta. sysproj.
  assert (E10 : (c =? 10) = false) by by apply Z.eqb_neq.
  assert (E13 : (c =? 13) = false) by by apply Z.eqb_neq.
  rewrite E10, E13. cbn [orb]. unfold MAX_CMD_LEN.
  destruct (idx y <? 32 - 1) eqn:E; zbool; cbn [mbind option_bind];
    unfold handle_tick; sysproj; rewrite Htick; cbn [negb Z.eqb];
    eexists; (split; [done|]); sysproj; unfold Ring.uart_send;
    do 4 (split; [done|]).
  - rewrite length_insert. split; [done|]. unfold uint8.
    rewrite Z.mod_small by lia. split; [lia|].
    replace (Z.to_nat (idx y + 1)) with (S (Z.to_nat (idx y))) by lia.
    rewrite (take_S_r _ _ c) by (apply list_lookup_insert_eq; lia).
    rewrite take_insert_ge by lia. rewrite Hp.
    rewrite take_ge; [done|]. rewrite length_app, Hlp. simpl. lia.
  - split; [done|]. split; [lia|]. rewrite Hp.
    rewrite take_app_le by lia. rewrite take_ge by lia. done.
Qed.

(** As many passes as the line has characters store the line, cut to 31
    characters, in [cmd_buf] and echo it. *)
Lemma consume_line sc line : ∀ y cs p,
  Ring.ok (ring y) → tick y = 0 → Ring.contents (ring y) = line ++ cs →
  Forall (λ c, c ≠ 10 ∧ c ≠ 13) line →
  length (cmd_buf y) = 32%nat → 0 ≤ idx y ≤ 31 →
  take (Z.to_nat (idx y)) (cmd_buf y) = p →
  ∃ y',
    run PB0 (replicate (length line) (Pass sc)) y = Some y' ∧
    tasks y' = set_tx (tx (tasks y) ++ line) (tasks y) ∧ PORTB y' = PORTB y ∧
    tick y' = 0 ∧ ring y' = (RingMore.read_n (length line) (ring y)).2 ∧
    Ring.ok (ring y') ∧ Ring.contents (ring y') = cs ∧
    length (cmd_buf y') = 32%nat ∧ 0 ≤ idx y' ≤ 31 ∧
    take (Z.to_nat (idx y')) (cmd_buf y') = take 31 (p ++ line).
Proof.
  induction line as [|c line IH]; intros y cs p Hok Htick Hc Hline Hbuf Hidx Hp.
  - exists y. cbn [length replicate run]. split; [done|].
    rewrite !app_nil_r. split; [by destruct (tasks y)|].
    do 5 (split; [done|]). do 2 (split; [done|]).
    rewrite <- Hp, take_take. f_equal. lia.
  - apply Forall_cons in Hline as [[H10 H13] Hline].
    destruct (pass_char sc y c (line ++ cs) p Hok Htick Hc H10 H13 Hbuf Hidx Hp)
      as (y1 & Hy1 & Ht1 & Hp1 & Hk1 & Hr1 & Hb1 & Hi1 & Htk1).
    destruct (ring_front _ _ _ Hok Hc) as (_ & _ & Hc1 & Hok1).
    rewrite <- Hr1 in Hc1, Hok1.
    destruct (IH y1 cs _ Hok1 Hk1 Hc1 Hline Hb1 Hi1 Htk1)
      as (y' & Hy' & Ht' & Hp' & Hk' & Hr' & Hok' & Hc' & Hb' & Hi' & Htk').
    exists y'. cbn [length replicate run step]. rewrite Hy1. cbn [mbind option_bind].
    split; [done|]. split; [by rewrite Ht', Ht1, set_tx_app|].
    split; [by rewrite Hp'|]. split; [done|].
    split; [by rewrite Hr', Hr1, read_n_front|].
    do 4 (split; [done|]).
    rewrite Htk', take_take_app, <- app_assoc. done.
Qed.

Lemma run_app evs1 : ∀ evs2 y,
  run PB0 (evs1 ++ evs2) y = run PB0 evs1 y ≫= run PB0 evs2.
Proof.
  induction evs1 as [|e evs1 IH]; intros evs2 y; [done|].
  cbn [app run]. destruct (step PB0 e y); [apply IH|done].
Qed.

Lemma replicate_end {A} n (x : A) : replicate (S n) x = replicate n x ++ [x].
Proof. induction n as [|n IH]; [done|]. cbn [replicate app] in *. by rewrite <- IH. Qed.

(** X17. From bytes to a command.  The ring holds a line (characters other
    than CR and LF), then a CR or LF, then possibly more; the line buffer is
    idle and no timer tick is pending.  After as many passes as there are
    characters, terminator included, every one of them has been echoed, the ring
    holds what followed the terminator, [idx] is 0 again, and [parse_command] has
    been called exactly once, on the line cut to its first 31 characters; an
    empty line calls nothing. *)
Theorem line_dispatch (sc : Z * list Z) (y : system) (line : list Z) (t : Z)
    (rest : list Z) :
  Ring.ok (ring y) → length (cmd_buf y) = 32%nat → idx y = 0 → tick y = 0 →
  Ring.contents (ring y) = line ++ t :: rest → t = 10 ∨ t = 13 →
  Forall (λ c, c ≠ 10 ∧ c ≠ 13) line →
  let echoed := set_tasks (set_tx (tx (tasks y) ++ line ++ [t]) (tasks y)) y in
  let r' := (RingMore.read_n (S (length line)) (ring y)).2 in
  ∃ buf,
    length buf = 32%nat ∧ c_str buf = c_str (take 31 line) ∧
    Ring.contents r' = rest ∧
    run PB0 (replicate (S (length line)) (Pass sc)) y =
    (λ yp, System (tasks yp) r' buf 0 0 (PORTB yp))
      <$> (if decide (line = []) then Some echoed
           else parse_command PB0 sc (take 31 line) echoed).
Proof.
  intros Hok Hbuf Hidx Htick Hc Ht Hline echoed r'.
  destruct (consume_line sc line y (t :: rest) [] Hok Htick Hc Hline Hbuf)
    as (y1 & Hy1 & Ht1 & Hp1 & Hk1 & Hr1 & Hok1 & Hc1 & Hb1 & Hi1 & Htk1);
    [lia|by rewrite Hidx|].
  cbn [app] in Htk1.
  destruct (ring_front _ _ _ Hok1 Hc1) as (He & Hfst & Hrest & _).
  set (w := take 31 line) in *.
  assert (Hw : length w = Z.to_nat (idx y1)).
  { rewrite <- Htk1, length_take. lia. }
  exists (w ++ 0 :: drop (S (Z.to_nat (idx y1))) (cmd_buf y1)).
  assert (Hins : <[Z.to_nat (idx y1):=0]> (cmd_buf y1)
                 = w ++ 0 :: drop (S (Z.to_nat (idx y1))) (cmd_buf y1)).
  { rewrite insert_take_drop by lia. by rewrite Htk1. }
  split. { rewrite <- Hins. by rewrite length_insert. }
  split; [apply c_str_app_nul_any|].
  assert (Hr' : r' = (Ring.buffer_read (ring y1)).2).
  { unfold r'. by rewrite read_n_end, Hr1. }
  split; [by rewrite Hr'|].
  rewrite replicate_end, run_app, Hy1. cbn [mbind option_bind run step].
  unfold main_iteration, handle_input. rewrite He. cbn [negb].
  destruct (Ring.buffer_read (ring y1)) as [c r] eqn:Hrd. cbn [fst snd] in *.
  subst c r. cbn zeta. sysproj.
  assert (Et : (t =? 10) || (t =? 13) = true).
  { destruct Ht as [-> | ->]; done. }
  rewrite Et, Hins.
  set (B := w ++ 0 :: drop (S (Z.to_nat (idx y1))) (cmd_buf y1)).
  assert (Hsys : set_cmd_buf B (uart_send t (set_ring r' y1))
                 = System (tasks echoed) r' B (idx y1) 0 (PORTB echoed)).
  { unfold set_cmd_buf, uart_send, set_ring, set_tasks, echoed, Ring.uart_send.
    sysproj. rewrite Ht1, Hk1, Hp1, set_tx_app. done. }
  rewrite Hsys.
  destruct (decide (line = [])) as [->|Hne].
  - assert (Hi0 : idx y1 = 0) by (simpl in Hw; lia).
    rewrite Hi0. cbn [Z.ltb Z.compare mbind option_bind].
    unfold handle_tick, set_idx. sysproj. done.
  - assert (Hpos : (0 <? idx y1) = true).
    { apply Z.ltb_lt. destruct line as [|c line]; [done|]. simpl in Hw. lia. }
    rewrite Hpos. unfold B at 1. rewrite parse_command_nul, parse_command_core.
    destruct (parse_command PB0 sc w echoed) as [yp|]; [|done].
    cbn [fmap option_fmap option_map mbind option_bind].
    unfold handle_tick, set_idx. sysproj. done.
Qed.

(** X18. The tick flag.  Any number of timer interrupts before the main loop
    looks, one or many, count as one tick: the next pass (here with nothing to
    read) calls [execute_tasks] exactly once and clears the flag.  A pass that
    finds the flag clear and the ring empty changes nothing. *)
Theorem ticks_coalesce (k : nat) (sc : Z * list Z) (y : system) (l : list entry) :
  inv (tasks y) l → Ring.buffer_is_empty (ring y) = true →
  ∃ t,
    execute_tasks (tasks y) = Some t ∧ inv t (tick_keep l) ∧
    run PB0 (replicate (S k) Timer ++ [Pass sc]) y
    = Some (set_tasks t (set_tick 0 y)) ∧
    (tick y = 0 → run PB0 [Pass sc] y = Some y).
Proof.
  intros Hinv He.
  destruct (execute_tasks_spec _ _ Hinv) as (t & Ht & Hinv' & _).
  exists t. split; [done|]. split; [done|].
  assert (Hpass : ∀ y0, ring y0 = ring y → tasks y0 = tasks y → tick y0 = 1 →
            main_iteration PB0 sc y0 = Some (set_tasks t (set_tick 0 y0))).
  { intros y0 Hr Hts Htk. unfold main_iteration, handle_input.
    rewrite Hr, He. cbn [negb mbind option_bind]. unfold handle_tick.
    rewrite Htk. cbn [negb Z.eqb]. sysproj. rewrite Hts, Ht. done. }
  split.
  - assert (Htimers : ∀ n y0, run PB0 (replicate (S n) Timer ++ [Pass sc]) y0
                      = run PB0 [Pass sc] (set_tick 1 y0)).
    { induction n as [|n IH]; intros y0; [done|].
      change (replicate (S (S n)) Timer ++ [Pass sc])
        with (Timer :: (replicate (S n) Timer ++ [Pass sc])).
      cbn [run step mbind option_bind]. rewrite IH. done. }
    rewrite Htimers. cbn [run step]. rewrite Hpass by done. done.
  - intros Htk. cbn [run step]. unfold main_iteration, handle_input.
    rewrite He. cbn [negb mbind option_bind]. unfold handle_tick.
    rewrite Htk. done.
Qed.

End Board.

(** *** The theorems at concrete inputs *)

(** The board of the examples: pin 0, four blocks for the allocator, an erased
    EEPROM, [PORTB] given. *)
Definition board (portb : Z) : system := startup LoggerProofs.blocks4 ∅ portb.

Lemma board_inv portb : inv (tasks (board portb)) [].
Proof. apply inv_send, inv_boot; apply LoggerProofs.blocks4_ok. Qed.

(** The system after the bytes [bs] have arrived and before the main loop has
    looked at any of them. *)
Definition typed (bs : list Z) : system :=
  foldl (λ y c, USART_RX_vect c y) (board 0) bs.

(** A board whose list holds the task [task_A] (delay 2, priority 3). *)
Definition board_A : system :=
  System LoggerProofs.state_A Ring.init (replicate 32 0) 0 0 0.

Definition sample_events : list event :=
  map Byte (bytes_of_string "LOG hello" ++ [13; 10])
  ++ replicate 11 (Pass (0, [])) ++ [Timer; Timer; Pass (0, [])]
  ++ map Byte (bytes_of_string "SAVE" ++ [10] ++ bytes_of_string "LOAD" ++ [10; 200; 0; 10])
  ++ replicate 12 (Pass (0, [])) ++ [Timer; Pass (0, [])]
  ++ map Byte (bytes_of_string "LIST" ++ [13]) ++ replicate 5 (Pass (0, [])).

Lemma firmware_safe_witness :
  ∃ y l,
    run 0 sample_events (startup LoggerProofs.blocks4 zeroed 0) = Some y ∧
    inv (tasks y) l ∧ Forall terminated l ∧
    length (Ring.rx_buffer (ring y)) = 64%nat ∧
    0 ≤ Ring.head (ring y) < 64 ∧ 0 ≤ Ring.tail (ring y) < 64 ∧
    length (cmd_buf y) = 32%nat ∧ 0 ≤ idx y ≤ 31 ∧
    pool (tasks y) ++ addrs l ≡ₚ LoggerProofs.blocks4.
Proof.
  apply (firmware_safe 0 LoggerProofs.blocks4 zeroed 0 sample_events sample_events).
  - apply LoggerProofs.blocks4_ok.
  - apply LoggerProofs.blocks4_ok.
  - vm_compute. by repeat constructor.
  - intros _. split; [by vm_compute|]. vm_compute. reflexivity.
  - reflexivity.
Defined.

(** The commands of [sample_events], as [parse_command] gets them. *)
Example sample_commands :
  c_str <$> commands 0 sample_events (startup LoggerProofs.blocks4 zeroed 0)
  = [bytes_of_string "LOG hello"; bytes_of_string "SAVE"; bytes_of_string "LOAD";
     [200]; bytes_of_string "LIST"].
Proof. by vm_compute. Qed.

Lemma log_command_witness :
  ∃ y',
    parse_command 0 (0, []) (bytes_of_string "LOG " ++ bytes_of_string "hello")
      (board 0) = Some y' ∧
    tx (tasks y') = tx (tasks (board 0)) ++ bytes_of_string "Log added" ++ [10] ∧
    PORTB y' = PORTB (board 0) ∧
    match pool (tasks (board 0)) with
    | [] => inv (tasks y') [] ∧ pool (tasks y') = []
    | a :: bl =>
        inv (tasks y') (ins (new_entry a (bytes_of_string "hello") 0 5) []) ∧
        pool (tasks y') = bl
    end.
Proof.
  apply (log_command 0 (0, []) (bytes_of_string "hello") (board 0) []).
  apply board_inv.
Defined.

Lemma led_commands_witness :
  ∃ y_on y_off,
    parse_command 0 (0, []) (bytes_of_string "LED ON" ++ bytes_of_string "LY") (board 4)
      = Some y_on ∧
    parse_command 0 (0, []) (bytes_of_string "LED OFF" ++ bytes_of_string "LY") (board 4)
      = Some y_off ∧
    tasks y_on = uart_send_str (bytes_of_string "LED ON" ++ [10]) (tasks (board 4)) ∧
    tasks y_off = uart_send_str (bytes_of_string "LED OFF" ++ [10]) (tasks (board 4)) ∧
    0 ≤ PORTB y_on < 256 ∧ 0 ≤ PORTB y_off < 256 ∧
    (∀ i, 0 ≤ i →
          Z.testbit (PORTB y_on) i
          = (if i =? 0 then true else Z.testbit (PORTB (board 4)) i) ∧
          Z.testbit (PORTB y_off) i
          = (if i =? 0 then false else Z.testbit (PORTB (board 4)) i)).
Proof.
  apply (led_commands 0 (0, []) (bytes_of_string "LY") (board 4)).
  - lia.
  - cbn. lia.
Defined.

Lemma keyword_dispatch_witness :
  parse_command 0 (0, []) (bytes_of_string "HELP") (board 0)
  = Some (set_tasks (uart_send_str (bytes_of_string "Unknown command" ++ [10])
                                   (tasks (board 0))) (board 0)).
Proof.
  apply (proj2 (proj2 (proj2
           (keyword_dispatch 0 (0, []) [] (bytes_of_string "HELP") (board 0)))));
    cbn; lia.
Defined.

Lemma line_dispatch_witness :
  let y := typed (bytes_of_string "LIST" ++ [13; 10] ++ bytes_of_string "SA") in
  let line := bytes_of_string "LIST" in
  let echoed := set_tasks (set_tx (tx (tasks y) ++ line ++ [13]) (tasks y)) y in
  let r' := (RingMore.read_n (S (length line)) (ring y)).2 in
  ∃ buf,
    length buf = 32%nat ∧ c_str buf = c_str (take 31 line) ∧
    Ring.contents r' = 10 :: bytes_of_string "SA" ∧
    run 0 (replicate (S (length line)) (Pass (0, []))) y =
    (λ yp, System (tasks yp) r' buf 0 0 (PORTB yp))
      <$> (if decide (line = []) then Some echoed
           else parse_command 0 (0, []) (take 31 line) echoed).
Proof.
  intros y line.
  apply (line_dispatch 0 (0, []) y line 13 (10 :: bytes_of_string "SA")).
  - vm_compute. intuition congruence.
  - reflexivity.
  - reflexivity.
  - reflexivity.
  - reflexivity.
  - by right.
  - vm_compute. repeat (apply Forall_cons; split; [done|]). by apply Forall_nil.
Defined.

Lemma ticks_coalesce_witness :
  ∃ t,
    execute_tasks (tasks board_A) = Some t ∧
    inv t (tick_keep [LoggerProofs.task_A]) ∧
    run 0 (replicate 3 Timer ++ [Pass (0, [])]) board_A
    = Some (set_tasks t (set_tick 0 board_A)) ∧
    (tick board_A = 0 → run 0 [Pass (0, [])] board_A = Some board_A).
Proof.
  apply (ticks_coalesce 0 2 (0, []) board_A [LoggerProofs.task_A]).
  - apply LoggerProofs.state_A_inv.
  - reflexivity.
Defined.

End FirmwareProofs.
